(** * useWebRTC: the connection-establishment core of P2P-Match

    A shallow embedding of the [useWebRTC] hook (hooks/useWebRTC.ts) and of
    the copy/paste signaling text of [SignalingInterface.tsx].

    The hook is a set of asynchronous functions over shared mutable cells
    (React state and refs) and a browser [RTCPeerConnection].  It is modelled
    as it runs on the JavaScript event loop:

    - the cells are a record [Hook]; the browser side is a store of peer
      connections addressed by handle, so that a closed connection and its
      replacement are distinct objects;
    - an [async] function is a resumption: running it executes its first
      synchronous segment and either finishes or stops at an [await] with a
      continuation ([Step]);
    - while a function is suspended the event loop runs other tasks: the
      handlers the hook registered on the connections, and the user's
      [resetConnection];
    - what the browser answers (which tasks run during an await, whether a
      promise resolves or rejects, with what) is not decided by the hook; it
      is read from an [Oracle], and the theorems are for all oracles.

    Three things are taken for granted about the platform: an awaited
    promise settles; a timer fires when it is due, timers due together in
    the order they were set; and a task takes no time.  [console.log] calls
    are left out.  The local stream, the camera and the microphone, which
    the negotiation never reads, and the page that uses the hook are
    modelled after the negotiation, in sections of their own. *)

From Stdlib Require Import NArith String Ascii Lia DecimalFacts DecimalN.
From stdpp Require Import base option list.

Set Default Proof Using "Type".

(** ** Data model *)

(** A JavaScript string: a sequence of UTF-16 code units. *)
Definition JSString := list N.

(** The code units of an ASCII literal. *)
Definition js (s : string) : JSString :=
  map N_of_ascii (list_ascii_of_string s).

(** [type: 'offer' | 'answer'] *)
Inductive RTCSdpType := offer | answer.

(** What identifies an [RTCIceCandidate]: the four members its [toJSON]
    yields and its constructor takes ([RTCIceCandidateInit]). *)
Record RTCIceCandidate := {
  candidate : JSString;
  sdpMid : option JSString;
  sdpMLineIndex : option N;
  usernameFragment : option JSString
}.

(** [interface SignalingData] *)
Record SignalingData := {
  type : RTCSdpType;
  sdp : JSString;
  iceCandidates : list RTCIceCandidate
}.

(** [RTCPeerConnectionState] *)
Inductive RTCPeerConnectionState :=
  new | connecting | connected | disconnected | failed | closed.

(** [RTCIceGatheringState]; its ['new'] is [gathering_new]. *)
Inductive RTCIceGatheringState := gathering_new | gathering | complete.

(** [RTCIceConnectionState]; only logged by the hook. *)
Inductive RTCIceConnectionState :=
  ice_new | ice_checking | ice_connected | ice_completed
| ice_failed | ice_disconnected | ice_closed.

(** A [MediaStream], by identity. *)
Definition MediaStream := nat.

(** [RTCSessionDescriptionInit] *)
Definition RTCSessionDescription : Type := RTCSdpType * JSString.

(** The browser's side of one [RTCPeerConnection] object. *)
Record RTCPeerConnection := {
  pc_closed : bool;
  pc_connectionState : RTCPeerConnectionState;
  pc_iceConnectionState : RTCIceConnectionState;
  pc_iceGatheringState : RTCIceGatheringState;
  pc_localDescription : option RTCSessionDescription;
  pc_remoteDescription : option RTCSessionDescription;
  pc_remoteCandidates : list RTCIceCandidate
}.

(** A handle is the position of the object in the store. *)
Abbreviation Handle := nat (only parsing).

(** The hook's cells: the [useState] values the claims read, and the
    [useRef] cells. *)
Record Hook := {
  remoteStream : option MediaStream;
  isConnected : bool;
  isConnecting : bool;
  connectionState : RTCPeerConnectionState;
  peerConnectionRef : option Handle;
  iceCandidatesRef : list RTCIceCandidate;
  isCreatingAnswerRef : bool;
  isActivelyConnectingRef : bool
}.

(** Everything that changes: the hook, every peer connection ever
    constructed, and the time in milliseconds. *)
Record World := {
  hook : Hook;
  pcs : list RTCPeerConnection;
  now : N
}.

(** *** Writing one cell *)

Definition setRemoteStream (v : option MediaStream) (w : World) : World :=
  let h := hook w in
  {| hook := {| remoteStream := v; isConnected := isConnected h;
                isConnecting := isConnecting h;
                connectionState := connectionState h;
                peerConnectionRef := peerConnectionRef h;
                iceCandidatesRef := iceCandidatesRef h;
                isCreatingAnswerRef := isCreatingAnswerRef h;
                isActivelyConnectingRef := isActivelyConnectingRef h |};
     pcs := pcs w; now := now w |}.

Definition setIsConnected (v : bool) (w : World) : World :=
  let h := hook w in
  {| hook := {| remoteStream := remoteStream h; isConnected := v;
                isConnecting := isConnecting h;
                connectionState := connectionState h;
                peerConnectionRef := peerConnectionRef h;
                iceCandidatesRef := iceCandidatesRef h;
                isCreatingAnswerRef := isCreatingAnswerRef h;
                isActivelyConnectingRef := isActivelyConnectingRef h |};
     pcs := pcs w; now := now w |}.

Definition setIsConnecting (v : bool) (w : World) : World :=
  let h := hook w in
  {| hook := {| remoteStream := remoteStream h; isConnected := isConnected h;
                isConnecting := v;
                connectionState := connectionState h;
                peerConnectionRef := peerConnectionRef h;
                iceCandidatesRef := iceCandidatesRef h;
                isCreatingAnswerRef := isCreatingAnswerRef h;
                isActivelyConnectingRef := isActivelyConnectingRef h |};
     pcs := pcs w; now := now w |}.

Definition setConnectionState (v : RTCPeerConnectionState) (w : World)
  : World :=
  let h := hook w in
  {| hook := {| remoteStream := remoteStream h; isConnected := isConnected h;
                isConnecting := isConnecting h;
                connectionState := v;
                peerConnectionRef := peerConnectionRef h;
                iceCandidatesRef := iceCandidatesRef h;
                isCreatingAnswerRef := isCreatingAnswerRef h;
                isActivelyConnectingRef := isActivelyConnectingRef h |};
     pcs := pcs w; now := now w |}.

Definition setPeerConnectionRef (v : option Handle) (w : World) : World :=
  let h := hook w in
  {| hook := {| remoteStream := remoteStream h; isConnected := isConnected h;
                isConnecting := isConnecting h;
                connectionState := connectionState h;
                peerConnectionRef := v;
                iceCandidatesRef := iceCandidatesRef h;
                isCreatingAnswerRef := isCreatingAnswerRef h;
                isActivelyConnectingRef := isActivelyConnectingRef h |};
     pcs := pcs w; now := now w |}.

Definition setIceCandidatesRef (v : list RTCIceCandidate) (w : World)
  : World :=
  let h := hook w in
  {| hook := {| remoteStream := remoteStream h; isConnected := isConnected h;
                isConnecting := isConnecting h;
                connectionState := connectionState h;
                peerConnectionRef := peerConnectionRef h;
                iceCandidatesRef := v;
                isCreatingAnswerRef := isCreatingAnswerRef h;
                isActivelyConnectingRef := isActivelyConnectingRef h |};
     pcs := pcs w; now := now w |}.

Definition setIsCreatingAnswerRef (v : bool) (w : World) : World :=
  let h := hook w in
  {| hook := {| remoteStream := remoteStream h; isConnected := isConnected h;
                isConnecting := isConnecting h;
                connectionState := connectionState h;
                peerConnectionRef := peerConnectionRef h;
                iceCandidatesRef := iceCandidatesRef h;
                isCreatingAnswerRef := v;
                isActivelyConnectingRef := isActivelyConnectingRef h |};
     pcs := pcs w; now := now w |}.

Definition setIsActivelyConnectingRef (v : bool) (w : World) : World :=
  let h := hook w in
  {| hook := {| remoteStream := remoteStream h; isConnected := isConnected h;
                isConnecting := isConnecting h;
                connectionState := connectionState h;
                peerConnectionRef := peerConnectionRef h;
                iceCandidatesRef := iceCandidatesRef h;
                isCreatingAnswerRef := isCreatingAnswerRef h;
                isActivelyConnectingRef := v |};
     pcs := pcs w; now := now w |}.

Definition setPcs (v : list RTCPeerConnection) (w : World) : World :=
  {| hook := hook w; pcs := v; now := now w |}.

Definition setNow (v : N) (w : World) : World :=
  {| hook := hook w; pcs := pcs w; now := v |}.

(** ** The browser's peer connections *)

(** [new RTCPeerConnection(config)].  The configuration (ICE servers, pool
    size, bundle and mux policies) is a constant of the hook and does not
    reach any cell. *)
Definition newPeerConnection : RTCPeerConnection :=
  {| pc_closed := false;
     pc_connectionState := new;
     pc_iceConnectionState := ice_new;
     pc_iceGatheringState := gathering_new;
     pc_localDescription := None;
     pc_remoteDescription := None;
     pc_remoteCandidates := [] |}.

(** [pc.close()]: the object is closed for good; its states read 'closed'
    and no event is fired for that. *)
Definition closePeerConnection (pc : RTCPeerConnection) : RTCPeerConnection :=
  {| pc_closed := true;
     pc_connectionState := closed;
     pc_iceConnectionState := ice_closed;
     pc_iceGatheringState := pc_iceGatheringState pc;
     pc_localDescription := pc_localDescription pc;
     pc_remoteDescription := pc_remoteDescription pc;
     pc_remoteCandidates := pc_remoteCandidates pc |}.

Definition close (h : Handle) (w : World) : World :=
  setPcs (alter closePeerConnection h (pcs w)) w.

(** The connection a handle names, when it is still open. *)
Definition openPc (w : World) (h : Handle) : option RTCPeerConnection :=
  match pcs w !! h with
  | Some pc => if pc_closed pc then None else Some pc
  | None => None
  end.

(** How many connections are open. *)
Definition openHandles (w : World) : nat :=
  length (filter (fun pc => pc_closed pc = false) (pcs w)).

(** How many connections are open and out of the hook's reach: open, and
    not the one [peerConnectionRef] holds. *)
Fixpoint leakedFrom (i : Handle) (cur : option Handle)
  (l : list RTCPeerConnection) : nat :=
  match l with
  | [] => 0
  | pc :: l' =>
      (if pc_closed pc then 0
       else if decide (cur = Some i) then 0 else 1)
      + leakedFrom (S i) cur l'
  end.

Definition leakedHandles (w : World) : nat :=
  leakedFrom 0 (peerConnectionRef (hook w)) (pcs w).

(** ** Synchronous functions of the hook *)

(** The cells as [useState]/[useRef] initialise them, before the mount
    effect has run. *)
Definition initialHook : Hook :=
  {| remoteStream := None; isConnected := false; isConnecting := false;
     connectionState := new; peerConnectionRef := None;
     iceCandidatesRef := []; isCreatingAnswerRef := false;
     isActivelyConnectingRef := false |}.

Definition initialWorld : World :=
  {| hook := initialHook; pcs := []; now := 0%N |}.

(** [if (peerConnectionRef.current) { peerConnectionRef.current.close(); }] *)
Definition closeCurrent (w : World) : World :=
  match peerConnectionRef (hook w) with
  | Some h => close h w
  | None => w
  end.

(** [new RTCPeerConnection(...)], stored in the store's next free slot. *)
Definition construct (w : World) : Handle * World :=
  (length (pcs w), setPcs (pcs w ++ [newPeerConnection]) w).

(** [initializePeerConnection]: close the connection the ref holds, if any,
    construct a new one, store it in the ref and replace the accumulator by
    an empty array.  The handlers it installs are [runTask] below. *)
Definition initializePeerConnection (w : World) : World :=
  let '(h, w1) := construct (closeCurrent w) in
  setIceCandidatesRef [] (setPeerConnectionRef (Some h) w1).

(** [resetConnection] *)
Definition resetConnection (w : World) : World :=
  let w1 := closeCurrent w in
  let w2 := setRemoteStream None w1 in
  let w3 := setIsConnected false w2 in
  let w4 := setIsConnecting false w3 in
  let w5 := setConnectionState new w4 in
  let w6 := setIsActivelyConnectingRef false w5 in
  let w7 := setIsCreatingAnswerRef false w6 in
  initializePeerConnection w7.

(** The calls that open and replace sessions. *)
Inductive LifecycleCall := Initialize | Reset.

Definition lifecycle (c : LifecycleCall) : World -> World :=
  match c with
  | Initialize => initializePeerConnection
  | Reset => resetConnection
  end.

(** A sequence of such calls, first to last. *)
Definition runLifecycle (cs : list LifecycleCall) (w : World) : World :=
  foldl (fun w' c => lifecycle c w') w cs.

(** The hook once mounted: the mount effect calls
    [initializePeerConnection]. *)
Definition mounted : World := initializePeerConnection initialWorld.

(** ** Tasks: what the event loop runs between two segments *)

#[global] Instance RTCPeerConnectionState_eq_dec :
  EqDecision RTCPeerConnectionState.
Proof. solve_decision. Defined.

#[global] Instance RTCIceGatheringState_eq_dec :
  EqDecision RTCIceGatheringState.
Proof. solve_decision. Defined.

(** The four events the hook listens to (and [iceconnectionstatechange],
    which it only logs), each on the connection that fires it, and the one
    command a user can give while a negotiation step is suspended. *)
Inductive Task :=
| ConnectionStateChange (h : Handle) (st : RTCPeerConnectionState)
| TrackEvent (h : Handle) (stream : MediaStream)
| IceCandidateEvent (h : Handle) (c : option RTCIceCandidate)
| IceConnectionStateChange (h : Handle) (st : RTCIceConnectionState)
| IceGatheringStateChange (h : Handle) (st : RTCIceGatheringState)
| UserReset.

Definition withConnectionState (st : RTCPeerConnectionState)
  (pc : RTCPeerConnection) : RTCPeerConnection :=
  {| pc_closed := pc_closed pc;
     pc_connectionState := st;
     pc_iceConnectionState := pc_iceConnectionState pc;
     pc_iceGatheringState := pc_iceGatheringState pc;
     pc_localDescription := pc_localDescription pc;
     pc_remoteDescription := pc_remoteDescription pc;
     pc_remoteCandidates := pc_remoteCandidates pc |}.

Definition withIceConnectionState (st : RTCIceConnectionState)
  (pc : RTCPeerConnection) : RTCPeerConnection :=
  {| pc_closed := pc_closed pc;
     pc_connectionState := pc_connectionState pc;
     pc_iceConnectionState := st;
     pc_iceGatheringState := pc_iceGatheringState pc;
     pc_localDescription := pc_localDescription pc;
     pc_remoteDescription := pc_remoteDescription pc;
     pc_remoteCandidates := pc_remoteCandidates pc |}.

Definition withIceGatheringState (st : RTCIceGatheringState)
  (pc : RTCPeerConnection) : RTCPeerConnection :=
  {| pc_closed := pc_closed pc;
     pc_connectionState := pc_connectionState pc;
     pc_iceConnectionState := pc_iceConnectionState pc;
     pc_iceGatheringState := st;
     pc_localDescription := pc_localDescription pc;
     pc_remoteDescription := pc_remoteDescription pc;
     pc_remoteCandidates := pc_remoteCandidates pc |}.

Definition withLocalDescription (d : RTCSessionDescription)
  (pc : RTCPeerConnection) : RTCPeerConnection :=
  {| pc_closed := pc_closed pc;
     pc_connectionState := pc_connectionState pc;
     pc_iceConnectionState := pc_iceConnectionState pc;
     pc_iceGatheringState := pc_iceGatheringState pc;
     pc_localDescription := Some d;
     pc_remoteDescription := pc_remoteDescription pc;
     pc_remoteCandidates := pc_remoteCandidates pc |}.

Definition withRemoteDescription (d : RTCSessionDescription)
  (pc : RTCPeerConnection) : RTCPeerConnection :=
  {| pc_closed := pc_closed pc;
     pc_connectionState := pc_connectionState pc;
     pc_iceConnectionState := pc_iceConnectionState pc;
     pc_iceGatheringState := pc_iceGatheringState pc;
     pc_localDescription := pc_localDescription pc;
     pc_remoteDescription := Some d;
     pc_remoteCandidates := pc_remoteCandidates pc |}.

Definition withRemoteCandidate (c : RTCIceCandidate)
  (pc : RTCPeerConnection) : RTCPeerConnection :=
  {| pc_closed := pc_closed pc;
     pc_connectionState := pc_connectionState pc;
     pc_iceConnectionState := pc_iceConnectionState pc;
     pc_iceGatheringState := pc_iceGatheringState pc;
     pc_localDescription := pc_localDescription pc;
     pc_remoteDescription := pc_remoteDescription pc;
     pc_remoteCandidates := pc_remoteCandidates pc ++ [c] |}.

(** [peerConnection.onconnectionstatechange], as installed on the
    connection [h]: it reads the state of its own connection. *)
Definition onconnectionstatechange (h : Handle) (w : World) : World :=
  match pcs w !! h with
  | None => w
  | Some pc =>
      let state := pc_connectionState pc in
      let w1 := setConnectionState state w in
      let w2 := setIsConnected (bool_decide (state = connected)) w1 in
      if isActivelyConnectingRef (hook w2)
         && bool_decide (state = connecting)
      then setIsConnecting true w2
      else if bool_decide (state = connected)
              || bool_decide (state = disconnected)
              || bool_decide (state = failed)
      then setIsActivelyConnectingRef false (setIsConnecting false w2)
      else w2
  end.

(** [peerConnection.ontrack]: [setRemoteStream(event.streams[0])]. *)
Definition ontrack (stream : MediaStream) (w : World) : World :=
  setRemoteStream (Some stream) w.

(** [peerConnection.onicecandidate]: a candidate that is not null is pushed
    on the array the accumulator ref holds at that moment. *)
Definition onicecandidate (c : option RTCIceCandidate) (w : World) : World :=
  match c with
  | Some cand => setIceCandidatesRef (iceCandidatesRef (hook w) ++ [cand]) w
  | None => w
  end.

(** One task.  An event first changes the attribute of the connection it
    is about, then the handler of that connection runs.  The handlers stay
    installed on a connection after [close()]; that a browser fires nothing
    on a closed connection is a property of the browser, and nothing below
    relies on it. *)
Definition runTask (t : Task) (w : World) : World :=
  match t with
  | ConnectionStateChange h st =>
      onconnectionstatechange h
        (setPcs (alter (withConnectionState st) h (pcs w)) w)
  | TrackEvent h stream =>
      match pcs w !! h with
      | Some _ => ontrack stream w
      | None => w
      end
  | IceCandidateEvent h c =>
      match pcs w !! h with
      | Some _ => onicecandidate c w
      | None => w
      end
  | IceConnectionStateChange h st =>
      setPcs (alter (withIceConnectionState st) h (pcs w)) w
  | IceGatheringStateChange h st =>
      setPcs (alter (withIceGatheringState st) h (pcs w)) w
  | UserReset => resetConnection w
  end.

(** The world after all the tasks of a list, run in order. *)
Fixpoint afterTasks (ts : list Task) (w : World) : World :=
  match ts with
  | [] => w
  | t :: ts' => afterTasks ts' (runTask t w)
  end.

(** The worlds after each task of a list, in order. *)
Fixpoint runTasks (ts : list Task) (w : World) : list World :=
  match ts with
  | [] => []
  | t :: ts' => let w' := runTask t w in w' :: runTasks ts' w'
  end.

(** ** Asynchronous functions as resumptions *)

(** What the hook can wait for: a promise of the connection [h], or the
    next timer of the gathering wait. *)
Inductive Call :=
| PcCreateOffer (h : Handle)
| PcCreateAnswer (h : Handle)
| PcSetLocalDescription (h : Handle) (d : RTCSessionDescription)
| PcSetRemoteDescription (h : Handle) (d : RTCSessionDescription)
| PcAddIceCandidate (h : Handle) (c : RTCIceCandidate)
| Timer (ms : N).

(** How a promise settles: resolved (with the SDP text, for [createOffer]
    and [createAnswer]) or rejected with the browser's error. *)
Inductive Reply :=
| Resolved (v : JSString)
| Rejected (e : JSString).

(** What a function can throw. *)
Inductive Error :=
| NotInitialized                (* new Error('Peer connection not initialized') *)
| NullDereference               (* a member read on a null ref *)
| TransportError (e : JSString) (* a rejected promise of the connection *).

Inductive Outcome (A : Type) :=
| Returned (a : A)
| Thrown (e : Error).
Arguments Returned {A} a.
Arguments Thrown {A} e.

(** A function that has run up to its end, or up to an [await]. *)
Inductive Step (A : Type) :=
| Done (w : World) (r : Outcome A)
| Susp (w : World) (c : Call) (k : Reply -> World -> Step A).
Arguments Done {A} w r.
Arguments Susp {A} w c k.

Definition Async (A : Type) : Type := World -> Step A.

Definition ret {A} (a : A) : Async A := fun w => Done w (Returned a).

Definition throw {A} (e : Error) : Async A := fun w => Done w (Thrown e).

Definition modify (f : World -> World) : Async unit :=
  fun w => Done (f w) (Returned tt).

Fixpoint bindStep {A B} (st : Step A) (f : A -> Async B) : Step B :=
  match st with
  | Done w (Returned a) => f a w
  | Done w (Thrown e) => Done w (Thrown e)
  | Susp w c k => Susp w c (fun r w' => bindStep (k r w') f)
  end.

Definition bind {A B} (m : Async A) (f : A -> Async B) : Async B :=
  fun w => bindStep (m w) f.

(** [try { m } catch (error) { handler error }] *)
Fixpoint catchStep {A} (st : Step A) (handler : Error -> Async A) : Step A :=
  match st with
  | Done w (Returned a) => Done w (Returned a)
  | Done w (Thrown e) => handler e w
  | Susp w c k => Susp w c (fun r w' => catchStep (k r w') handler)
  end.

Definition tryCatch {A} (m : Async A) (handler : Error -> Async A)
  : Async A :=
  fun w => catchStep (m w) handler.

Notation "x <~ m ;; k" := (bind m (fun x => k))
  (at level 100, m at next level, right associativity).
Notation "m ;;; k" := (bind m (fun _ => k))
  (at level 100, right associativity).

(** [await] of a promise: suspend; resume with the value, or throw the
    rejection. *)
Definition await (c : Call) : Async JSString :=
  fun w => Susp w c (fun r w' =>
    match r with
    | Resolved v => Done w' (Returned v)
    | Rejected e => Done w' (Thrown (TransportError e))
    end).

(** [peerConnectionRef.current.] before a member: the connection the ref
    holds now, a [TypeError] when it holds null. *)
Definition currentPc : Async Handle :=
  fun w => match peerConnectionRef (hook w) with
           | Some h => Done w (Returned h)
           | None => Done w (Thrown NullDereference)
           end.

(** [for (const x of xs) { body x }] *)
Fixpoint forOf {X} (xs : list X) (body : X -> Async unit) : Async unit :=
  match xs with
  | [] => ret tt
  | x :: xs' => body x ;;; forOf xs' body
  end.

(** ** The negotiation functions *)

(** The timer of the gathering wait, [setTimeout(..., 2000)], and the delay
    between two polls, [setTimeout(checkIceGathering, 100)]. *)
Definition GATHERING_TIMEOUT_MS : N := 2000%N.
Definition POLL_INTERVAL_MS : N := 100%N.

(** [peerConnectionRef.current?.iceGatheringState === 'complete'] *)
Definition gatheringComplete (w : World) : bool :=
  match peerConnectionRef (hook w) with
  | Some h =>
      match pcs w !! h with
      | Some pc => bool_decide (pc_iceGatheringState pc = complete)
      | None => false
      end
  | None => false
  end.

(** [checkIceGathering], with [polls] polls left before the 2000 ms timer
    is due.  A poll that finds gathering complete resolves the promise;
    otherwise the next poll is 100 ms later.  Timers fire when due, and two
    timers due at the same time fire in the order they were set: the
    2000 ms timer, set first, is due together with the poll at 2000 ms and
    runs before it, so that poll and the ones after it find the promise
    already resolved and change nothing. *)
Fixpoint checkIceGathering (polls : nat) : Async unit :=
  fun w =>
    match polls with
    | O => Done w (Returned tt)
    | S n =>
        if gatheringComplete w then Done w (Returned tt)
        else Susp w (Timer POLL_INTERVAL_MS)
               (fun _ w' => checkIceGathering n w')
    end.

(** The promise both [createOffer] and [createAnswer] await after
    [setLocalDescription]: the polls at 0, 100, ..., 1900 ms, then the
    timeout. *)
Definition awaitGatheringSettled : Async unit :=
  checkIceGathering (N.to_nat (GATHERING_TIMEOUT_MS / POLL_INTERVAL_MS)).

(** [createOffer].  The payload holds the accumulator array itself; its
    content is taken as it is when the function returns. *)
Definition createOffer : Async SignalingData :=
  fun w =>
    match peerConnectionRef (hook w) with
    | None => Done w (Thrown NotInitialized)
    | Some _ =>
        tryCatch
          (modify (setIceCandidatesRef []) ;;;
           pc <~ currentPc ;;
           offerSdp <~ await (PcCreateOffer pc) ;;
           pc' <~ currentPc ;;
           _ <~ await (PcSetLocalDescription pc' (offer, offerSdp)) ;;
           awaitGatheringSettled ;;;
           (fun w' =>
              ret {| type := offer; sdp := offerSdp;
                     iceCandidates := iceCandidatesRef (hook w') |} w'))
          (fun error => throw error)
          w
    end.

(** [handleAnswer] *)
Definition handleAnswer (answerData : SignalingData) : Async unit :=
  fun w =>
    match peerConnectionRef (hook w) with
    | None => Done w (Thrown NotInitialized)
    | Some _ =>
        tryCatch
          (modify (setIsCreatingAnswerRef false) ;;;
           modify (setIsActivelyConnectingRef true) ;;;
           modify (setIsConnecting true) ;;;
           pc <~ currentPc ;;
           _ <~ await (PcSetRemoteDescription pc (answer, sdp answerData)) ;;
           forOf (iceCandidates answerData) (fun candidate =>
             pc' <~ currentPc ;;
             _ <~ await (PcAddIceCandidate pc' candidate) ;;
             ret tt))
          (fun error => modify (setIsConnecting false) ;;; throw error)
          w
    end.

(** [createAnswer]; for the payload's array see [createOffer]. *)
Definition createAnswer (offerData : SignalingData) : Async SignalingData :=
  fun w =>
    match peerConnectionRef (hook w) with
    | None => Done w (Thrown NotInitialized)
    | Some _ =>
        tryCatch
          (modify (setIceCandidatesRef []) ;;;
           modify (setIsCreatingAnswerRef true) ;;;
           pc <~ currentPc ;;
           _ <~ await (PcSetRemoteDescription pc (offer, sdp offerData)) ;;
           forOf (iceCandidates offerData) (fun candidate =>
             pc' <~ currentPc ;;
             _ <~ await (PcAddIceCandidate pc' candidate) ;;
             ret tt) ;;;
           pc1 <~ currentPc ;;
           answerSdp <~ await (PcCreateAnswer pc1) ;;
           pc2 <~ currentPc ;;
           _ <~ await (PcSetLocalDescription pc2 (answer, answerSdp)) ;;
           awaitGatheringSettled ;;;
           (fun w' =>
              (modify (setIsCreatingAnswerRef false) ;;;
               ret {| type := answer; sdp := answerSdp;
                      iceCandidates := iceCandidatesRef (hook w') |}) w'))
          (fun error =>
             modify (setIsCreatingAnswerRef false) ;;; throw error)
          w
    end.

(** [handleOffer]: [await createAnswer(answerData)], the value dropped. *)
Definition handleOffer (answerData : SignalingData) : Async unit :=
  _ <~ createAnswer answerData ;; ret tt.

(** ** The browser as an oracle *)

(** What happens during one suspension: how long it lasts, the tasks that
    run meanwhile, and how the awaited promise settles. *)
Record Response := {
  latency : N;
  tasks : list Task;
  reply : Reply
}.

(** One response per suspension, numbered from the start of the run. *)
Definition Oracle := nat -> Response.

(** A suspension where nothing happens and the promise resolves. *)
Definition quiet : Response :=
  {| latency := 0%N; tasks := []; reply := Resolved [] |}.

(** The oracle that follows a list, and is quiet after it. *)
Definition script (l : list Response) : Oracle :=
  fun i => default quiet (l !! i).

(** What a resolved promise has changed in the connection. *)
Definition commit (c : Call) (w : World) : World :=
  match c with
  | PcSetLocalDescription h d =>
      setPcs (alter (withLocalDescription d) h (pcs w)) w
  | PcSetRemoteDescription h d =>
      setPcs (alter (withRemoteDescription d) h (pcs w)) w
  | PcAddIceCandidate h c' =>
      setPcs (alter (withRemoteCandidate c') h (pcs w)) w
  | PcCreateOffer _ | PcCreateAnswer _ | Timer _ => w
  end.

(** The end of a suspension.  A timer is due after its delay and cannot
    fail; a promise of the connection settles as the browser decides. *)
Definition settle (c : Call) (r : Response) (w : World) : World * Reply :=
  match c with
  | Timer ms => (setNow (now w + ms)%N w, Resolved [])
  | _ =>
      let w' := setNow (now w + latency r)%N w in
      match reply r with
      | Resolved v => (commit c w', Resolved v)
      | Rejected e => (w', Rejected e)
      end
  end.

(** A finished run: every world at which the event loop was idle (each
    suspension, the world after each task, the end), the last world, and
    what the function returned or threw. *)
Record Run (A : Type) := {
  visited : list World;
  final : World;
  outcome : Outcome A
}.
Arguments visited {A} r.
Arguments final {A} r.
Arguments outcome {A} r.

(** Running a function to its end against an oracle, from suspension
    number [i]. *)
Fixpoint exec {A} (st : Step A) (o : Oracle) (i : nat) : Run A :=
  match st with
  | Done w r => {| visited := [w]; final := w; outcome := r |}
  | Susp w c k =>
      let w1 := afterTasks (tasks (o i)) w in
      let '(w2, r) := settle c (o i) w1 in
      let rest := exec (k r w2) o (S i) in
      {| visited := w :: runTasks (tasks (o i)) w ++ visited rest;
         final := final rest;
         outcome := outcome rest |}
  end.

Definition run {A} (m : Async A) (o : Oracle) (w : World) : Run A :=
  exec (m w) o 0.

(** ** The signaling text: [JSON.stringify] and [JSON.parse]

    [SignalingInterface.tsx] shows and copies a payload as
    [JSON.stringify(offerData, null, 2)] and reads the pasted text with
    [JSON.parse(offerInput)].  The two built-ins are modelled after
    ECMA-262 (25.5) on the values a payload is made of: null, booleans,
    non-negative integers, strings, arrays and objects. *)
Module JSON.

Local Open Scope N_scope.

(** A JSON value.  An object keeps its members in the order they were
    created. *)
Inductive value :=
| JNull
| JBool (b : bool)
| JNumber (n : N)
| JString (s : JSString)
| JArray (vs : list value)
| JObject (ms : list (JSString * value)).

(** *** [JSON.stringify(value, null, 2)] *)

Definition isLeadingSurrogate (c : N) : bool := (55296 <=? c) && (c <=? 56319).
Definition isTrailingSurrogate (c : N) : bool := (56320 <=? c) && (c <=? 57343).

(** A hexadecimal digit, lower case. *)
Definition hexDigit (d : N) : N := if d <? 10 then 48 + d else 87 + d.

(** [UnicodeEscape]: a backslash, [u], four hexadecimal digits. *)
Definition UnicodeEscape (c : N) : list N :=
  [92; 117; hexDigit (c / 4096 mod 16); hexDigit (c / 256 mod 16);
   hexDigit (c / 16 mod 16); hexDigit (c mod 16)].

(** One code point that is a single code unit: the two-character escapes
    of the table, a [UnicodeEscape] for the other control characters and
    for a surrogate on its own, itself otherwise. *)
Definition quoteCodeUnit (c : N) : list N :=
  if c =? 8 then [92; 98]
  else if c =? 9 then [92; 116]
  else if c =? 10 then [92; 110]
  else if c =? 12 then [92; 102]
  else if c =? 13 then [92; 114]
  else if c =? 34 then [92; 34]
  else if c =? 92 then [92; 92]
  else if (c <? 32) || isLeadingSurrogate c || isTrailingSurrogate c
  then UnicodeEscape c
  else [c].

(** The code points of a string in turn: a leading surrogate followed by
    a trailing one is one code point and is copied. *)
Fixpoint quoteCodePoints (s : JSString) : list N :=
  match s with
  | [] => []
  | c :: s' =>
      match s' with
      | d :: s'' =>
          if isLeadingSurrogate c && isTrailingSurrogate d
          then c :: d :: quoteCodePoints s''
          else quoteCodeUnit c ++ quoteCodePoints s'
      | [] => quoteCodeUnit c
      end
  end.

(** [QuoteJSONString] *)
Definition QuoteJSONString (s : JSString) : list N :=
  34 :: quoteCodePoints s ++ [34].

Fixpoint digitsOf (d : Decimal.uint) : list N :=
  match d with
  | Decimal.Nil => []
  | Decimal.D0 d' => 48 :: digitsOf d'
  | Decimal.D1 d' => 49 :: digitsOf d'
  | Decimal.D2 d' => 50 :: digitsOf d'
  | Decimal.D3 d' => 51 :: digitsOf d'
  | Decimal.D4 d' => 52 :: digitsOf d'
  | Decimal.D5 d' => 53 :: digitsOf d'
  | Decimal.D6 d' => 54 :: digitsOf d'
  | Decimal.D7 d' => 55 :: digitsOf d'
  | Decimal.D8 d' => 56 :: digitsOf d'
  | Decimal.D9 d' => 57 :: digitsOf d'
  end.

(** [Number::toString] of a non-negative integer: its decimal digits. *)
Definition numberToString (n : N) : list N := digitsOf (N.to_uint n).

(** The indentation at a nesting depth: the gap is two spaces. *)
Definition indentation (depth : nat) : list N := repeat 32 (2 * depth).

(** The items of an array or an object, each on a line of its own. *)
Fixpoint joinItems (depth : nat) (items : list (list N)) : list N :=
  match items with
  | [] => []
  | [item] => item
  | item :: items' => item ++ [44; 10] ++ indentation depth ++ joinItems depth items'
  end.

(** An opening bracket, the items one level deeper, the closing bracket;
    the two brackets alone when there is no item. *)
Definition wrapItems (open close : N) (depth : nat) (items : list (list N))
  : list N :=
  match items with
  | [] => [open; close]
  | _ => [open; 10] ++ indentation (S depth) ++ joinItems (S depth) items
         ++ [10] ++ indentation depth ++ [close]
  end.

(** [SerializeJSONProperty], [SerializeJSONArray], [SerializeJSONObject] *)
Fixpoint SerializeJSONProperty (depth : nat) (v : value) : list N :=
  match v with
  | JNull => js "null"
  | JBool true => js "true"
  | JBool false => js "false"
  | JNumber n => numberToString n
  | JString s => QuoteJSONString s
  | JArray vs => wrapItems 91 93 depth (map (SerializeJSONProperty (S depth)) vs)
  | JObject ms =>
      wrapItems 123 125 depth
        (map (fun m => QuoteJSONString (fst m) ++ [58; 32]
                       ++ SerializeJSONProperty (S depth) (snd m)) ms)
  end.

Definition stringify (v : value) : JSString := SerializeJSONProperty 0 v.

(** *** [JSON.parse(text)] *)

Definition isWhitespace (c : N) : bool :=
  (c =? 32) || (c =? 9) || (c =? 10) || (c =? 13).

Fixpoint skipWhitespace (s : list N) : list N :=
  match s with
  | c :: s' => if isWhitespace c then skipWhitespace s' else s
  | [] => []
  end.

Definition hexValue (c : N) : option N :=
  if (48 <=? c) && (c <=? 57) then Some (c - 48)
  else if (97 <=? c) && (c <=? 102) then Some (c - 87)
  else if (65 <=? c) && (c <=? 70) then Some (c - 55)
  else None.

(** The character a two-character escape stands for. *)
Definition unescape (e : N) : option N :=
  if e =? 34 then Some 34
  else if e =? 92 then Some 92
  else if e =? 47 then Some 47
  else if e =? 98 then Some 8
  else if e =? 102 then Some 12
  else if e =? 110 then Some 10
  else if e =? 114 then Some 13
  else if e =? 116 then Some 9
  else None.

(** The characters of a string after its opening quote, up to the closing
    quote: the string and the text after it. *)
Fixpoint parseChars (s : list N) : option (JSString * list N) :=
  match s with
  | [] => None
  | c :: s' =>
      if c =? 34 then Some ([], s')
      else if c =? 92 then
        match s' with
        | [] => None
        | e :: s'' =>
            if e =? 117 then
              match s'' with
              | h1 :: h2 :: h3 :: h4 :: s3 =>
                  match hexValue h1, hexValue h2, hexValue h3, hexValue h4 with
                  | Some a, Some b, Some c', Some d =>
                      match parseChars s3 with
                      | Some (str, r) =>
                          Some ((4096 * a + 256 * b + 16 * c' + d) :: str, r)
                      | None => None
                      end
                  | _, _, _, _ => None
                  end
              | _ => None
              end
            else
              match unescape e with
              | Some u =>
                  match parseChars s'' with
                  | Some (str, r) => Some (u :: str, r)
                  | None => None
                  end
              | None => None
              end
        end
      else if c <? 32 then None
      else
        match parseChars s' with
        | Some (str, r) => Some (c :: str, r)
        | None => None
        end
  end.

Definition digitOf (c : N) : option (Decimal.uint -> Decimal.uint) :=
  if c =? 48 then Some Decimal.D0
  else if c =? 49 then Some Decimal.D1
  else if c =? 50 then Some Decimal.D2
  else if c =? 51 then Some Decimal.D3
  else if c =? 52 then Some Decimal.D4
  else if c =? 53 then Some Decimal.D5
  else if c =? 54 then Some Decimal.D6
  else if c =? 55 then Some Decimal.D7
  else if c =? 56 then Some Decimal.D8
  else if c =? 57 then Some Decimal.D9
  else None.

(** The longest run of digits at the head of a text. *)
Fixpoint parseDigits (s : list N) : Decimal.uint * list N :=
  match s with
  | [] => (Decimal.Nil, [])
  | c :: s' =>
      match digitOf c with
      | Some D => let '(d, r) := parseDigits s' in (D d, r)
      | None => (Decimal.Nil, s)
      end
  end.

(** Where an integer cannot end: before a fraction or an exponent, which
    are not modelled. *)
Definition continuesNumber (s : list N) : bool :=
  match s with
  | c :: _ => (c =? 46) || (c =? 101) || (c =? 69)
  | [] => false
  end.

(** A non-negative integer without a superfluous leading zero.  A minus
    sign, a fraction or an exponent is refused rather than read. *)
Definition parseNumber (s : list N) : option (value * list N) :=
  let '(d, r) := parseDigits s in
  if continuesNumber r then None
  else
    match d with
    | Decimal.Nil => None
    | Decimal.D0 Decimal.Nil => Some (JNumber 0, r)
    | Decimal.D0 _ => None
    | _ => Some (JNumber (N.of_uint d), r)
    end.

(** A fixed word at the head of a text. *)
Fixpoint expect (word s : list N) : option (list N) :=
  match word with
  | [] => Some s
  | c :: word' =>
      match s with
      | c' :: s' => if c =? c' then expect word' s' else None
      | [] => None
      end
  end.

(** A value, the elements of an array after its opening bracket, and the
    members of an object after its opening brace.  The fuel bounds the
    number of nested calls. *)
Fixpoint parseValue (fuel : nat) (s : list N) {struct fuel}
  : option (value * list N) :=
  match fuel with
  | O => None
  | S f =>
      match skipWhitespace s with
      | [] => None
      | c :: s' =>
          if c =? 34 then
            match parseChars s' with
            | Some (str, r) => Some (JString str, r)
            | None => None
            end
          else if c =? 91 then
            match skipWhitespace s' with
            | c' :: r =>
                if c' =? 93 then Some (JArray [], r)
                else
                  match parseElements f s' with
                  | Some (vs, r') => Some (JArray vs, r')
                  | None => None
                  end
            | [] => None
            end
          else if c =? 123 then
            match skipWhitespace s' with
            | c' :: r =>
                if c' =? 125 then Some (JObject [], r)
                else
                  match parseMembers f s' with
                  | Some (ms, r') => Some (JObject ms, r')
                  | None => None
                  end
            | [] => None
            end
          else if c =? 110 then
            match expect (js "ull") s' with
            | Some r => Some (JNull, r)
            | None => None
            end
          else if c =? 116 then
            match expect (js "rue") s' with
            | Some r => Some (JBool true, r)
            | None => None
            end
          else if c =? 102 then
            match expect (js "alse") s' with
            | Some r => Some (JBool false, r)
            | None => None
            end
          else parseNumber (c :: s')
      end
  end
with parseElements (fuel : nat) (s : list N) {struct fuel}
  : option (list value * list N) :=
  match fuel with
  | O => None
  | S f =>
      match parseValue f s with
      | None => None
      | Some (v, r) =>
          match skipWhitespace r with
          | c :: r' =>
              if c =? 44 then
                match parseElements f r' with
                | Some (vs, r'') => Some (v :: vs, r'')
                | None => None
                end
              else if c =? 93 then Some ([v], r')
              else None
          | [] => None
          end
      end
  end
with parseMembers (fuel : nat) (s : list N) {struct fuel}
  : option (list (JSString * value) * list N) :=
  match fuel with
  | O => None
  | S f =>
      match skipWhitespace s with
      | c :: s' =>
          if c =? 34 then
            match parseChars s' with
            | None => None
            | Some (key, r) =>
                match skipWhitespace r with
                | c' :: r' =>
                    if c' =? 58 then
                      match parseValue f r' with
                      | None => None
                      | Some (v, r'') =>
                          match skipWhitespace r'' with
                          | c'' :: r3 =>
                              if c'' =? 44 then
                                match parseMembers f r3 with
                                | Some (ms, r4) => Some ((key, v) :: ms, r4)
                                | None => None
                                end
                              else if c'' =? 125 then Some ([(key, v)], r3)
                              else None
                          | [] => None
                          end
                      end
                    else None
                | [] => None
                end
            end
          else None
      | [] => None
      end
  end.

(** [JSON.parse]: one value and nothing but white space after it.
    [None] is a [SyntaxError], or a text with a number that is not a
    non-negative integer. *)
Definition parse (text : JSString) : option value :=
  match parseValue (S (length text)) text with
  | Some (v, r) =>
      match skipWhitespace r with
      | [] => Some v
      | _ => None
      end
  | None => None
  end.

(** *** A payload as a value *)

(** [RTCIceCandidate.prototype.toJSON] *)
Definition nullable {X} (f : X -> value) (x : option X) : value :=
  match x with
  | Some x' => f x'
  | None => JNull
  end.

Definition candidateToJSON (c : RTCIceCandidate) : value :=
  JObject [ (js "candidate", JString (candidate c));
            (js "sdpMid", nullable JString (sdpMid c));
            (js "sdpMLineIndex", nullable JNumber (sdpMLineIndex c));
            (js "usernameFragment", nullable JString (usernameFragment c)) ].

Definition typeName (t : RTCSdpType) : JSString :=
  match t with
  | offer => js "offer"
  | answer => js "answer"
  end.

(** The value [JSON.stringify] sees in a [SignalingData] object. *)
Definition toJSON (p : SignalingData) : value :=
  JObject [ (js "type", JString (typeName (type p)));
            (js "sdp", JString (sdp p));
            (js "iceCandidates",
             JArray (map candidateToJSON (iceCandidates p))) ].

(** [o.key]: the member of that name, the last one if the text had it
    twice; [None] is [undefined]. *)
Fixpoint getMember (key : JSString) (ms : list (JSString * value))
  : option value :=
  match ms with
  | [] => None
  | (k, v) :: ms' =>
      match getMember key ms' with
      | Some v' => Some v'
      | None => if decide (k = key) then Some v else None
      end
  end.

Definition get (key : JSString) (v : value) : option value :=
  match v with
  | JObject ms => getMember key ms
  | _ => None
  end.

Definition asString (v : value) : option JSString :=
  match v with
  | JString s => Some s
  | _ => None
  end.

Definition asNullableString (v : value) : option (option JSString) :=
  match v with
  | JNull => Some None
  | JString s => Some (Some s)
  | _ => None
  end.

Definition asNullableNumber (v : value) : option (option N) :=
  match v with
  | JNull => Some None
  | JNumber n => Some (Some n)
  | _ => None
  end.

Definition asType (v : value) : option RTCSdpType :=
  match v with
  | JString s =>
      if decide (s = js "offer") then Some offer
      else if decide (s = js "answer") then Some answer
      else None
  | _ => None
  end.

(** A parsed candidate read as an [RTCIceCandidateInit], the way
    [addIceCandidate] reads its argument. *)
Definition candidateOfJSON (v : value) : option RTCIceCandidate :=
  c ← get (js "candidate") v ≫= asString;
  mid ← get (js "sdpMid") v ≫= asNullableString;
  index ← get (js "sdpMLineIndex") v ≫= asNullableNumber;
  ufrag ← get (js "usernameFragment") v ≫= asNullableString;
  Some {| candidate := c; sdpMid := mid; sdpMLineIndex := index;
          usernameFragment := ufrag |}.

(** A parsed value read as a [SignalingData]: its three members. *)
Definition ofJSON (v : value) : option SignalingData :=
  t ← get (js "type") v ≫= asType;
  d ← get (js "sdp") v ≫= asString;
  cs ← get (js "iceCandidates") v ≫= (fun a =>
          match a with
          | JArray vs => mapM candidateOfJSON vs
          | _ => None
          end);
  Some {| type := t; sdp := d; iceCandidates := cs |}.

(** *** What the round trip is stated with *)

(** A text at which a run of digits stops and an integer ends. *)
Definition endsNumber (s : list N) : Prop :=
  match s with
  | [] => True
  | c :: _ => digitOf c = None /\ continuesNumber s = false
  end.

(** A character a serialized value can start with: a digit, a quote, an
    opening bracket or brace, or the first letter of a literal. *)
Definition startsValue (c : N) : Prop :=
  48 <= c <= 57 \/ c = 34 \/ c = 91 \/ c = 123 \/
  c = 110 \/ c = 116 \/ c = 102.

(** The nested calls [parseValue] needs for a value. *)
Fixpoint size (v : value) : nat :=
  match v with
  | JArray vs => S (list_sum (map (fun v' => S (size v')) vs))
  | JObject ms => S (list_sum (map (fun m => S (size (snd m))) ms))
  | _ => 1
  end.

(** [v] is read back from its serialization at any depth, before any text
    at which a number can end. *)
Definition Roundtrips (v : value) : Prop :=
  forall depth rest fuel,
    endsNumber rest -> (size v <= fuel)%nat ->
    parseValue fuel (SerializeJSONProperty depth v ++ rest) = Some (v, rest).

End JSON.

(** [JSON.stringify(offerData, null, 2)] of a payload. *)
Definition signalingText (data : SignalingData) : JSString :=
  JSON.stringify (JSON.toJSON data).

(** [handleCopyOffer]: the text written to the clipboard; nothing when
    there is no offer yet. *)
Definition handleCopyOffer (offerData : option SignalingData)
  : option JSString :=
  signalingText <$> offerData.

(** [handleCopyAnswer] *)
Definition handleCopyAnswer (answerData : option SignalingData)
  : option JSString :=
  signalingText <$> answerData.

(** [handleSubmitOffer]: the payload handed to [createAnswer] for a pasted
    text.  [None] when [JSON.parse] throws (the alert), and also when the
    parsed value has not the members of a payload: the source hands such a
    value on unchecked, but it is no [SignalingData]. *)
Definition handleSubmitOffer (offerInput : JSString) : option SignalingData :=
  JSON.parse offerInput ≫= JSON.ofJSON.

(** [handleSubmitAnswer]: the same towards [handleAnswer]. *)
Definition handleSubmitAnswer (answerInput : JSString)
  : option SignalingData :=
  JSON.parse answerInput ≫= JSON.ofJSON.

(** ** What the theorems are about *)

(** [HoldsFor R I Q st]: in every run of [st] against an oracle whose
    responses all satisfy [R], each world at which the event loop is idle
    satisfies [I], provided the tasks that run preserve [I]; and the end
    satisfies [Q]. *)
Inductive HoldsFor (R : Response -> Prop) (I : World -> Prop) {A}
  (Q : World -> Outcome A -> Prop) : Step A -> Prop :=
| Holds_done w r : I w -> Q w r -> HoldsFor R I Q (Done w r)
| Holds_susp w c k :
    I w ->
    (forall rsp w1, R rsp -> I w1 ->
       HoldsFor R I Q (k (settle c rsp w1).2 (settle c rsp w1).1)) ->
    HoldsFor R I Q (Susp w c k).

(** The same for every oracle. *)
Abbreviation Holds := (HoldsFor (fun _ => True)).

(** The outcome of an [await], from how the promise settled. *)
Definition awaited (r : Reply) : Outcome JSString :=
  match r with
  | Resolved v => Returned v
  | Rejected e => Thrown (TransportError e)
  end.

(** [Safe I st]: [I] at every idle world of every run of [st]. *)
Definition Safe (I : World -> Prop) {A} (st : Step A) : Prop :=
  Holds I (fun _ _ => True) st.

(** Every open connection is the one the ref holds. *)
Definition AtMostOneOpen (w : World) : Prop :=
  forall i pc,
    pcs w !! i = Some pc -> pc_closed pc = false ->
    peerConnectionRef (hook w) = Some i.

(** A session as [initializePeerConnection] leaves it: one open
    connection, newly constructed, held by the ref; nothing accumulated. *)
Definition FreshSession (w : World) : Prop :=
  openHandles w = 1 /\ leakedHandles w = 0 /\
  iceCandidatesRef (hook w) = [] /\
  exists h, peerConnectionRef (hook w) = Some h /\
            pcs w !! h = Some newPeerConnection /\
            S h = length (pcs w).

(** The status of a session nobody is connecting: the hook's
    "actively connecting" ref is false and [isConnecting] is false. *)
Definition StatusClear (w : World) : Prop :=
  isActivelyConnectingRef (hook w) = false /\ isConnecting (hook w) = false.

(** A responder's run in which the browser reports 'connecting' while the
    remote description is being set. *)
Definition connectingDuringAnswer : Oracle :=
  script [ {| latency := 3%N;
              tasks := [ConnectionStateChange 0 connecting];
              reply := Resolved [] |} ].

(** The states of the transport that end a connection attempt. *)
Definition endsAttempt (st : RTCPeerConnectionState) : bool :=
  bool_decide (st = connected) || bool_decide (st = disconnected)
  || bool_decide (st = failed).

(** The world at the [n]-th poll of a wait that started in [w] as
    suspension number [i]: [n] times, the tasks of the interval run and
    the 100 ms timer comes due. *)
Fixpoint pollWorld (o : Oracle) (i n : nat) (w : World) : World :=
  match n with
  | O => w
  | S n' =>
      pollWorld o (S i) n'
        (settle (Timer POLL_INTERVAL_MS) (o i) (afterTasks (tasks (o i)) w)).1
  end.

(** The outcome of a function whose value the caller drops. *)
Definition dropped {A} (r : Outcome A) : Outcome unit :=
  match r with
  | Returned _ => Returned tt
  | Thrown e => Thrown e
  end.




(** A host candidate, as a browser reports it. *)
Definition hostCandidate : RTCIceCandidate :=
  {| candidate := js "candidate:1 1 udp 2122260223 192.168.1.7 54321 typ host";
     sdpMid := Some (js "0");
     sdpMLineIndex := Some 0%N;
     usernameFragment := Some (js "Yf8a") |}.

(** A reflexive candidate found late. *)
Definition lateCandidate : RTCIceCandidate :=
  {| candidate := js "candidate:2 1 udp 1686052607 203.0.113.9 61000 typ srflx";
     sdpMid := Some (js "0");
     sdpMLineIndex := Some 0%N;
     usernameFragment := Some (js "Yf8a") |}.

(** An initiator's round: the offer is made, the host candidate is found
    while the local description is set, gathering never completes. *)
Definition offerRound : Oracle :=
  script [ {| latency := 4%N; tasks := [];
              reply := Resolved (js "v=0 offer") |};
           {| latency := 2%N;
              tasks := [IceGatheringStateChange 0 gathering;
                        IceCandidateEvent 0 (Some hostCandidate)];
              reply := Resolved [] |} ].

(** The offer a responder is given. *)
Definition peerOffer : SignalingData :=
  {| type := offer; sdp := js "v=0 offer"; iceCandidates := [] |}.


(** The only errors thrown are rejections of the connection's promises. *)
Definition TransportOnly {A} (w : World) (r : Outcome A) : Prop :=
  forall e, r = Thrown e -> exists msg, e = TransportError msg.

(** The part of [handleAnswer] that talks to the connection. *)
Definition submitAnswer (answerData : SignalingData) : Async unit :=
  pc <~ currentPc ;;
  _ <~ await (PcSetRemoteDescription pc (answer, sdp answerData)) ;;
  forOf (iceCandidates answerData) (fun candidate =>
    pc' <~ currentPc ;;
    _ <~ await (PcAddIceCandidate pc' candidate) ;;
    ret tt).

(** An oracle during whose suspensions no task runs. *)
Definition NoTasks (o : Oracle) : Prop := forall i, tasks (o i) = [].

(** The "actively connecting" ref is set and the ref holds a connection. *)
Definition ActivelyConnecting (w : World) : Prop :=
  isActivelyConnectingRef (hook w) = true /\
  peerConnectionRef (hook w) <> None.

(** The second of two candidates is refused. *)
Definition secondCandidateRefused : Oracle :=
  script [ {| latency := 8%N; tasks := []; reply := Resolved [] |};
           {| latency := 1%N; tasks := []; reply := Resolved [] |};
           {| latency := 1%N; tasks := [];
              reply := Rejected (js "OperationError") |} ].

Definition twoCandidateAnswer : SignalingData :=
  {| type := answer; sdp := js "v=0 answer";
     iceCandidates := [hostCandidate; lateCandidate] |}.

(** The same payload under another [type]. *)
Definition withType (t : RTCSdpType) (p : SignalingData) : SignalingData :=
  {| type := t; sdp := sdp p; iceCandidates := iceCandidates p |}.

(** A payload that says it is an answer. *)
Definition answerKindPayload : SignalingData :=
  {| type := answer; sdp := js "v=0 answer"; iceCandidates := [hostCandidate] |}.

(** A browser that accepts what it is given and makes an answer. *)
Definition acceptingResponder : Oracle :=
  script [ {| latency := 6%N; tasks := []; reply := Resolved [] |};
           {| latency := 1%N; tasks := []; reply := Resolved [] |};
           {| latency := 5%N; tasks := [];
              reply := Resolved (js "v=0 reply") |};
           {| latency := 2%N;
              tasks := [IceGatheringStateChange 0 complete];
              reply := Resolved [] |} ].

(** The ref holds a connection. *)
Definition RefSet (w : World) : Prop := peerConnectionRef (hook w) <> None.


(** An oracle that resolves every promise. *)
Definition Resolves (rsp : Response) : Prop := exists v, reply rsp = Resolved v.

(** The initiator's answer, as the responder sent it. *)
Definition peerAnswer : SignalingData :=
  {| type := answer; sdp := js "v=0 answer"; iceCandidates := [hostCandidate] |}.

(** The worlds a hook can be in: after mount-time initialisation or any
    lifecycle call, after any task, and at any idle moment of any run of a
    negotiation function. *)
Inductive Reachable : World -> Prop :=
| Reachable_initial : Reachable initialWorld
| Reachable_lifecycle c w : Reachable w -> Reachable (lifecycle c w)
| Reachable_task t w : Reachable w -> Reachable (runTask t w)
| Reachable_createOffer o w v :
    Reachable w -> v ∈ visited (run createOffer o w) -> Reachable v
| Reachable_handleAnswer p o w v :
    Reachable w -> v ∈ visited (run (handleAnswer p) o w) -> Reachable v
| Reachable_createAnswer p o w v :
    Reachable w -> v ∈ visited (run (createAnswer p) o w) -> Reachable v
| Reachable_handleOffer p o w v :
    Reachable w -> v ∈ visited (run (handleOffer p) o w) -> Reachable v.

(** ** The camera and the microphone

    [startCamera], [stopCamera], [toggleCamera], [toggleMic] and the
    cleanup of the mount effect work on the local [MediaStream] and its
    tracks.  They read the connection the ref holds and never write a cell
    of the negotiation, so they are functions of the media cells that take
    the [World] as it is when they run. *)

(** [MediaStreamTrack.kind] *)
Inductive TrackKind := video | audio.

#[global] Instance TrackKind_eq_dec : EqDecision TrackKind.
Proof. solve_decision. Defined.

(** A [MediaStreamTrack]: its kind, its [enabled] attribute, and whether
    its [readyState] is 'ended'. *)
Record MediaStreamTrack := {
  kind : TrackKind;
  enabled : bool;
  ended : bool
}.

(** A track added to a connection with [addTrack(track, stream)]: the
    connection, the stream, and the position of the track in the stream.
    [getUserMedia] makes new tracks for every stream and the hook moves no
    track between streams, so a stream and a position name one track
    object. *)
Record Sender := {
  sender_pc : nat;
  sender_stream : MediaStream;
  sender_track : nat
}.

#[global] Instance Sender_eq_dec : EqDecision Sender.
Proof. solve_decision. Defined.

(** The media cells of the hook ([localStream], [isCameraOn], [isMicOn])
    and the browser's side: every stream [getUserMedia] has made, each with
    its tracks in the order of [getTracks()], and the senders of the
    connections, oldest first. *)
Record Media := {
  localStream : option MediaStream;
  isCameraOn : bool;
  isMicOn : bool;
  streams : list (list MediaStreamTrack);
  senders : list Sender
}.

Definition setLocalStream (v : option MediaStream) (m : Media) : Media :=
  {| localStream := v; isCameraOn := isCameraOn m; isMicOn := isMicOn m;
     streams := streams m; senders := senders m |}.

Definition setIsCameraOn (v : bool) (m : Media) : Media :=
  {| localStream := localStream m; isCameraOn := v; isMicOn := isMicOn m;
     streams := streams m; senders := senders m |}.

Definition setIsMicOn (v : bool) (m : Media) : Media :=
  {| localStream := localStream m; isCameraOn := isCameraOn m; isMicOn := v;
     streams := streams m; senders := senders m |}.

Definition setStreams (v : list (list MediaStreamTrack)) (m : Media)
  : Media :=
  {| localStream := localStream m; isCameraOn := isCameraOn m;
     isMicOn := isMicOn m; streams := v; senders := senders m |}.

Definition setSenders (v : list Sender) (m : Media) : Media :=
  {| localStream := localStream m; isCameraOn := isCameraOn m;
     isMicOn := isMicOn m; streams := streams m; senders := v |}.

(** The cells as [useState] initialises them; no stream exists yet. *)
Definition initialMedia : Media :=
  {| localStream := None; isCameraOn := false; isMicOn := false;
     streams := []; senders := [] |}.

(** [stream.getTracks()] *)
Definition getTracks (m : Media) (stream : nat) : list MediaStreamTrack :=
  default [] (streams m !! stream).

(** The tracks of one stream, changed in place. *)
Definition onTracks (g : list MediaStreamTrack -> list MediaStreamTrack)
  (stream : nat) (m : Media) : Media :=
  setStreams (alter g stream (streams m)) m.

(** [stream.getVideoTracks()[0]] and [stream.getAudioTracks()[0]]: the
    first track of the kind, with its position; [None] is [undefined]. *)
Definition firstTrack (k : TrackKind) (ts : list MediaStreamTrack)
  : option (nat * MediaStreamTrack) :=
  list_find (fun t => kind t = k) ts.

(** [track.enabled = v] *)
Definition withEnabled (v : bool) (t : MediaStreamTrack) : MediaStreamTrack :=
  {| kind := kind t; enabled := v; ended := ended t |}.

(** [track.stop()] *)
Definition stop (t : MediaStreamTrack) : MediaStreamTrack :=
  {| kind := kind t; enabled := enabled t; ended := true |}.

(** What [startCamera] can throw: the rejection of [getUserMedia], or the
    exception of [addTrack] ([InvalidStateError] on a closed connection,
    [InvalidAccessError] for a track the connection already sends). *)
Inductive MediaError :=
| GetUserMediaError (e : JSString)
| InvalidStateError
| InvalidAccessError.

(** How [getUserMedia] settles: with a new stream of new tracks, or
    rejected. *)
Inductive UserMedia :=
| Granted (ts : list MediaStreamTrack)
| Denied (e : JSString).

(** [pc.addTrack(track, stream)] on the connection [h]. *)
Definition addTrack (h : nat) (stream : MediaStream) (i : nat)
  (w : World) (m : Media) : Media + MediaError :=
  match openPc w h with
  | None => inr InvalidStateError
  | Some _ =>
      let s := {| sender_pc := h; sender_stream := stream;
                  sender_track := i |} in
      if decide (s ∈ senders m) then inr InvalidAccessError
      else inl (setSenders (senders m ++ [s]) m)
  end.

(** [stream.getTracks().forEach((track) => pc.addTrack(track, stream))]:
    the first exception ends the loop. *)
Fixpoint addTracks (h : nat) (stream : MediaStream) (positions : list nat)
  (w : World) (m : Media) : Media * option MediaError :=
  match positions with
  | [] => (m, None)
  | i :: positions' =>
      match addTrack h stream i w m with
      | inl m' => addTracks h stream positions' w m'
      | inr e => (m, Some e)
      end
  end.

(** [startCamera], from the moment [getUserMedia] settles: before that it
    has written nothing.  [None] is a normal return; an error is thrown on
    to the caller by the [catch] block, with what was written before it
    left as it is. *)
Definition startCamera (r : UserMedia) (w : World) (m : Media)
  : Media * option MediaError :=
  match r with
  | Denied e => (m, Some (GetUserMediaError e))
  | Granted ts =>
      let stream := length (streams m) in
      let m0 := setStreams (streams m ++ [ts]) m in
      let m1 := setLocalStream (Some stream) m0 in
      let videoTrack := firstTrack video (getTracks m1 stream) in
      let audioTrack := firstTrack audio (getTracks m1 stream) in
      let m2 :=
        setIsCameraOn
          (match videoTrack with Some (_, t) => enabled t | None => false end)
          m1 in
      let m3 :=
        setIsMicOn
          (match audioTrack with Some (_, t) => enabled t | None => false end)
          m2 in
      match peerConnectionRef (hook w) with
      | Some h =>
          addTracks h stream (seq 0 (length (getTracks m3 stream))) w m3
      | None => (m3, None)
      end
  end.

(** [localStream.getTracks().forEach((track) => { track.stop(); })] *)
Definition stopTracks (stream : MediaStream) (m : Media) : Media :=
  onTracks (map stop) stream m.

(** [stopCamera] *)
Definition stopCamera (m : Media) : Media :=
  let m1 :=
    match localStream m with
    | Some stream => setLocalStream None (stopTracks stream m)
    | None => m
    end in
  setIsMicOn false (setIsCameraOn false m1).

(** [toggleCamera]; the two [console.warn] branches change nothing. *)
Definition toggleCamera (m : Media) : Media :=
  match localStream m with
  | Some stream =>
      match firstTrack video (getTracks m stream) with
      | Some (i, videoTrack) =>
          let newState := negb (enabled videoTrack) in
          setIsCameraOn newState
            (onTracks (alter (withEnabled newState) i) stream m)
      | None => m
      end
  | None => m
  end.

(** [toggleMic] *)
Definition toggleMic (m : Media) : Media :=
  match localStream m with
  | Some stream =>
      match firstTrack audio (getTracks m stream) with
      | Some (i, audioTrack) =>
          let newState := negb (enabled audioTrack) in
          setIsMicOn newState
            (onTracks (alter (withEnabled newState) i) stream m)
      | None => m
      end
  | None => m
  end.

(** The calls a component can make on the media; [startCamera] with the
    way [getUserMedia] settles. *)
Inductive MediaCall :=
| StartCamera (r : UserMedia)
| StopCamera
| ToggleCamera
| ToggleMic.

(** One call, made when the negotiation cells are [w]. *)
Definition mediaCall (w : World) (c : MediaCall) (m : Media) : Media :=
  match c with
  | StartCamera r => (startCamera r w m).1
  | StopCamera => stopCamera m
  | ToggleCamera => toggleCamera m
  | ToggleMic => toggleMic m
  end.

(** A sequence of calls, first to last, each with the world it is made
    in. *)
Definition mediaCalls (cs : list (World * MediaCall)) (m : Media) : Media :=
  foldl (fun m' c => mediaCall c.1 c.2 m') m cs.

(** The hook with all its cells. *)
Record App := {
  world : World;
  media : Media
}.

Definition initialApp : App :=
  {| world := initialWorld; media := initialMedia |}.

(** The cleanup function of the mount effect, as a closure over the
    [localStream] of the render that made it: the connection is read from
    the ref when the cleanup runs, the stream is the captured one. *)
Definition cleanup (captured : option MediaStream) (a : App) : App :=
  {| world := closeCurrent (world a);
     media := match captured with
              | Some stream => stopTracks stream (media a)
              | None => media a
              end |}.

(** [useEffect(() => { initializePeerConnection(); return cleanup; },
    [initializePeerConnection])].  Running the effect initialises the
    connection and yields the cleanup made in the render [a]. *)
Definition mountEffect (a : App) : App * (App -> App) :=
  ({| world := initializePeerConnection (world a); media := media a |},
   cleanup (localStream (media a))).

(** [initializePeerConnection] is a [useCallback] without dependencies,
    the same function in every render, so the effect runs once, after the
    first render, whose cells are the initial ones.  [mountedApp] is the
    hook after that run and [unmount] the cleanup React keeps for the
    unmount. *)
Definition mountedApp : App := (mountEffect initialApp).1.

Definition unmount : App -> App := (mountEffect initialApp).2.

(** ** The page: [Home] (app/page.tsx) and the components it renders

    [Home] owns the application state and calls the hook; what it shows is
    made of [LoadingScreen], [VideoDisplay], [ControlButtons] and
    [SignalingInterface].  A render is modelled by the component instances
    it contains, in document order, with the props they are given; layout
    and styling are left out.  A component is modelled by the buttons it
    shows, each with the callback it calls and whether it is disabled. *)

(** [type AppState] *)
Inductive AppState :=
  app_idle | app_starting_camera | app_ready | app_signaling | app_connected.

#[global] Instance AppState_eq_dec : EqDecision AppState.
Proof. solve_decision. Defined.

(** [type UserRole], without its [null]. *)
Inductive UserRole := caller | callee.

#[global] Instance UserRole_eq_dec : EqDecision UserRole.
Proof. solve_decision. Defined.

(** The [useState] cells of [SignalingInterface]. *)
Record SignalingState := {
  offerInput : JSString;
  answerInput : JSString;
  offerCopied : bool;
  answerCopied : bool
}.

Definition initialSignaling : SignalingState :=
  {| offerInput := []; answerInput := [];
     offerCopied := false; answerCopied := false |}.

(** The [useState] cells of [Home], the messages it has shown with
    [alert], oldest first, the cells of the [SignalingInterface] it
    renders, and the hook it uses. *)
Record Home := {
  appState : AppState;
  role : option UserRole;
  offerData : option SignalingData;
  answerData : option SignalingData;
  isCreatingOffer : bool;
  isCreatingAnswer : bool;
  alerts : list string;
  signaling : SignalingState;
  webrtc : App
}.

Definition setAppState (v : AppState) (p : Home) : Home :=
  {| appState := v; role := role p; offerData := offerData p;
     answerData := answerData p; isCreatingOffer := isCreatingOffer p;
     isCreatingAnswer := isCreatingAnswer p; alerts := alerts p;
     signaling := signaling p; webrtc := webrtc p |}.

Definition setRole (v : option UserRole) (p : Home) : Home :=
  {| appState := appState p; role := v; offerData := offerData p;
     answerData := answerData p; isCreatingOffer := isCreatingOffer p;
     isCreatingAnswer := isCreatingAnswer p; alerts := alerts p;
     signaling := signaling p; webrtc := webrtc p |}.

Definition setOfferData (v : option SignalingData) (p : Home) : Home :=
  {| appState := appState p; role := role p; offerData := v;
     answerData := answerData p; isCreatingOffer := isCreatingOffer p;
     isCreatingAnswer := isCreatingAnswer p; alerts := alerts p;
     signaling := signaling p; webrtc := webrtc p |}.

Definition setAnswerData (v : option SignalingData) (p : Home) : Home :=
  {| appState := appState p; role := role p; offerData := offerData p;
     answerData := v; isCreatingOffer := isCreatingOffer p;
     isCreatingAnswer := isCreatingAnswer p; alerts := alerts p;
     signaling := signaling p; webrtc := webrtc p |}.

Definition setIsCreatingOffer (v : bool) (p : Home) : Home :=
  {| appState := appState p; role := role p; offerData := offerData p;
     answerData := answerData p; isCreatingOffer := v;
     isCreatingAnswer := isCreatingAnswer p; alerts := alerts p;
     signaling := signaling p; webrtc := webrtc p |}.

Definition setIsCreatingAnswer (v : bool) (p : Home) : Home :=
  {| appState := appState p; role := role p; offerData := offerData p;
     answerData := answerData p; isCreatingOffer := isCreatingOffer p;
     isCreatingAnswer := v; alerts := alerts p;
     signaling := signaling p; webrtc := webrtc p |}.

(** [alert(message)] *)
Definition alert (message : string) (p : Home) : Home :=
  {| appState := appState p; role := role p; offerData := offerData p;
     answerData := answerData p; isCreatingOffer := isCreatingOffer p;
     isCreatingAnswer := isCreatingAnswer p;
     alerts := alerts p ++ [message];
     signaling := signaling p; webrtc := webrtc p |}.

Definition setWorld (v : World) (p : Home) : Home :=
  {| appState := appState p; role := role p; offerData := offerData p;
     answerData := answerData p; isCreatingOffer := isCreatingOffer p;
     isCreatingAnswer := isCreatingAnswer p; alerts := alerts p;
     signaling := signaling p;
     webrtc := {| world := v; media := media (webrtc p) |} |}.

Definition setMedia (v : Media) (p : Home) : Home :=
  {| appState := appState p; role := role p; offerData := offerData p;
     answerData := answerData p; isCreatingOffer := isCreatingOffer p;
     isCreatingAnswer := isCreatingAnswer p; alerts := alerts p;
     signaling := signaling p;
     webrtc := {| world := world (webrtc p); media := v |} |}.

(** The page after its first render and the hook's mount effect. *)
Definition initialHome : Home :=
  {| appState := app_idle; role := None; offerData := None;
     answerData := None; isCreatingOffer := false;
     isCreatingAnswer := false; alerts := [];
     signaling := initialSignaling; webrtc := mountedApp |}.

(** The values of the hook a render of [Home] reads. *)
Definition hookOf (p : Home) : Hook := hook (world (webrtc p)).

(** *** The handlers of [Home] *)

(** An asynchronous handler is given what the browser does while it is
    suspended: the tasks that run meanwhile and how the awaited call
    settles; for a negotiation function, the oracle of its run.  Of the
    page itself nothing else runs meanwhile. *)

(** [handleStartCamera] *)
Definition handleStartCamera (ts : list Task) (r : UserMedia) (p : Home)
  : Home :=
  let p1 := setAppState app_starting_camera p in
  let p2 := setWorld (afterTasks ts (world (webrtc p1))) p1 in
  match startCamera r (world (webrtc p2)) (media (webrtc p2)) with
  | (m, None) => setAppState app_ready (setMedia m p2)
  | (m, Some _) =>
      setAppState app_idle
        (alert
           "Failed to access camera and microphone. Please check permissions."
           (setMedia m p2))
  end.

(** [handleSetRole] *)
Definition handleSetRole (selectedRole : UserRole) (p : Home) : Home :=
  setAppState app_signaling (setRole (Some selectedRole) p).

(** [handleCreateOffer] *)
Definition handleCreateOffer (o : Oracle) (p : Home) : Home :=
  let p1 := setIsCreatingOffer true p in
  let r := run createOffer o (world (webrtc p1)) in
  let p2 := setWorld (final r) p1 in
  let p3 :=
    match outcome r with
    | Returned created => setOfferData (Some created) p2
    | Thrown _ => alert "Failed to create offer" p2
    end in
  setIsCreatingOffer false p3.

(** [handleCreateAnswer] *)
Definition handleCreateAnswer (offer : SignalingData) (o : Oracle)
  (p : Home) : Home :=
  let p1 := setIsCreatingAnswer true p in
  let r := run (createAnswer offer) o (world (webrtc p1)) in
  let p2 := setWorld (final r) p1 in
  let p3 :=
    match outcome r with
    | Returned created => setAnswerData (Some created) p2
    | Thrown _ => alert "Failed to create answer" p2
    end in
  setIsCreatingAnswer false p3.

(** [handleHandleAnswer] *)
Definition handleHandleAnswer (answer : SignalingData) (o : Oracle)
  (p : Home) : Home :=
  let r := run (handleAnswer answer) o (world (webrtc p)) in
  let p1 := setWorld (final r) p in
  match outcome r with
  | Returned _ => setAppState app_connected p1
  | Thrown _ => alert "Failed to handle answer" p1
  end.

(** [handleEndCall] *)
Definition handleEndCall (p : Home) : Home :=
  let p1 := setWorld (resetConnection (world (webrtc p))) p in
  let p2 := setMedia (stopCamera (media (webrtc p1))) p1 in
  setAnswerData None (setOfferData None (setRole None
    (setAppState app_idle p2))).

(** [onToggleCamera={toggleCamera}] and [onToggleMic={toggleMic}]: the
    hook's functions, as the page hands them to [ControlButtons]. *)
Definition onToggleCamera (p : Home) : Home :=
  setMedia (toggleCamera (media (webrtc p))) p.

Definition onToggleMic (p : Home) : Home :=
  setMedia (toggleMic (media (webrtc p))) p.

(** *** What [Home] renders *)

(** A component instance with its props.  [ConnectionStatus] is the
    header's status line, [StartCameraButton] the button of the idle
    page, and [ConnectionInfo] the block of the connected page that says
    "Connected! You are now in a peer-to-peer video call." above the
    connection state. *)
Inductive Element :=
| LoadingScreen (message submessage : string)
| ConnectionStatus (label : string)
| StartCameraButton
| VideoDisplay (stream : option MediaStream)
    (isLocal isCameraOn isMicOn : bool) (label : string)
| ControlButtons (isCameraOn isMicOn isConnected : bool)
| SignalingInterface (role : option UserRole)
    (offerData answerData : option SignalingData)
    (isCreatingOffer isCreatingAnswer isConnecting : bool)
| ConnectionInfo (connectionState : RTCPeerConnectionState).

(** [if (isConnected && appState !== 'connected')
    setAppState('connected')]: a state update made while rendering; React
    renders again with the new state before anything is shown. *)
Definition renderPhaseUpdate (p : Home) : Home :=
  if isConnected (hookOf p) && negb (bool_decide (appState p = app_connected))
  then setAppState app_connected p
  else p.

(** The text of the header's connection status. *)
Definition statusLabel (st : RTCPeerConnectionState) : string :=
  match st with
  | connected => "Connected"
  | connecting => "Connecting"
  | _ => "Disconnected"
  end.

(** The JSX [Home] returns, for given cells. *)
Definition render (p : Home) : list Element :=
  let m := media (webrtc p) in
  if bool_decide (appState p = app_starting_camera) then
    [LoadingScreen "Starting Camera"
       "Accessing your camera and microphone. Please allow permissions when prompted."]
  else if isConnecting (hookOf p) then
    [LoadingScreen "Connecting"
       "Establishing peer-to-peer connection. This may take a moment."]
  else
    ConnectionStatus (statusLabel (connectionState (hookOf p))) ::
    match appState p with
    | app_idle => [StartCameraButton]
    | app_ready =>
        [VideoDisplay (localStream m) true (isCameraOn m) (isMicOn m) "You";
         ControlButtons (isCameraOn m) (isMicOn m) false;
         SignalingInterface None None None false false false]
    | app_signaling =>
        [VideoDisplay (localStream m) true (isCameraOn m) (isMicOn m) "You";
         ControlButtons (isCameraOn m) (isMicOn m) false;
         SignalingInterface (role p) (offerData p) (answerData p)
           (isCreatingOffer p) (isCreatingAnswer p)
           (isConnecting (hookOf p))]
    | app_connected =>
        [VideoDisplay (localStream m) true (isCameraOn m) (isMicOn m) "You";
         VideoDisplay (remoteStream (hookOf p)) false true true "Remote";
         ControlButtons (isCameraOn m) (isMicOn m) (isConnected (hookOf p));
         ConnectionInfo (connectionState (hookOf p))]
    | app_starting_camera => []
    end.

(** What the page shows for given cells: the render after the update made
    while rendering. *)
Definition view (p : Home) : list Element := render (renderPhaseUpdate p).

(** *** The buttons of the components *)

(** The callbacks a button can call. *)
Inductive Callback :=
| OnStartCamera
| OnToggleCamera
| OnToggleMic
| OnEndCall
| OnSetRole (r : UserRole)
| OnCreateOffer
| OnCopyOffer
| OnSubmitAnswer
| OnSubmitOffer
| OnCopyAnswer.

#[global] Instance Callback_eq_dec : EqDecision Callback.
Proof. solve_decision. Defined.

(** A button: what its [onClick] calls, and its [disabled] attribute. *)
Record Button := {
  onClick : Callback;
  disabled : bool
}.

#[global] Instance Button_eq_dec : EqDecision Button.
Proof. solve_decision. Defined.

(** The code units [String.prototype.trim] removes: [WhiteSpace] and
    [LineTerminator] of ECMA-262. *)
Definition isTrimmed (c : N) : bool :=
  bool_decide (c ∈ [9; 10; 11; 12; 13; 32; 160; 5760; 8232; 8233; 8239;
                    8287; 12288; 65279]%N)
  || ((8192 <=? c)%N && (c <=? 8202)%N).

Fixpoint trimStart (s : JSString) : JSString :=
  match s with
  | c :: s' => if isTrimmed c then trimStart s' else s
  | [] => []
  end.

(** [s.trim()] *)
Definition trim (s : JSString) : JSString :=
  reverse (trimStart (reverse (trimStart s))).

(** [!s]: the empty string is the only falsy string. *)
Definition falsy (s : JSString) : bool := bool_decide (s = []).

(** [ControlButtons]: the two toggles, and the button that ends the call
    when [isConnected]. *)
Definition ControlButtons_buttons (isConnected : bool) : list Button :=
  [ {| onClick := OnToggleCamera; disabled := false |};
    {| onClick := OnToggleMic; disabled := false |} ]
  ++ (if isConnected
      then [ {| onClick := OnEndCall; disabled := false |} ]
      else []).

(** [SignalingInterface]: the choice of a role when there is none; for the
    caller, step 1 (create the offer, or copy it once it exists) and, once
    the offer exists, step 2 (submit the pasted answer); for the callee,
    step 1 (submit the pasted offer) and, once the answer exists, step 2
    (copy it). *)
Definition SignalingInterface_buttons (st : SignalingState)
  (role : option UserRole) (offerData answerData : option SignalingData)
  (isCreatingOffer isCreatingAnswer isConnecting : bool) : list Button :=
  match role with
  | None =>
      [ {| onClick := OnSetRole caller; disabled := false |};
        {| onClick := OnSetRole callee; disabled := false |} ]
  | Some caller =>
      match offerData with
      | None =>
          [ {| onClick := OnCreateOffer; disabled := isCreatingOffer |} ]
      | Some _ =>
          [ {| onClick := OnCopyOffer; disabled := false |};
            {| onClick := OnSubmitAnswer;
               disabled := falsy (trim (answerInput st)) || isConnecting |} ]
      end
  | Some callee =>
      {| onClick := OnSubmitOffer;
         disabled := falsy (trim (offerInput st)) || isCreatingAnswer |}
      :: match answerData with
         | Some _ => [ {| onClick := OnCopyAnswer; disabled := false |} ]
         | None => []
         end
  end.

(** The buttons of one element of the page. *)
Definition buttonsOf (st : SignalingState) (e : Element) : list Button :=
  match e with
  | StartCameraButton => [ {| onClick := OnStartCamera; disabled := false |} ]
  | ControlButtons _ _ isConnected => ControlButtons_buttons isConnected
  | SignalingInterface role offerData answerData isCreatingOffer
      isCreatingAnswer isConnecting =>
      SignalingInterface_buttons st role offerData answerData isCreatingOffer
        isCreatingAnswer isConnecting
  | LoadingScreen _ _ | ConnectionStatus _ | VideoDisplay _ _ _ _ _
  | ConnectionInfo _ => []
  end.

(** Every button the page shows, in document order. *)
Definition buttons (p : Home) : list Button :=
  view p ≫= buttonsOf (signaling p).

(** What a user can do: the callbacks of the buttons that are not
    disabled. *)
Definition clickable (p : Home) : list Callback :=
  onClick <$> filter (fun b => disabled b = false) (buttons p).

(** ** What the further theorems are about *)


(** The ref holds a connection of the store that is open. *)
Definition CurrentOpen (w : World) : Prop :=
  exists h pc, peerConnectionRef (hook w) = Some h /\
               pcs w !! h = Some pc /\ pc_closed pc = false.

(** When the ref holds a connection, it is one of the store and open. *)
Definition RefOpen (w : World) : Prop :=
  forall h, peerConnectionRef (hook w) = Some h ->
            exists pc, pcs w !! h = Some pc /\ pc_closed pc = false.

(** [isConnected] says what [connectionState] says. *)
Definition ConnectedMirrorsState (w : World) : Prop :=
  isConnected (hook w) = bool_decide (connectionState (hook w) = connected).

(** The connecting status is shown only while the "actively connecting"
    ref is set. *)
Definition ConnectingIsActive (w : World) : Prop :=
  isConnecting (hook w) = true -> isActivelyConnectingRef (hook w) = true.

(** An answer is handled while the transport goes through 'connecting'
    and fails. *)
Definition failingAttempt : Oracle :=
  script [ {| latency := 5%N;
              tasks := [ConnectionStateChange 0 connecting];
              reply := Resolved [] |};
           {| latency := 9%N;
              tasks := [ConnectionStateChange 0 failed];
              reply := Resolved [] |} ].

(** What negotiation has established on one connection: its two
    descriptions and the remote candidates it was given, in order. *)
Record Negotiation := {
  n_local : option RTCSessionDescription;
  n_remote : option RTCSessionDescription;
  n_candidates : list RTCIceCandidate
}.

Definition negotiationOf (pc : RTCPeerConnection) : Negotiation :=
  {| n_local := pc_localDescription pc;
     n_remote := pc_remoteDescription pc;
     n_candidates := pc_remoteCandidates pc |}.

(** The same for every connection of the store, by handle. *)
Definition negotiations (w : World) : list Negotiation :=
  negotiationOf <$> pcs w.

Definition withLocal (d : RTCSessionDescription) (n : Negotiation)
  : Negotiation :=
  {| n_local := Some d; n_remote := n_remote n;
     n_candidates := n_candidates n |}.

Definition withRemote (d : RTCSessionDescription) (n : Negotiation)
  : Negotiation :=
  {| n_local := n_local n; n_remote := Some d;
     n_candidates := n_candidates n |}.

Definition withCandidates (cs : list RTCIceCandidate) (n : Negotiation)
  : Negotiation :=
  {| n_local := n_local n; n_remote := n_remote n;
     n_candidates := n_candidates n ++ cs |}.

(** What a resolved promise of a connection has added to the
    negotiations. *)
Definition committed (c : Call) (ns : list Negotiation) : list Negotiation :=
  match c with
  | PcSetLocalDescription h d => alter (withLocal d) h ns
  | PcSetRemoteDescription h d => alter (withRemote d) h ns
  | PcAddIceCandidate h c' => alter (withCandidates [c']) h ns
  | PcCreateOffer _ | PcCreateAnswer _ | Timer _ => ns
  end.

(** An oracle in whose runs the user does not reset the connection. *)
Definition NoReset (o : Oracle) : Prop := forall i, UserReset ∉ tasks (o i).

(** What the events of the connections leave alone: which connection the
    ref holds, and what has been negotiated on every connection. *)
Definition Undisturbed (w w1 : World) : Prop :=
  peerConnectionRef (hook w1) = peerConnectionRef (hook w) /\
  negotiations w1 = negotiations w.

(** [Follows R E Q st]: in every run of [st] against an oracle whose
    responses satisfy [R] and whose tasks change a world only as [E]
    allows, the end satisfies [Q]. *)
Inductive Follows (R : Response -> Prop) (E : World -> World -> Prop) {A}
  (Q : World -> Outcome A -> Prop) : Step A -> Prop :=
| Follows_done w r : Q w r -> Follows R E Q (Done w r)
| Follows_susp w c k :
    (forall rsp w1, R rsp -> E w w1 ->
       Follows R E Q (k (settle c rsp w1).2 (settle c rsp w1).1)) ->
    Follows R E Q (Susp w c k).

(** A response the oracle gives at some suspension. *)
Definition ResponseOf (o : Oracle) (rsp : Response) : Prop :=
  exists j, rsp = o j.

(** An error that is a rejection the oracle gave. *)
Definition RejectedBy (o : Oracle) (e : Error) : Prop :=
  exists j msg, reply (o j) = Rejected msg /\ e = TransportError msg.

(** The ref holds [h] and the negotiations are [ns]. *)
Definition Negotiated (h : nat) (ns : list Negotiation) (w : World) : Prop :=
  peerConnectionRef (hook w) = Some h /\ negotiations w = ns.



(** *** The media *)

(** The browser ends a track on its own: the device is removed or the
    permission withdrawn. *)
Definition trackEnded (stream : MediaStream) (i : nat) (m : Media) : Media :=
  onTracks (alter stop i) stream m.

(** The media cells a hook can have, whatever the negotiation does
    meanwhile. *)
Inductive MediaReachable : Media -> Prop :=
| MediaReachable_initial : MediaReachable initialMedia
| MediaReachable_call w c m :
    MediaReachable m -> MediaReachable (mediaCall w c m)
| MediaReachable_ended stream i m :
    MediaReachable m -> MediaReachable (trackEnded stream i m).

(** What the flag of a kind should say: the [enabled] attribute of the
    first track of that kind in the local stream, and false when there is
    no such track or no stream. *)
Definition flagOf (k : TrackKind) (m : Media) : bool :=
  match localStream m with
  | Some stream =>
      match firstTrack k (getTracks m stream) with
      | Some (_, t) => enabled t
      | None => false
      end
  | None => false
  end.

Definition FlagsInSync (m : Media) : Prop :=
  isCameraOn m = flagOf video m /\ isMicOn m = flagOf audio m.

(** A camera and a microphone, as [getUserMedia] hands them out. *)
Definition cameraAndMic : list MediaStreamTrack :=
  [ {| kind := audio; enabled := true; ended := false |};
    {| kind := video; enabled := true; ended := false |} ].

(** Every sender is of a stream that exists. *)
Definition SendersOfStreams (m : Media) : Prop :=
  Forall (fun s => sender_stream s < length (streams m)) (senders m).

(** The sender of one track on one connection. *)
Definition senderOf (h : nat) (stream : MediaStream) (i : nat) : Sender :=
  {| sender_pc := h; sender_stream := stream; sender_track := i |}.

(** The senders [addTrack] makes for the [n] tracks of a stream, in
    order. *)
Definition sendersFor (h : nat) (stream : MediaStream) (n : nat)
  : list Sender :=
  senderOf h stream <$> seq 0 n.

(** The world [w'] comes after [w]: lifecycle calls, tasks and
    negotiation functions have run in between. *)
Inductive Later (w : World) : World -> Prop :=
| Later_refl : Later w w
| Later_lifecycle c w' : Later w w' -> Later w (lifecycle c w')
| Later_task t w' : Later w w' -> Later w (runTask t w')
| Later_createOffer o w' v :
    Later w w' -> v ∈ visited (run createOffer o w') -> Later w v
| Later_handleAnswer p o w' v :
    Later w w' -> v ∈ visited (run (handleAnswer p) o w') -> Later w v
| Later_createAnswer p o w' v :
    Later w w' -> v ∈ visited (run (createAnswer p) o w') -> Later w v
| Later_handleOffer p o w' v :
    Later w w' -> v ∈ visited (run (handleOffer p) o w') -> Later w v.

(** The states of the whole hook after mount: the negotiation moves on,
    the media calls are made in the world of the moment, the browser ends
    tracks. *)
Inductive AppReachable : App -> Prop :=
| AppReachable_mounted : AppReachable mountedApp
| AppReachable_world a w' :
    AppReachable a -> Later (world a) w' ->
    AppReachable {| world := w'; media := media a |}
| AppReachable_media c a :
    AppReachable a ->
    AppReachable {| world := world a;
                    media := mediaCall (world a) c (media a) |}
| AppReachable_ended stream i a :
    AppReachable a ->
    AppReachable {| world := world a;
                    media := trackEnded stream i (media a) |}.

(** The senders of one connection. *)
Definition sendersOf (h : nat) (m : Media) : list Sender :=
  filter (fun s => sender_pc s = h) (senders m).

(** The media cells once a camera and a microphone have been granted on
    the mounted hook. *)
Definition cameraStarted : Media :=
  (startCamera (Granted cameraAndMic) mounted initialMedia).1.

(** A stream the hook no longer holds: it exists and is not the local
    stream. *)
Definition Orphaned (stream : nat) (m : Media) : Prop :=
  stream < length (streams m) /\ localStream m <> Some stream.

(** Every sender is on a connection of the store. *)
Definition SendersOfConnections (a : App) : Prop :=
  Forall (fun s => sender_pc s < length (pcs (world a))) (senders (media a)).

(** What a user does once the camera is on: mute, turn the camera off,
    stop. *)
Definition muteHideStop : list (World * MediaCall) :=
  [ (mounted, ToggleMic); (mounted, ToggleCamera); (mounted, StopCamera) ].

(** *** The page *)

(** A sequence of clicks on the two toggles: [true] is the camera's,
    [false] the microphone's. *)
Definition toggleClicks (cs : list bool) (p : Home) : Home :=
  foldl (fun p' (camera : bool) =>
           if camera then onToggleCamera p' else onToggleMic p') p cs.

(** A caller who has started the camera, created an offer, and submitted
    the answer while the transport went through 'connecting' and
    failed. *)
Definition callerAfterFailedAttempt : Home :=
  handleHandleAnswer peerAnswer failingAttempt
    (handleCreateOffer offerRound
       (handleSetRole caller
          (handleStartCamera [] (Granted cameraAndMic) initialHome))).

(** The code units of JSON white space only. *)
Definition JSONWhitespace (s : JSString) : Prop :=
  Forall (fun c => JSON.isWhitespace c = true) s.

(** A caller who has started the camera and chosen the role. *)
Definition callerWithCamera : Home :=
  handleSetRole caller
    (handleStartCamera [] (Granted cameraAndMic) initialHome).

(** A call that was connected. *)
Definition callerInCall : Home :=
  setWorld (runTask (ConnectionStateChange 0 connected)
              (world (webrtc callerWithCamera))) callerWithCamera.

(** ** Reasoning about runs *)

Lemma runTasks_Forall (I : World -> Prop) ts w :
  (forall t w', t ∈ ts -> I w' -> I (runTask t w')) ->
  I w -> Forall I (runTasks ts w) /\ I (afterTasks ts w).
Proof.
  revert w. induction ts as [|t ts IH]; intros w Hts Hw; [by split|].
  assert (I (runTask t w)) as Hw' by (apply Hts; [left|done]).
  destruct (IH (runTask t w)) as [Hall Hlast]; [|done|].
  { intros t' w' Hin. apply Hts. by right. }
  split; [by constructor|done].
Qed.

Section Rules.
Variable R : Response -> Prop.
Variable I : World -> Prop.

(** Soundness: the runs of an oracle whose responses satisfy [R] and whose
    tasks preserve [I]. *)
Lemma exec_Holds {A} (Q : World -> Outcome A -> Prop)
  (o : Oracle) (st : Step A) (i : nat) :
  (forall j, R (o j)) ->
  (forall j t w, t ∈ tasks (o j) -> I w -> I (runTask t w)) ->
  HoldsFor R I Q st ->
  Forall I (visited (exec st o i)) /\
  Q (final (exec st o i)) (outcome (exec st o i)).
Proof.
  intros HR Henv H. revert i.
  induction H as [w r Hw HQ|w c k Hw _ IH]; intros i.
  - simpl. split; [by constructor|done].
  - simpl.
    destruct (runTasks_Forall I (tasks (o i)) w) as [Hmids Hlast];
      [by apply Henv|done|].
    specialize (IH (o i) _ (HR i) Hlast (S i)).
    destruct (settle c (o i) (afterTasks (tasks (o i)) w))
      as [w2 r] eqn:Hs.
    simpl in *. destruct IH as [Hv HQ]. split; [|done].
    constructor; [done|]. by apply Forall_app.
Qed.

Lemma Holds_weaken {A} (Q Q' : World -> Outcome A -> Prop) st :
  (forall w r, I w -> Q w r -> Q' w r) ->
  HoldsFor R I Q st -> HoldsFor R I Q' st.
Proof.
  intros HQ. induction 1 as [w r Hw Hq|w c k Hw _ IH].
  - constructor; [done|by apply HQ].
  - by constructor.
Qed.


Lemma Holds_ret {A} (Q : World -> Outcome A -> Prop) a w :
  I w -> Q w (Returned a) -> HoldsFor R I Q (ret a w).
Proof. by constructor. Qed.

Lemma Holds_throw {A} (Q : World -> Outcome A -> Prop) e w :
  I w -> Q w (Thrown e) -> HoldsFor R I Q (throw e w).
Proof. by constructor. Qed.

Lemma Holds_modify (Q : World -> Outcome unit -> Prop) f w :
  I (f w) -> Q (f w) (Returned tt) -> HoldsFor R I Q (modify f w).
Proof. by constructor. Qed.

Lemma Holds_bindStep {A B}
  (Q1 : World -> Outcome A -> Prop) (Q : World -> Outcome B -> Prop)
  (st : Step A) (f : A -> Async B) :
  HoldsFor R I Q1 st ->
  (forall a w, I w -> Q1 w (Returned a) -> HoldsFor R I Q (f a w)) ->
  (forall e w, I w -> Q1 w (Thrown e) -> Q w (Thrown e)) ->
  HoldsFor R I Q (bindStep st f).
Proof.
  intros H Hf He. induction H as [w r Hw Hq|w c k Hw _ IH]; simpl.
  - destruct r as [a|e]; [by apply Hf|].
    constructor; [done|by apply He].
  - by constructor.
Qed.

Lemma Holds_bind {A B}
  (Q1 : World -> Outcome A -> Prop) (Q : World -> Outcome B -> Prop)
  (m : Async A) (f : A -> Async B) w :
  HoldsFor R I Q1 (m w) ->
  (forall a w', I w' -> Q1 w' (Returned a) -> HoldsFor R I Q (f a w')) ->
  (forall e w', I w' -> Q1 w' (Thrown e) -> Q w' (Thrown e)) ->
  HoldsFor R I Q (bind m f w).
Proof. apply Holds_bindStep. Qed.

Lemma Holds_catchStep {A} (Q1 Q : World -> Outcome A -> Prop)
  (st : Step A) (handler : Error -> Async A) :
  HoldsFor R I Q1 st ->
  (forall a w, I w -> Q1 w (Returned a) -> Q w (Returned a)) ->
  (forall e w, I w -> Q1 w (Thrown e) -> HoldsFor R I Q (handler e w)) ->
  HoldsFor R I Q (catchStep st handler).
Proof.
  intros H Ha He. induction H as [w r Hw Hq|w c k Hw _ IH]; simpl.
  - destruct r as [a|e]; [|by apply He].
    constructor; [done|by apply Ha].
  - by constructor.
Qed.

Lemma Holds_tryCatch {A} (Q1 Q : World -> Outcome A -> Prop)
  (m : Async A) (handler : Error -> Async A) w :
  HoldsFor R I Q1 (m w) ->
  (forall a w', I w' -> Q1 w' (Returned a) -> Q w' (Returned a)) ->
  (forall e w', I w' -> Q1 w' (Thrown e) -> HoldsFor R I Q (handler e w')) ->
  HoldsFor R I Q (tryCatch m handler w).
Proof. apply Holds_catchStep. Qed.

Lemma Holds_await (Q : World -> Outcome JSString -> Prop) c w :
  I w ->
  (forall rsp w1, R rsp -> I w1 ->
     I (settle c rsp w1).1 /\
     Q (settle c rsp w1).1 (awaited (settle c rsp w1).2)) ->
  HoldsFor R I Q (await c w).
Proof.
  intros Hw Hs. constructor; [done|]. intros rsp w1 Hrsp Hw1.
  destruct (Hs rsp w1 Hrsp Hw1) as [HI HQ].
  destruct (settle c rsp w1).2; by constructor.
Qed.

Lemma Holds_currentPc (Q : World -> Outcome nat -> Prop) w :
  I w ->
  (forall h, peerConnectionRef (hook w) = Some h -> Q w (Returned h)) ->
  (peerConnectionRef (hook w) = None -> Q w (Thrown NullDereference)) ->
  HoldsFor R I Q (currentPc w).
Proof.
  intros Hw Hs Hn. unfold currentPc.
  destruct (peerConnectionRef (hook w)); constructor; auto.
Qed.

(** A loop whose body either keeps [P] and goes on, or throws an error
    that satisfies [E]. *)
Lemma Holds_forOf {X} (P : World -> Prop) (E : World -> Error -> Prop)
  (xs : list X) (body : X -> Async unit) w :
  I w -> P w ->
  (forall x w', x ∈ xs -> I w' -> P w' ->
     HoldsFor R I (fun w'' r =>
       match r with Returned _ => P w'' | Thrown e => E w'' e end)
       (body x w')) ->
  HoldsFor R I (fun w'' r =>
    match r with Returned _ => P w'' | Thrown e => E w'' e end)
    (forOf xs body w).
Proof.
  revert w. induction xs as [|x xs IH]; intros w Hw HP Hbody; simpl.
  - by constructor.
  - eapply Holds_bind.
    + apply Hbody; [left|done|done].
    + intros [] w' Hw' HP'. apply IH; [done|done|].
      intros x' w'' Hin. apply Hbody. by right.
    + by intros e w' Hw' HP'.
Qed.

Lemma Holds_checkIceGathering (polls : nat) w :
  (forall ms rsp w1, I w1 -> I (settle (Timer ms) rsp w1).1) ->
  I w ->
  HoldsFor R I (fun _ r => r = Returned tt) (checkIceGathering polls w).
Proof.
  intros Hs. revert w. induction polls as [|n IH]; intros w Hw; simpl.
  - by constructor.
  - destruct (gatheringComplete w); [by constructor|].
    constructor; [done|]. intros rsp w1 _ Hw1. apply IH. by apply Hs.
Qed.

End Rules.

(** A suspension changes the connections and the clock, never a cell of
    the hook. *)
Lemma settle_hook c rsp w : hook (settle c rsp w).1 = hook w.
Proof.
  destruct c; simpl; try done; by destruct (reply rsp).
Qed.

(** *** Invariants alone *)

Lemma exec_Safe (I : World -> Prop) {A} (o : Oracle) (st : Step A) i :
  (forall j t w, t ∈ tasks (o j) -> I w -> I (runTask t w)) ->
  Safe I st ->
  Forall I (visited (exec st o i)) /\ I (final (exec st o i)).
Proof.
  intros Henv H.
  destruct (exec_Holds (fun _ => True) I (fun w _ => I w) o st i)
    as [Hv Hf]; [done|done| |done].
  eapply Holds_weaken; [|exact H]. auto.
Qed.

Lemma Safe_bind (I : World -> Prop) {A B} (m : Async A) (f : A -> Async B) w :
  Safe I (m w) -> (forall a w', I w' -> Safe I (f a w')) ->
  Safe I (bind m f w).
Proof.
  intros Hm Hf. apply (Holds_bind _ I (fun _ _ => True)); [done| |done].
  intros a w' Hw' _. by apply Hf.
Qed.

Lemma Safe_tryCatch (I : World -> Prop) {A} (m : Async A)
  (handler : Error -> Async A) w :
  Safe I (m w) -> (forall e w', I w' -> Safe I (handler e w')) ->
  Safe I (tryCatch m handler w).
Proof.
  intros Hm Hh. apply (Holds_tryCatch _ I (fun _ _ => True)); [done|done|].
  intros e w' Hw' _. by apply Hh.
Qed.

Lemma Safe_modify (I : World -> Prop) f w : I (f w) -> Safe I (modify f w).
Proof. intros. by apply Holds_modify. Qed.

Lemma Safe_ret (I : World -> Prop) {A} (a : A) w : I w -> Safe I (ret a w).
Proof. intros. by apply Holds_ret. Qed.

Lemma Safe_throw (I : World -> Prop) {A} e w :
  I w -> Safe I (@throw A e w).
Proof. intros. by apply Holds_throw. Qed.

Lemma Safe_await (I : World -> Prop) c w :
  I w -> (forall rsp w1, I w1 -> I (settle c rsp w1).1) ->
  Safe I (await c w).
Proof. intros Hw Hs. apply Holds_await; [done|]. intros. split; auto. Qed.

Lemma Safe_currentPc (I : World -> Prop) w : I w -> Safe I (currentPc w).
Proof. intros. by apply Holds_currentPc. Qed.

Lemma Safe_forOf (I : World -> Prop) {X} (xs : list X)
  (body : X -> Async unit) w :
  I w -> (forall x w', I w' -> Safe I (body x w')) ->
  Safe I (forOf xs body w).
Proof.
  intros Hw Hb.
  eapply Holds_weaken;
    [|apply (Holds_forOf _ I (fun _ => True) (fun _ _ => True));
      [done|done|]]; [done|].
  intros x w' _ Hw' _. eapply Holds_weaken; [|by apply Hb].
  by intros w'' [].
Qed.

Lemma Safe_awaitGatheringSettled (I : World -> Prop) w :
  (forall c rsp w1, I w1 -> I (settle c rsp w1).1) ->
  I w -> Safe I (awaitGatheringSettled w).
Proof.
  intros Hs Hw. eapply Holds_weaken;
    [|apply Holds_checkIceGathering; [|done]]; [done|].
  intros. apply Hs. done.
Qed.

(** One rule of the logic, chosen by the shape of the program. *)
Ltac safe_step :=
  lazymatch goal with
  | |- Safe _ (bind _ _ _) => apply Safe_bind; [|intros ? ? ?]
  | |- Safe _ (tryCatch _ _ _) => apply Safe_tryCatch; [|intros ? ? ?]
  | |- Safe _ (modify _ _) => apply Safe_modify
  | |- Safe _ (ret _ _) => apply Safe_ret
  | |- Safe _ (throw _ _) => apply Safe_throw
  | |- Safe _ (await _ _) => apply Safe_await; [|intros ? ? ?]
  | |- Safe _ (currentPc _) => apply Safe_currentPc
  | |- Safe _ (forOf _ _ _) => apply Safe_forOf; [|intros ? ? ?]
  | |- Safe _ (awaitGatheringSettled _) =>
      apply Safe_awaitGatheringSettled; [intros ? ? ? ?|]
  end.


(** An invariant that the end of a suspension keeps, and the cell writes
    of the negotiation functions. *)
Section Invariant.
Variable I : World -> Prop.

Hypothesis I_settle : forall c rsp w, I w -> I (settle c rsp w).1.
Hypothesis I_candidates : forall w l, I w -> I (setIceCandidatesRef l w).
Hypothesis I_creatingAnswer :
  forall w b, I w -> I (setIsCreatingAnswerRef b w).

Lemma createOffer_Safe w : I w -> Safe I (createOffer w).
Proof using I_settle I_candidates.
  intros Hw. unfold createOffer.
  destruct (peerConnectionRef (hook w)); [|by apply Safe_throw].
  repeat (first [safe_step | by auto | cbv beta]).
Qed.

Lemma createAnswer_Safe offerData w :
  I w -> Safe I (createAnswer offerData w).
Proof using I_settle I_candidates I_creatingAnswer.
  intros Hw. unfold createAnswer.
  destruct (peerConnectionRef (hook w)); [|by apply Safe_throw].
  repeat (first [safe_step | by auto | cbv beta]).
Qed.

Lemma handleOffer_Safe answerData w :
  I w -> Safe I (handleOffer answerData w).
Proof using I_settle I_candidates I_creatingAnswer.
  intros Hw. unfold handleOffer. apply Safe_bind.
  - by apply createAnswer_Safe.
  - intros. by apply Safe_ret.
Qed.

Hypothesis I_activelyConnecting :
  forall w b, I w -> I (setIsActivelyConnectingRef b w).
Hypothesis I_connecting : forall w b, I w -> I (setIsConnecting b w).

Lemma handleAnswer_Safe answerData w :
  I w -> Safe I (handleAnswer answerData w).
Proof using I_settle I_creatingAnswer I_activelyConnecting I_connecting.
  intros Hw. unfold handleAnswer.
  destruct (peerConnectionRef (hook w)); [|by apply Safe_throw].
  repeat (first [safe_step | by auto | cbv beta]).
Qed.

End Invariant.

(** ** One open connection at a time *)

Lemma filter_open_closed (l : list RTCPeerConnection) :
  Forall (fun pc => pc_closed pc = true) l ->
  filter (fun pc => pc_closed pc = false) l = [].
Proof.
  induction 1 as [|pc l Hpc _ IH]; [done|].
  rewrite filter_cons_False; [done|]. rewrite Hpc. discriminate.
Qed.

Lemma leakedFrom_closed i cur (l : list RTCPeerConnection) :
  Forall (fun pc => pc_closed pc = true) l -> leakedFrom i cur l = 0.
Proof.
  intros H. revert i. induction H as [|pc l Hpc _ IH]; intros i; [done|].
  simpl. rewrite Hpc. apply IH.
Qed.

Lemma leakedFrom_app i cur (l1 l2 : list RTCPeerConnection) :
  leakedFrom i cur (l1 ++ l2)
  = leakedFrom i cur l1 + leakedFrom (i + length l1) cur l2.
Proof.
  revert i. induction l1 as [|pc l1 IH]; intros i; simpl.
  - by rewrite Nat.add_0_r.
  - rewrite IH. replace (S i + length l1) with (i + S (length l1)) by lia.
    lia.
Qed.

Lemma closeCurrent_closed w :
  AtMostOneOpen w ->
  Forall (fun pc => pc_closed pc = true) (pcs (closeCurrent w)).
Proof.
  intros Hone. apply Forall_lookup. intros i pc Hi.
  unfold closeCurrent in Hi.
  destruct (peerConnectionRef (hook w)) as [h|] eqn:Href.
  - simpl in Hi. destruct (decide (i = h)) as [->|Hne].
    + rewrite list_lookup_alter_eq in Hi.
      apply fmap_Some in Hi as (pc0 & _ & ->). done.
    + rewrite list_lookup_alter_ne in Hi by done.
      destruct (pc_closed pc) eqn:Hc; [done|].
      specialize (Hone i pc Hi Hc). congruence.
  - destruct (pc_closed pc) eqn:Hc; [done|].
    specialize (Hone i pc Hi Hc). congruence.
Qed.

Lemma closeCurrent_hook w : hook (closeCurrent w) = hook w.
Proof. unfold closeCurrent. by destruct (peerConnectionRef (hook w)). Qed.

Lemma closeCurrent_openHandles w :
  AtMostOneOpen w -> openHandles (closeCurrent w) = 0.
Proof.
  intros H. unfold openHandles.
  by rewrite filter_open_closed by by apply closeCurrent_closed.
Qed.

(** What [initializePeerConnection] establishes, given that every
    connection of the world it starts from is closed once the current one
    is. *)
Lemma initialize_fresh w :
  Forall (fun pc => pc_closed pc = true) (pcs (closeCurrent w)) ->
  AtMostOneOpen (initializePeerConnection w) /\
  FreshSession (initializePeerConnection w).
Proof.
  intros Hcl. unfold initializePeerConnection, construct.
  set (l := pcs (closeCurrent w)) in *.
  split; [|split; [|split; [|split]]]; simpl.
  - intros i pc Hi Hopen. simpl in *. fold l in Hi.
    destruct (decide (i < length l)) as [Hlt|Hge].
    + rewrite lookup_app_l in Hi by done.
      rewrite Forall_lookup in Hcl. specialize (Hcl i pc Hi). congruence.
    + rewrite lookup_app_r in Hi by lia.
      destruct (i - length l) as [|n] eqn:Hd; simplify_eq/=.
      f_equal. lia.
  - unfold openHandles. simpl. fold l.
    rewrite filter_app, filter_open_closed by done. done.
  - unfold leakedHandles. simpl. fold l.
    rewrite leakedFrom_app, leakedFrom_closed by done. simpl.
    by rewrite decide_True by done.
  - done.
  - exists (length l). fold l. split; [done|]. split.
    + rewrite lookup_app_r by lia. by rewrite Nat.sub_diag.
    + rewrite length_app. simpl. lia.
Qed.

Lemma initializePeerConnection_fresh w :
  AtMostOneOpen w ->
  AtMostOneOpen (initializePeerConnection w) /\
  FreshSession (initializePeerConnection w).
Proof. intros H. apply initialize_fresh. by apply closeCurrent_closed. Qed.

Lemma resetConnection_fresh w :
  AtMostOneOpen w ->
  AtMostOneOpen (resetConnection w) /\ FreshSession (resetConnection w).
Proof.
  intros H. unfold resetConnection. apply initialize_fresh.
  apply closeCurrent_closed. intros i pc Hi Hopen. simpl in *.
  rewrite closeCurrent_hook.
  pose proof (closeCurrent_closed w H) as Hcl.
  rewrite Forall_lookup in Hcl. specialize (Hcl i pc Hi). congruence.
Qed.

Lemma initialWorld_one : AtMostOneOpen initialWorld.
Proof. intros i pc Hi. by destruct i. Qed.

Lemma runLifecycle_snoc cs c w :
  runLifecycle (cs ++ [c]) w = lifecycle c (runLifecycle cs w).
Proof. unfold runLifecycle. by rewrite foldl_app. Qed.

Lemma lifecycle_fresh c w :
  AtMostOneOpen w ->
  AtMostOneOpen (lifecycle c w) /\ FreshSession (lifecycle c w).
Proof.
  destruct c; [apply initializePeerConnection_fresh
              | apply resetConnection_fresh].
Qed.

Lemma runLifecycle_one cs : AtMostOneOpen (runLifecycle cs initialWorld).
Proof.
  induction cs as [|c cs IH] using rev_ind; [apply initialWorld_one|].
  rewrite runLifecycle_snoc. by apply lifecycle_fresh.
Qed.

Lemma AtMostOneOpen_count w : AtMostOneOpen w -> openHandles w <= 1.
Proof.
  unfold AtMostOneOpen, openHandles. generalize (peerConnectionRef (hook w)).
  intros cur. generalize (pcs w). clear w. intros l. revert cur.
  induction l as [|pc l IH]; intros cur H; [simpl; lia|].
  destruct (pc_closed pc) eqn:Hc.
  - rewrite filter_cons_False by (rewrite Hc; discriminate).
    apply (IH (match cur with Some (S j) => Some j | _ => None end)).
    intros i pc' Hi Ho. specialize (H (S i) pc' Hi Ho). by subst cur.
  - rewrite filter_cons_True by done.
    rewrite filter_open_closed; [simpl; lia|].
    apply Forall_lookup. intros i pc' Hi.
    destruct (pc_closed pc') eqn:Hc'; [done|].
    pose proof (H 0 pc eq_refl Hc). pose proof (H (S i) pc' Hi Hc').
    congruence.
Qed.

Lemma AtMostOneOpen_leaked w : AtMostOneOpen w -> leakedHandles w = 0.
Proof.
  unfold AtMostOneOpen, leakedHandles.
  generalize (peerConnectionRef (hook w)). intros cur.
  assert (forall l k,
    (forall i pc, l !! i = Some pc -> pc_closed pc = false ->
                  cur = Some (k + i)) ->
    leakedFrom k cur l = 0) as Hgen.
  { induction l as [|pc l IH]; intros k H; [done|]. simpl.
    rewrite IH.
    - destruct (pc_closed pc) eqn:Hc; [done|].
      rewrite decide_True; [done|].
      rewrite (H 0 pc eq_refl Hc). f_equal. lia.
    - intros i pc' Hi Ho. rewrite (H (S i) pc' Hi Ho). f_equal. lia. }
  intros H. apply Hgen. intros i pc Hi Ho. simpl. by apply (H i pc).
Qed.

(** *** In every reachable world *)

Lemma alter_AtMostOneOpen f h w :
  (forall pc, pc_closed (f pc) = pc_closed pc) ->
  AtMostOneOpen w -> AtMostOneOpen (setPcs (alter f h (pcs w)) w).
Proof.
  intros Hf Hw i pc Hi Hopen. simpl in *.
  destruct (decide (h = i)) as [->|Hne].
  - rewrite list_lookup_alter_eq in Hi.
    apply fmap_Some in Hi as (pc0 & Hpc0 & ->).
    rewrite Hf in Hopen. by apply (Hw i pc0).
  - rewrite list_lookup_alter_ne in Hi by done. by apply (Hw i pc).
Qed.

Lemma settle_AtMostOneOpen c rsp w :
  AtMostOneOpen w -> AtMostOneOpen (settle c rsp w).1.
Proof.
  intros Hw. destruct c; simpl; try done; destruct (reply rsp); try done;
    by apply (alter_AtMostOneOpen _ _ (setNow _ w)).
Qed.

Lemma runTask_AtMostOneOpen t w :
  AtMostOneOpen w -> AtMostOneOpen (runTask t w).
Proof.
  intros Hw. destruct t as [h st|h s|h c|h st|h st|].
  - simpl. unfold onconnectionstatechange.
    pose proof (alter_AtMostOneOpen (withConnectionState st) h w
                  ltac:(done) Hw) as Hw'.
    destruct (_ !! h); [|done]. simpl.
    destruct (_ && _); [done|]. by destruct (_ || _).
  - simpl. by destruct (pcs w !! h).
  - simpl. destruct (pcs w !! h); [|done]. by destruct c.
  - by apply alter_AtMostOneOpen.
  - by apply alter_AtMostOneOpen.
  - by apply resetConnection_fresh.
Qed.

Lemma run_AtMostOneOpen {A} (m : Async A) o w v :
  Safe AtMostOneOpen (m w) -> v ∈ visited (run m o w) -> AtMostOneOpen v.
Proof.
  intros Hsafe Hv.
  destruct (exec_Safe AtMostOneOpen o (m w) 0) as [Hall _]; [|done|].
  - intros j t w' _. apply runTask_AtMostOneOpen.
  - rewrite Forall_forall in Hall. by apply Hall.
Qed.

(** In every reachable world, every open connection is the one the ref
    holds: whatever was called and whatever the browser did, at most one
    connection is open and none has leaked. *)
Lemma Reachable_AtMostOneOpen w : Reachable w -> AtMostOneOpen w.
Proof.
  induction 1 as [|c w _ IH|t w _ IH|o w v _ IH Hv|p o w v _ IH Hv
                 |p o w v _ IH Hv|p o w v _ IH Hv].
  - apply initialWorld_one.
  - by apply lifecycle_fresh.
  - by apply runTask_AtMostOneOpen.
  - eapply run_AtMostOneOpen; [|exact Hv].
    apply createOffer_Safe; [apply settle_AtMostOneOpen|done|done].
  - eapply run_AtMostOneOpen; [|exact Hv].
    apply handleAnswer_Safe; [apply settle_AtMostOneOpen|done..].
  - eapply run_AtMostOneOpen; [|exact Hv].
    apply createAnswer_Safe; [apply settle_AtMostOneOpen|done..].
  - eapply run_AtMostOneOpen; [|exact Hv].
    apply handleOffer_Safe; [apply settle_AtMostOneOpen|done..].
Qed.

Lemma runLifecycle_Reachable cs w :
  Reachable w -> Reachable (runLifecycle cs w).
Proof.
  intros Hw. induction cs as [|c cs IH] using rev_ind; [done|].
  rewrite runLifecycle_snoc. by constructor.
Qed.

(** C8.  Start from any world the hook can be in, and make any sequence of
    [initializePeerConnection] and [resetConnection] calls.  Then at most
    one connection is open and none is open out of the ref's reach; closing
    the current one leaves none open, which is what each call does before
    it constructs the next.  After at least one call exactly one connection
    is open: a newly constructed one, held by the ref, with an empty
    accumulator. *)
Theorem one_open_handle (w : World) (cs : list LifecycleCall) :
  Reachable w ->
  let w' := runLifecycle cs w in
  (openHandles w' <= 1 /\ leakedHandles w' = 0 /\
   openHandles (closeCurrent w') = 0) /\
  (cs <> [] -> FreshSession w').
Proof.
  intros Hw w'.
  assert (AtMostOneOpen w') as Hone
    by by apply Reachable_AtMostOneOpen, runLifecycle_Reachable.
  split.
  - split; [by apply AtMostOneOpen_count|].
    split; [by apply AtMostOneOpen_leaked|by apply closeCurrent_openHandles].
  - intros Hne. subst w'.
    destruct cs as [|c cs _] using rev_ind; [done|].
    rewrite runLifecycle_snoc.
    by apply lifecycle_fresh, Reachable_AtMostOneOpen, runLifecycle_Reachable.
Qed.

Lemma one_open_handle_witness :
  Reachable mounted /\
  (openHandles (runLifecycle [Reset; Initialize; Initialize] mounted) <= 1 /\
   leakedHandles (runLifecycle [Reset; Initialize; Initialize] mounted) = 0 /\
   openHandles
     (closeCurrent (runLifecycle [Reset; Initialize; Initialize] mounted))
   = 0).
Proof.
  assert (Reachable mounted) as Hm
    by exact (Reachable_lifecycle Initialize initialWorld Reachable_initial).
  split; [exact Hm|].
  exact (proj1 (one_open_handle mounted [Reset; Initialize; Initialize] Hm)).
Defined.

(** Four calls in a row on a new hook: four connections were constructed,
    the last is the only open one. *)
Example four_initialisations :
  let w := runLifecycle [Initialize; Reset; Initialize; Initialize]
             initialWorld in
  length (pcs w) = 4 /\ openHandles w = 1 /\ leakedHandles w = 0 /\
  peerConnectionRef (hook w) = Some 3 /\ iceCandidatesRef (hook w) = [].
Proof. vm_compute. done. Qed.

(** ** No connecting status while an offer or an answer is created *)

Lemma initializePeerConnection_status w :
  isActivelyConnectingRef (hook (initializePeerConnection w))
  = isActivelyConnectingRef (hook w) /\
  isConnecting (hook (initializePeerConnection w)) = isConnecting (hook w).
Proof.
  unfold initializePeerConnection, construct. simpl.
  by rewrite closeCurrent_hook.
Qed.

Lemma resetConnection_StatusClear w : StatusClear (resetConnection w).
Proof.
  unfold StatusClear, resetConnection.
  destruct (initializePeerConnection_status
    (setIsCreatingAnswerRef false
       (setIsActivelyConnectingRef false
          (setConnectionState new
             (setIsConnecting false
                (setIsConnected false
                   (setRemoteStream None (closeCurrent w)))))))) as [-> ->].
  done.
Qed.

Lemma mounted_StatusClear : StatusClear mounted.
Proof. by split. Qed.

Lemma onconnectionstatechange_StatusClear h w :
  StatusClear w -> StatusClear (onconnectionstatechange h w).
Proof.
  intros [Ha Hc]. unfold onconnectionstatechange.
  destruct (pcs w !! h) as [pc|]; [|done]. simpl. rewrite Ha. simpl.
  by destruct (_ || _).
Qed.

(** No task sets the status of a session nobody is connecting: the state
    handler shows "connecting" only under the "actively connecting" ref. *)
Lemma runTask_StatusClear t w : StatusClear w -> StatusClear (runTask t w).
Proof.
  intros H. destruct t as [h st|h s|h c|h st|h st|]; simpl.
  - by apply onconnectionstatechange_StatusClear.
  - by destruct (pcs w !! h).
  - destruct (pcs w !! h); [|done]. by destruct c.
  - done.
  - done.
  - apply resetConnection_StatusClear.
Qed.

(** C5.  In a session where nobody is connecting (as after mount and after
    every [resetConnection]), [isConnecting] is false at every idle world
    of [createOffer] -- so also when it has returned -- and of
    [createAnswer], whatever the browser reports meanwhile, a transient
    'connecting' state included. *)
Theorem no_connecting_status_while_creating
  (w : World) (o : Oracle) (offerData : SignalingData) :
  StatusClear w ->
  (Forall (fun v => isConnecting (hook v) = false)
     (visited (run createOffer o w)) /\
   isConnecting (hook (final (run createOffer o w))) = false) /\
  (Forall (fun v => isConnecting (hook v) = false)
     (visited (run (createAnswer offerData) o w)) /\
   isConnecting (hook (final (run (createAnswer offerData) o w))) = false).
Proof.
  intros Hw.
  assert (forall A (st : Step A),
    Safe StatusClear st ->
    Forall (fun v => isConnecting (hook v) = false) (visited (exec st o 0)) /\
    isConnecting (hook (final (exec st o 0))) = false) as Hrun.
  { intros A st Hst.
    destruct (exec_Safe StatusClear o st 0) as [Hv Hf]; [|done|].
    - intros j t w' _. apply runTask_StatusClear.
    - split; [|apply Hf]. eapply Forall_impl; [exact Hv|].
      by intros v []. }
  assert (forall c rsp w', StatusClear w' -> StatusClear (settle c rsp w').1)
    as Hsettle.
  { intros c rsp w'. unfold StatusClear. by rewrite settle_hook. }
  split; apply Hrun.
  - by apply createOffer_Safe.
  - by apply createAnswer_Safe.
Qed.

Lemma no_connecting_status_while_creating_witness :
  StatusClear mounted /\
  Forall (fun v => isConnecting (hook v) = false)
    (visited (run (createAnswer
                     {| type := offer; sdp := js "v=0"; iceCandidates := [] |})
                  connectingDuringAnswer mounted)).
Proof.
  split; [exact mounted_StatusClear|].
  exact (proj1 (proj2 (no_connecting_status_while_creating mounted
    connectingDuringAnswer
    {| type := offer; sdp := js "v=0"; iceCandidates := [] |}
    mounted_StatusClear))).
Defined.

(** ** The connecting status around [handleAnswer] *)

Lemma handleAnswer_first_segment answerData w h :
  peerConnectionRef (hook w) = Some h ->
  exists k,
    handleAnswer answerData w
    = Susp (setIsConnecting true
              (setIsActivelyConnectingRef true
                 (setIsCreatingAnswerRef false w)))
        (PcSetRemoteDescription h (answer, sdp answerData)) k.
Proof.
  intros Href. unfold handleAnswer. rewrite Href.
  unfold tryCatch, bind, modify, currentPc. simpl. rewrite Href. simpl.
  eexists. reflexivity.
Qed.

Lemma connection_state_ends_attempt w h pc st :
  pcs w !! h = Some pc -> endsAttempt st = true ->
  isConnecting (hook (runTask (ConnectionStateChange h st) w)) = false /\
  isActivelyConnectingRef (hook (runTask (ConnectionStateChange h st) w))
  = false.
Proof.
  intros Hh Hst. simpl. unfold onconnectionstatechange. simpl.
  rewrite list_lookup_alter_eq, Hh. simpl.
  unfold endsAttempt in Hst.
  destruct st; try discriminate Hst; simpl;
    by rewrite andb_false_r.
Qed.

(** C4.  With a connection in the ref, [handleAnswer] runs up to its first
    [await] -- the [setRemoteDescription] of the answer on that connection
    -- and at that suspension the "actively connecting" ref and
    [isConnecting] are already true while no connection has changed yet.
    And in any world, a state change of a connection to 'connected',
    'disconnected' or 'failed' leaves [isConnecting] false and the ref
    cleared. *)
Theorem connecting_set_before_commit_cleared_on_outcome
  (w : World) (answerData : SignalingData) (h : Handle) :
  peerConnectionRef (hook w) = Some h ->
  (exists w1 k,
     handleAnswer answerData w
     = Susp w1 (PcSetRemoteDescription h (answer, sdp answerData)) k /\
     isActivelyConnectingRef (hook w1) = true /\
     isConnecting (hook w1) = true /\
     pcs w1 = pcs w) /\
  (forall w' h' pc st,
     pcs w' !! h' = Some pc -> endsAttempt st = true ->
     isConnecting (hook (runTask (ConnectionStateChange h' st) w')) = false /\
     isActivelyConnectingRef
       (hook (runTask (ConnectionStateChange h' st) w')) = false).
Proof.
  intros Href. split.
  - destruct (handleAnswer_first_segment answerData w h Href) as [k Hk].
    eexists _, k. split; [exact Hk|]. done.
  - intros w' h' pc st. apply connection_state_ends_attempt.
Qed.

Lemma connecting_set_before_commit_cleared_on_outcome_witness :
  peerConnectionRef (hook mounted) = Some 0 /\
  exists w1 k,
    handleAnswer {| type := answer; sdp := js "v=0"; iceCandidates := [] |}
      mounted
    = Susp w1 (PcSetRemoteDescription 0 (answer, js "v=0")) k /\
    isActivelyConnectingRef (hook w1) = true /\
    isConnecting (hook w1) = true /\
    pcs w1 = pcs mounted.
Proof.
  split; [reflexivity|].
  exact (proj1 (connecting_set_before_commit_cleared_on_outcome mounted
    {| type := answer; sdp := js "v=0"; iceCandidates := [] |} 0 eq_refl)).
Defined.

(** ** The bounded gathering wait *)




Lemma pollWorld_S o i n w :
  pollWorld o i (S n) w
  = pollWorld o (S i) n
      (settle (Timer POLL_INTERVAL_MS) (o i) (afterTasks (tasks (o i)) w)).1.
Proof. done. Qed.



(** A browser that never reports the end of gathering: the wait ends at
    2000 ms. *)
Example gathering_never_complete :
  let r := exec (awaitGatheringSettled mounted) (script []) 0 in
  outcome r = Returned tt /\ now (final r) = 2000%N /\
  iceCandidatesRef (hook (final r)) = [].
Proof. vm_compute. done. Qed.

(** Gathering reported complete between the polls at 200 and 300 ms: the
    wait ends at 300 ms. *)
Example gathering_complete_early :
  let r := exec (awaitGatheringSettled mounted)
             (script [quiet; quiet;
                      {| latency := 0%N;
                         tasks := [IceGatheringStateChange 0 complete];
                         reply := Resolved [] |}]) 0 in
  outcome r = Returned tt /\ now (final r) = 300%N.
Proof. vm_compute. done. Qed.

(** ** [handleOffer] *)

Lemma exec_bind_ret {A} (st : Step A) o i :
  visited (exec (bindStep st (fun _ => ret tt)) o i) = visited (exec st o i) /\
  final (exec (bindStep st (fun _ => ret tt)) o i) = final (exec st o i) /\
  outcome (exec (bindStep st (fun _ => ret tt)) o i)
  = dropped (outcome (exec st o i)).
Proof.
  revert i. induction st as [w r|w c k IH]; intros i.
  - by destruct r.
  - simpl.
    destruct (settle c (o i) (afterTasks (tasks (o i)) w)) as [w2 r].
    destruct (IH r w2 (S i)) as (Hv & Hf & Ho). simpl.
    by rewrite Hv, Hf, Ho.
Qed.

(** C10.  Against the same oracle and from the same world, [handleOffer]
    goes through the same idle worlds as [createAnswer], ends in the same
    world, and throws exactly when [createAnswer] throws, the same error;
    when [createAnswer] returns its payload, [handleOffer] returns
    nothing. *)
Theorem handleOffer_is_createAnswer_dropped
  (p : SignalingData) (o : Oracle) (w : World) :
  visited (run (handleOffer p) o w) = visited (run (createAnswer p) o w) /\
  final (run (handleOffer p) o w) = final (run (createAnswer p) o w) /\
  outcome (run (handleOffer p) o w)
  = dropped (outcome (run (createAnswer p) o w)).
Proof. unfold run, handleOffer, bind. apply exec_bind_ret. Qed.

(** ** The candidate accumulator *)







Lemma createAnswer_clears_first offerData w h :
  peerConnectionRef (hook w) = Some h ->
  exists k,
    createAnswer offerData w
    = Susp (setIsCreatingAnswerRef true (setIceCandidatesRef [] w))
        (PcSetRemoteDescription h (offer, sdp offerData)) k.
Proof.
  intros Href. unfold createAnswer. rewrite Href.
  unfold tryCatch, bind, modify, currentPc. simpl. rewrite Href. simpl.
  eexists. reflexivity.
Qed.






(** ** What [handleAnswer] throws, and what it leaves behind *)

Section TransportErrors.
Variable R : Response -> Prop.
Variable I : World -> Prop.
Hypothesis I_ref : forall w, I w -> peerConnectionRef (hook w) <> None.
Hypothesis I_settle : forall c rsp w, I w -> I (settle c rsp w).1.

Lemma TransportOnly_bind {A B} (m : Async A) (f : A -> Async B) w :
  HoldsFor R I TransportOnly (m w) ->
  (forall a w', I w' -> HoldsFor R I TransportOnly (f a w')) ->
  HoldsFor R I TransportOnly (bind m f w).
Proof using Type.
  intros Hm Hf. apply (Holds_bind _ _ TransportOnly); [done| |].
  - intros a w' Hw' _. by apply Hf.
  - intros e w' _ He e' [= <-]. by apply (He e).
Qed.

Lemma TransportOnly_currentPc w :
  I w -> HoldsFor R I TransportOnly (currentPc w).
Proof using I_ref.
  intros Hw. apply Holds_currentPc; [done| |].
  - intros h _ e. discriminate.
  - intros Hn. by apply I_ref in Hw.
Qed.

Lemma TransportOnly_await c w :
  I w -> HoldsFor R I TransportOnly (await c w).
Proof using I_settle.
  intros Hw. apply Holds_await; [done|]. intros rsp w1 _ Hw1.
  split; [by apply I_settle|].
  destruct (settle c rsp w1).2; intros e' [= <-]; by eexists.
Qed.

Lemma TransportOnly_addCandidates (cs : list RTCIceCandidate) w :
  I w ->
  HoldsFor R I TransportOnly
    (forOf cs (fun candidate =>
       pc' <~ currentPc ;;
       _ <~ await (PcAddIceCandidate pc' candidate) ;;
       ret tt) w).
Proof using I_ref I_settle.
  intros Hw.
  eapply Holds_weaken;
    [|apply (Holds_forOf _ _ (fun _ => True)
               (fun _ e => exists msg, e = TransportError msg));
      [done|done|]].
  - intros w' [a|e] _ H e'; [discriminate|]. by intros [= <-].
  - intros c w' _ Hw' _.
    eapply Holds_weaken; [|apply TransportOnly_bind].
    + intros w'' [a|e] _ H; [done|]. by apply H.
    + by apply TransportOnly_currentPc.
    + intros pc' w1 Hw1. apply TransportOnly_bind.
      * by apply TransportOnly_await.
      * intros _ w2 Hw2. apply Holds_ret; [done|]. intros e. discriminate.
Qed.

End TransportErrors.

Lemma tryCatch_modify {A} (f : World -> World) (m : Async A) handler w :
  tryCatch (modify f ;;; m) handler w = tryCatch m handler (f w).
Proof. done. Qed.

Lemma handleAnswer_unfold answerData w h :
  peerConnectionRef (hook w) = Some h ->
  handleAnswer answerData w
  = tryCatch (submitAnswer answerData)
      (fun error => modify (setIsConnecting false) ;;; throw error)
      (setIsConnecting true
         (setIsActivelyConnectingRef true (setIsCreatingAnswerRef false w))).
Proof. intros Href. unfold handleAnswer. by rewrite Href. Qed.

Lemma submitAnswer_TransportOnly R I answerData w :
  (forall w', I w' -> peerConnectionRef (hook w') <> None) ->
  (forall c rsp w', I w' -> I (settle c rsp w').1) ->
  I w -> HoldsFor R I TransportOnly (submitAnswer answerData w).
Proof.
  intros Href Hsettle Hw. unfold submitAnswer.
  apply TransportOnly_bind; [by apply TransportOnly_currentPc|].
  intros pc w1 Hw1. apply TransportOnly_bind;
    [by apply TransportOnly_await|].
  intros _ w2 Hw2. by apply TransportOnly_addCandidates.
Qed.

(** C3, as the code has it.  When [handleAnswer] fails and no event
    arrived meanwhile, the error is the transport's and [isConnecting] is
    false again, but the "actively connecting" ref is still true: the
    [catch] block writes the former and not the latter. *)
Theorem handleAnswer_failure_keeps_flag
  (w : World) (h : Handle) (answerData : SignalingData) (o : Oracle)
  (e : Error) :
  peerConnectionRef (hook w) = Some h ->
  NoTasks o ->
  outcome (run (handleAnswer answerData) o w) = Thrown e ->
  (exists msg, e = TransportError msg) /\
  isConnecting (hook (final (run (handleAnswer answerData) o w))) = false /\
  isActivelyConnectingRef
    (hook (final (run (handleAnswer answerData) o w))) = true.
Proof.
  intros Href Hno Hout. unfold run in *.
  rewrite (handleAnswer_unfold answerData w h Href) in *.
  set (w0 := setIsConnecting true _) in *.
  destruct (exec_Holds (fun _ => True) ActivelyConnecting
    (fun w' r => forall e', r = Thrown e' ->
       (exists msg, e' = TransportError msg) /\
       isConnecting (hook w') = false /\
       isActivelyConnectingRef (hook w') = true)
    o (tryCatch (submitAnswer answerData)
         (fun error => modify (setIsConnecting false) ;;; throw error) w0) 0)
    as [_ HQ]; [done| | |by apply HQ].
  - intros j t w'. rewrite (Hno j). by intros ?%elem_of_nil.
  - apply (Holds_tryCatch _ _ TransportOnly).
    + apply submitAnswer_TransportOnly.
      * by intros w' [_ ?].
      * intros c rsp w'. unfold ActivelyConnecting. by rewrite settle_hook.
      * subst w0. split; [done|]. simpl. by rewrite Href.
    + intros a w' _ _ e'. discriminate.
    + intros e' w' [Hact Hr] He'.
      apply (Holds_bind _ _ (fun w'' r =>
               r = Returned tt /\ isConnecting (hook w'') = false)).
      * by apply Holds_modify.
      * intros [] w'' [Hact' Hr'] [_ Hc]. apply Holds_throw; [done|].
        intros e'' [= <-]. split; [by apply He'|done].
      * by intros e'' w'' _ [? _].
Qed.

Lemma handleAnswer_failure_keeps_flag_witness :
  peerConnectionRef (hook mounted) = Some 0 /\
  NoTasks secondCandidateRefused /\
  outcome (run (handleAnswer twoCandidateAnswer) secondCandidateRefused
             mounted)
  = Thrown (TransportError (js "OperationError")) /\
  isConnecting
    (hook (final (run (handleAnswer twoCandidateAnswer)
                    secondCandidateRefused mounted))) = false /\
  isActivelyConnectingRef
    (hook (final (run (handleAnswer twoCandidateAnswer)
                    secondCandidateRefused mounted))) = true.
Proof.
  assert (NoTasks secondCandidateRefused) as Hno.
  { intros i. unfold secondCandidateRefused, script.
    do 3 (destruct i as [|i]; [reflexivity|]). reflexivity. }
  split; [reflexivity|]. split; [exact Hno|]. split; [reflexivity|].
  exact (proj2 (handleAnswer_failure_keeps_flag mounted 0 twoCandidateAnswer
    secondCandidateRefused (TransportError (js "OperationError"))
    eq_refl Hno eq_refl)).
Defined.

(** The same run, evaluated: the error is re-thrown and [isConnecting] is
    false, the first candidate stays applied, and the "actively
    connecting" ref stays true. *)
Example handleAnswer_second_candidate_refused :
  let r := run (handleAnswer twoCandidateAnswer) secondCandidateRefused
             mounted in
  outcome r = Thrown (TransportError (js "OperationError")) /\
  isConnecting (hook (final r)) = false /\
  isActivelyConnectingRef (hook (final r)) = true /\
  (pc_remoteCandidates <$> pcs (final r) !! 0) = Some [hostCandidate] /\
  (pc_remoteDescription <$> pcs (final r) !! 0)
  = Some (Some (answer, js "v=0 answer")).
Proof. vm_compute. done. Qed.

(** What the ref left set does next: on the same session, a later
    [createOffer] during which the browser reports 'connecting' shows the
    connecting status, although no peer is being connected. *)
Example stale_flag_shows_connecting :
  let w := final (run (handleAnswer twoCandidateAnswer)
                    secondCandidateRefused mounted) in
  let r := run createOffer
             (script [ {| latency := 2%N;
                          tasks := [ConnectionStateChange 0 connecting];
                          reply := Resolved (js "v=0 offer") |} ]) w in
  isConnecting (hook w) = false /\
  isConnecting (hook (final r)) = true.
Proof. vm_compute. done. Qed.

(** ** The payload's kind *)

(** C2, as the code has it.  Neither function reads the payload's [type]:
    relabelling the payload changes nothing of what [handleAnswer] and
    [createAnswer] do.  With a connection in the ref, [handleAnswer]
    submits the payload's description as an answer and [createAnswer]
    submits it as an offer, whatever the payload says it is. *)
Theorem payload_kind_is_not_read
  (p : SignalingData) (t : RTCSdpType) (w : World) (h : Handle) :
  peerConnectionRef (hook w) = Some h ->
  (handleAnswer (withType t p) w = handleAnswer p w /\
   createAnswer (withType t p) w = createAnswer p w) /\
  (exists w1 k,
     handleAnswer (withType t p) w
     = Susp w1 (PcSetRemoteDescription h (answer, sdp p)) k) /\
  (exists w1 k,
     createAnswer (withType t p) w
     = Susp w1 (PcSetRemoteDescription h (offer, sdp p)) k).
Proof.
  intros Href. split; [by split|]. split.
  - destruct (handleAnswer_first_segment (withType t p) w h Href) as [k Hk].
    by eexists _, k.
  - destruct (createAnswer_clears_first (withType t p) w h Href) as [k Hk].
    by eexists _, k.
Qed.

(** C2 as stated fails.  [createAnswer] on a payload of kind answer does
    not fail: it returns a payload, and the session has changed -- the
    description was committed as a remote offer, its candidate applied and
    a local answer set.  Likewise [handleAnswer] on a payload of kind
    offer returns normally, having committed it as an answer. *)
Lemma wrong_kind_is_accepted :
  (let r := run (createAnswer answerKindPayload) acceptingResponder mounted in
   outcome r
   = Returned {| type := answer; sdp := js "v=0 reply"; iceCandidates := [] |}
   /\
   pcs (final r) !! 0
   = Some {| pc_closed := false;
             pc_connectionState := new;
             pc_iceConnectionState := ice_new;
             pc_iceGatheringState := complete;
             pc_localDescription := Some (answer, js "v=0 reply");
             pc_remoteDescription := Some (offer, js "v=0 answer");
             pc_remoteCandidates := [hostCandidate] |}) /\
  (let r := run (handleAnswer (withType offer answerKindPayload))
              acceptingResponder mounted in
   outcome r = Returned tt /\
   (pc_remoteDescription <$> pcs (final r) !! 0)
   = Some (Some (answer, js "v=0 answer"))).
Proof. vm_compute. done. Qed.

Lemma payload_kind_is_not_read_witness :
  peerConnectionRef (hook mounted) = Some 0 /\
  handleAnswer (withType offer answerKindPayload) mounted
  = handleAnswer answerKindPayload mounted /\
  createAnswer (withType offer answerKindPayload) mounted
  = createAnswer answerKindPayload mounted.
Proof.
  split; [reflexivity|].
  exact (proj1 (payload_kind_is_not_read answerKindPayload offer mounted 0
    eq_refl)).
Defined.

(** ** [handleAnswer] after [resetConnection] *)

Lemma closeCurrent_length w : length (pcs (closeCurrent w)) = length (pcs w).
Proof.
  unfold closeCurrent. destruct (peerConnectionRef (hook w)); [|done].
  simpl. apply length_alter.
Qed.

(** [resetConnection] puts a newly constructed connection in the ref, in
    the next free slot of the store. *)
Lemma resetConnection_ref w :
  peerConnectionRef (hook (resetConnection w)) = Some (length (pcs w)) /\
  pcs (resetConnection w) !! length (pcs w) = Some newPeerConnection.
Proof.
  unfold resetConnection, initializePeerConnection, construct. simpl.
  repeat (rewrite closeCurrent_length; simpl).
  split; [done|].
  rewrite lookup_app_r by (repeat (rewrite closeCurrent_length; simpl); lia).
  repeat (rewrite closeCurrent_length; simpl). by rewrite Nat.sub_diag.
Qed.














(** A reset while [createOffer] is suspended: the function goes on against
    the connection the ref holds when it resumes, and sets the offer made
    by the closed connection as the local description of the new one. *)
Example createOffer_resumes_on_new_session :
  let r := run createOffer
             (script [ {| latency := 4%N; tasks := [UserReset];
                          reply := Resolved (js "v=0 offer") |} ]) mounted in
  outcome r
  = Returned {| type := offer; sdp := js "v=0 offer"; iceCandidates := [] |} /\
  peerConnectionRef (hook (final r)) = Some 1 /\
  (pc_closed <$> pcs (final r) !! 0) = Some true /\
  (pc_localDescription <$> pcs (final r) !! 0) = Some None /\
  (pc_localDescription <$> pcs (final r) !! 1)
  = Some (Some (offer, js "v=0 offer")).
Proof. vm_compute. done. Qed.

(** The same calls with a browser that refuses the answer, as one that
    checks the signaling state does: the call throws the browser's error,
    nothing is applied -- and the new session is left marked as actively
    connecting. *)
Example answer_refused_by_the_browser :
  let w := resetConnection (final (run createOffer offerRound mounted)) in
  let r := run (handleAnswer peerAnswer)
             (script [ {| latency := 1%N; tasks := [];
                          reply := Rejected (js "InvalidStateError") |} ]) w in
  outcome r = Thrown (TransportError (js "InvalidStateError")) /\
  pcs (final r) !! 1 = Some newPeerConnection /\
  isConnecting (hook (final r)) = false /\
  isActivelyConnectingRef (hook (final r)) = true.
Proof. vm_compute. done. Qed.

Module JSONFacts.
Import JSON.
Local Open Scope N_scope.

Lemma hex_digits_value c :
  c < 65536 ->
  4096 * (c / 4096 mod 16) + 256 * (c / 256 mod 16) + 16 * (c / 16 mod 16)
  + c mod 16 = c.
Proof.
  intros Hc.
  pose proof (N.Div0.div_mod c 16) as H1.
  pose proof (N.Div0.div_mod (c / 16) 16) as H2.
  pose proof (N.Div0.div_mod (c / 16 / 16) 16) as H3.
  rewrite !N.Div0.div_div in H2, H3.
  change (16 * 16) with 256 in *.
  rewrite N.Div0.div_div in H3. change (256 * 16) with 4096 in *.
  assert (c / 4096 < 16) as H4 by (apply N.Div0.div_lt_upper_bound; lia).
  rewrite (N.mod_small (c / 4096) 16 H4). lia.
Qed.

Lemma hexValue_hexDigit d : d < 16 -> hexValue (hexDigit d) = Some d.
Proof.
  intros Hd.
  assert (d = 0 \/ d = 1 \/ d = 2 \/ d = 3 \/ d = 4 \/ d = 5 \/ d = 6 \/
          d = 7 \/ d = 8 \/ d = 9 \/ d = 10 \/ d = 11 \/ d = 12 \/ d = 13 \/
          d = 14 \/ d = 15) as H by lia.
  repeat (destruct H as [->|H]; [reflexivity|]). by subst.
Qed.

Lemma parseChars_escape h1 h2 h3 h4 s :
  parseChars (92 :: 117 :: h1 :: h2 :: h3 :: h4 :: s)
  = match hexValue h1, hexValue h2, hexValue h3, hexValue h4 with
    | Some a, Some b, Some c', Some d =>
        match parseChars s with
        | Some (str, r) =>
            Some ((4096 * a + 256 * b + 16 * c' + d) :: str, r)
        | None => None
        end
    | _, _, _, _ => None
    end.
Proof. reflexivity. Qed.

Lemma parseChars_UnicodeEscape c s str r :
  c < 65536 -> parseChars s = Some (str, r) ->
  parseChars (UnicodeEscape c ++ s) = Some (c :: str, r).
Proof.
  intros Hc Hs. unfold UnicodeEscape.
  change (parseChars (92 :: 117 :: hexDigit (c / 4096 mod 16)
                        :: hexDigit (c / 256 mod 16)
                        :: hexDigit (c / 16 mod 16)
                        :: hexDigit (c mod 16) :: s) = Some (c :: str, r)).
  rewrite parseChars_escape.
  rewrite !hexValue_hexDigit by (apply N.mod_lt; lia).
  by rewrite Hs, hex_digits_value.
Qed.

Lemma isLeadingSurrogate_spec c :
  isLeadingSurrogate c = true <-> 55296 <= c <= 56319.
Proof.
  unfold isLeadingSurrogate. by rewrite andb_true_iff, !N.leb_le.
Qed.

Lemma isTrailingSurrogate_spec c :
  isTrailingSurrogate c = true <-> 56320 <= c <= 57343.
Proof.
  unfold isTrailingSurrogate. by rewrite andb_true_iff, !N.leb_le.
Qed.

(** A character that stands for itself inside a string. *)
Lemma parseChars_literal c s str r :
  c <> 34 -> c <> 92 -> 32 <= c -> parseChars s = Some (str, r) ->
  parseChars (c :: s) = Some (c :: str, r).
Proof.
  intros Hq Hb Hc Hs. simpl.
  destruct (N.eqb_spec c 34); [done|]. destruct (N.eqb_spec c 92); [done|].
  destruct (N.ltb_spec c 32); [lia|]. by rewrite Hs.
Qed.

Lemma parseChars_quoteCodeUnit c s str r :
  parseChars s = Some (str, r) ->
  parseChars (quoteCodeUnit c ++ s) = Some (c :: str, r).
Proof.
  intros Hs. unfold quoteCodeUnit.
  destruct (N.eqb_spec c 8) as [->|?]; [simpl; by rewrite Hs|].
  destruct (N.eqb_spec c 9) as [->|?]; [simpl; by rewrite Hs|].
  destruct (N.eqb_spec c 10) as [->|?]; [simpl; by rewrite Hs|].
  destruct (N.eqb_spec c 12) as [->|?]; [simpl; by rewrite Hs|].
  destruct (N.eqb_spec c 13) as [->|?]; [simpl; by rewrite Hs|].
  destruct (N.eqb_spec c 34) as [->|?]; [simpl; by rewrite Hs|].
  destruct (N.eqb_spec c 92) as [->|?]; [simpl; by rewrite Hs|].
  destruct ((c <? 32) || isLeadingSurrogate c || isTrailingSurrogate c)
    eqn:Hesc.
  - apply parseChars_UnicodeEscape; [|done].
    apply orb_true_iff in Hesc as [Hesc|Hesc];
      [apply orb_true_iff in Hesc as [Hesc|Hesc]|].
    + apply N.ltb_lt in Hesc. lia.
    + apply isLeadingSurrogate_spec in Hesc. lia.
    + apply isTrailingSurrogate_spec in Hesc. lia.
  - apply parseChars_literal; [done|done| |done].
    apply orb_false_iff in Hesc as [Hesc _].
    apply orb_false_iff in Hesc as [Hesc _].
    apply N.ltb_ge in Hesc. done.
Qed.

Lemma parseChars_quoteCodePoints s rest :
  parseChars (quoteCodePoints s ++ 34 :: rest) = Some (s, rest).
Proof.
  remember (length s) as n eqn:Hn. revert s Hn.
  induction n as [n IH] using lt_wf_ind. intros s Hn.
  destruct s as [|c [|d s]].
  - done.
  - change (quoteCodePoints [c]) with (quoteCodeUnit c).
    by apply (parseChars_quoteCodeUnit c (34 :: rest) [] rest).
  - change (quoteCodePoints (c :: d :: s))
      with (if isLeadingSurrogate c && isTrailingSurrogate d
            then c :: d :: quoteCodePoints s
            else quoteCodeUnit c ++ quoteCodePoints (d :: s)).
    destruct (isLeadingSurrogate c && isTrailingSurrogate d) eqn:Hpair.
    + apply andb_prop in Hpair as [Hc Hd].
      apply isLeadingSurrogate_spec in Hc.
      apply isTrailingSurrogate_spec in Hd.
      change ((c :: d :: quoteCodePoints s) ++ 34 :: rest)
        with (c :: d :: (quoteCodePoints s ++ 34 :: rest)).
      apply parseChars_literal; [lia|lia|lia|].
      apply parseChars_literal; [lia|lia|lia|].
      apply (IH (length s)); [simpl in Hn; lia|done].
    + rewrite <- app_assoc. apply parseChars_quoteCodeUnit.
      apply (IH (length (d :: s))); [simpl in *; lia|done].
Qed.

Lemma parseChars_QuoteJSONString s rest :
  exists body, QuoteJSONString s ++ rest = 34 :: body /\
               parseChars body = Some (s, rest).
Proof.
  exists (quoteCodePoints s ++ 34 :: rest). split.
  - unfold QuoteJSONString. simpl. by rewrite <- app_assoc.
  - apply parseChars_quoteCodePoints.
Qed.

(** *** Numbers *)

Lemma parseDigits_digitsOf d rest :
  endsNumber rest -> parseDigits (digitsOf d ++ rest) = (d, rest).
Proof.
  intros Hrest. induction d as [|d IH|d IH|d IH|d IH|d IH|d IH|d IH|d IH
                               |d IH|d IH];
    try (simpl; by rewrite IH).
  simpl. destruct rest as [|c rest]; [done|]. simpl.
  by destruct Hrest as [-> _].
Qed.

Lemma to_uint_normal n :
  N.to_uint n = Decimal.D0 Decimal.Nil \/
  (N.to_uint n <> Decimal.Nil /\ forall d, N.to_uint n <> Decimal.D0 d).
Proof.
  destruct n as [|p]; [by left|]. right.
  pose proof (DecimalN.Unsigned.of_to (Npos p)) as Hof.
  pose proof (DecimalN.Unsigned.to_of (N.to_uint (Npos p))) as Hto.
  rewrite Hof in Hto. split.
  - intros Hnil. by rewrite Hnil in Hof.
  - intros d Hd. rewrite Hd in Hto, Hof. unfold Decimal.unorm in Hto.
    rewrite DecimalFacts.nzhead_D0 in Hto.
    destruct (Decimal.nzhead d) eqn:Hnz.
    + injection Hto as ->. by vm_compute in Hof.
    + rewrite <- Hnz in Hto. symmetry in Hto.
      by apply DecimalFacts.nzhead_nonzero in Hto.
    + done. + done. + done. + done. + done. + done. + done. + done. + done.
Qed.

Lemma continuesNumber_endsNumber rest :
  endsNumber rest -> continuesNumber rest = false.
Proof. destruct rest; [done|]. by intros [_ ?]. Qed.

Lemma parseNumber_numberToString n rest :
  endsNumber rest ->
  parseNumber (numberToString n ++ rest) = Some (JNumber n, rest).
Proof.
  intros Hrest. unfold parseNumber, numberToString.
  rewrite parseDigits_digitsOf by done.
  rewrite continuesNumber_endsNumber by done.
  destruct (to_uint_normal n) as [Hz|[Hnil Hd0]].
  - rewrite Hz. f_equal. f_equal. f_equal.
    rewrite <- (DecimalN.Unsigned.of_to n), Hz. done.
  - pose proof (DecimalN.Unsigned.of_to n) as Hof.
    destruct (N.to_uint n) as [|d|d|d|d|d|d|d|d|d|d] eqn:E;
      try (by rewrite Hof); [done|]. by destruct (Hd0 d).
Qed.

(** *** White space and the first character of a value *)

Lemma skipWhitespace_indentation n s :
  skipWhitespace (indentation n ++ s) = skipWhitespace s.
Proof. unfold indentation. by induction (2 * n)%nat. Qed.

Lemma skipWhitespace_newline n s :
  skipWhitespace (10 :: indentation n ++ s) = skipWhitespace s.
Proof. simpl. apply skipWhitespace_indentation. Qed.

Lemma skipWhitespace_start c s :
  isWhitespace c = false -> skipWhitespace (c :: s) = c :: s.
Proof. intros H. simpl. by rewrite H. Qed.

Lemma parseValue_skipWhitespace f s s' :
  skipWhitespace s = skipWhitespace s' -> parseValue f s = parseValue f s'.
Proof. intros H. destruct f; [done|]. simpl. by rewrite H. Qed.

Lemma parseElements_skipWhitespace f s s' :
  skipWhitespace s = skipWhitespace s' ->
  parseElements f s = parseElements f s'.
Proof.
  intros H. destruct f; [done|]. simpl.
  by rewrite (parseValue_skipWhitespace f s s' H).
Qed.

Lemma parseMembers_skipWhitespace f s s' :
  skipWhitespace s = skipWhitespace s' ->
  parseMembers f s = parseMembers f s'.
Proof. intros H. destruct f; [done|]. simpl. by rewrite H. Qed.

Lemma startsValue_not_whitespace c : startsValue c -> isWhitespace c = false.
Proof.
  unfold startsValue, isWhitespace. intros H.
  rewrite !orb_false_iff, !N.eqb_neq. lia.
Qed.

Lemma numberToString_head n :
  exists c t, numberToString n = c :: t /\ 48 <= c <= 57.
Proof.
  unfold numberToString.
  destruct (to_uint_normal n) as [->|[Hnil _]]; [by eexists _, _|].
  destruct (N.to_uint n); [done|..]; simpl; eexists _, _;
    (split; [reflexivity|lia]).
Qed.

Lemma serialize_head depth v :
  exists c t, SerializeJSONProperty depth v = c :: t /\ startsValue c.
Proof.
  unfold startsValue. destruct v as [|[|]|n|s|vs|ms]; simpl.
  - exists 110, (js "ull"). split; [reflexivity|]. lia.
  - exists 116, (js "rue"). split; [reflexivity|]. lia.
  - exists 102, (js "alse"). split; [reflexivity|]. lia.
  - destruct (numberToString_head n) as (c & t & -> & Hc).
    eexists _, _. split; [reflexivity|]. lia.
  - eexists _, _. split; [reflexivity|]. lia.
  - destruct vs; simpl; eexists _, _; (split; [reflexivity|lia]).
  - destruct ms; simpl; eexists _, _; (split; [reflexivity|lia]).
Qed.

(** *** Induction on values *)

(** Induction on a value and, in arrays and objects, on what it holds. *)
Lemma value_ind_nested (P : value -> Prop) :
  P JNull -> (forall b, P (JBool b)) -> (forall n, P (JNumber n)) ->
  (forall s, P (JString s)) ->
  (forall vs, Forall P vs -> P (JArray vs)) ->
  (forall ms, Forall (fun m => P (snd m)) ms -> P (JObject ms)) ->
  forall v, P v.
Proof.
  intros Hnull Hbool Hnum Hstr Harr Hobj. fix IH 1.
  intros [|b|n|s|vs|ms].
  - exact Hnull.
  - apply Hbool.
  - apply Hnum.
  - apply Hstr.
  - apply Harr. induction vs as [|v vs IHvs]; constructor;
      [apply IH|exact IHvs].
  - apply Hobj. induction ms as [|[k v] ms IHms]; constructor;
      [apply IH|exact IHms].
Qed.

(** *** One step of each parser *)

Lemma parseValue_string f s body :
  skipWhitespace s = 34 :: body ->
  parseValue (S f) s
  = match parseChars body with
    | Some (str, r) => Some (JString str, r)
    | None => None
    end.
Proof. intros H. simpl. by rewrite H. Qed.

Lemma parseValue_array f s s' :
  skipWhitespace s = 91 :: s' ->
  parseValue (S f) s
  = match skipWhitespace s' with
    | c' :: r =>
        if c' =? 93 then Some (JArray [], r)
        else match parseElements f s' with
             | Some (vs, r') => Some (JArray vs, r')
             | None => None
             end
    | [] => None
    end.
Proof. intros H. simpl. by rewrite H. Qed.

Lemma parseValue_object f s s' :
  skipWhitespace s = 123 :: s' ->
  parseValue (S f) s
  = match skipWhitespace s' with
    | c' :: r =>
        if c' =? 125 then Some (JObject [], r)
        else match parseMembers f s' with
             | Some (ms, r') => Some (JObject ms, r')
             | None => None
             end
    | [] => None
    end.
Proof. intros H. simpl. by rewrite H. Qed.

Lemma parseValue_number f s c s' :
  skipWhitespace s = c :: s' -> 48 <= c <= 57 ->
  parseValue (S f) s = parseNumber (c :: s').
Proof.
  intros H Hc. simpl. rewrite H.
  destruct (N.eqb_spec c 34); [lia|]. destruct (N.eqb_spec c 91); [lia|].
  destruct (N.eqb_spec c 123); [lia|]. destruct (N.eqb_spec c 110); [lia|].
  destruct (N.eqb_spec c 116); [lia|]. destruct (N.eqb_spec c 102); [lia|].
  done.
Qed.

Lemma parseElements_S f s :
  parseElements (S f) s
  = match parseValue f s with
    | None => None
    | Some (v, r) =>
        match skipWhitespace r with
        | c :: r' =>
            if c =? 44 then
              match parseElements f r' with
              | Some (vs, r'') => Some (v :: vs, r'')
              | None => None
              end
            else if c =? 93 then Some ([v], r')
            else None
        | [] => None
        end
    end.
Proof. reflexivity. Qed.

Lemma parseMembers_S f s body :
  skipWhitespace s = 34 :: body ->
  parseMembers (S f) s
  = match parseChars body with
    | None => None
    | Some (key, r) =>
        match skipWhitespace r with
        | c' :: r' =>
            if c' =? 58 then
              match parseValue f r' with
              | None => None
              | Some (v, r'') =>
                  match skipWhitespace r'' with
                  | c'' :: r3 =>
                      if c'' =? 44 then
                        match parseMembers f r3 with
                        | Some (ms, r4) => Some ((key, v) :: ms, r4)
                        | None => None
                        end
                      else if c'' =? 125 then Some ([(key, v)], r3)
                      else None
                  | [] => None
                  end
              end
            else None
        | [] => None
        end
    end.
Proof. intros H. simpl. by rewrite H. Qed.

(** *** The round trip of a value *)

Lemma parseElements_joinItems vs :
  Forall Roundtrips vs -> vs <> [] ->
  forall depth closing rest fuel,
    (list_sum (map (fun v' => S (size v')) vs) <= fuel)%nat ->
    parseElements fuel
      (10 :: indentation depth
       ++ joinItems depth (map (SerializeJSONProperty depth) vs)
       ++ 10 :: indentation closing ++ 93 :: rest)
    = Some (vs, rest).
Proof.
  induction 1 as [|v vs Hv Hvs IH]; [done|]. intros _ depth closing rest fuel.
  destruct fuel as [|f]; [simpl; lia|]. intros Hfuel.
  rewrite parseElements_S.
  rewrite (parseValue_skipWhitespace f _ _ (skipWhitespace_newline depth _)).
  destruct vs as [|v2 vs].
  - change (joinItems depth (map (SerializeJSONProperty depth) [v]))
      with (SerializeJSONProperty depth v).
    rewrite Hv; [|done|simpl in Hfuel; lia].
    rewrite skipWhitespace_newline. by rewrite skipWhitespace_start.
  - change (joinItems depth (map (SerializeJSONProperty depth) (v :: v2 :: vs)))
      with (SerializeJSONProperty depth v ++ [44; 10] ++ indentation depth
            ++ joinItems depth (map (SerializeJSONProperty depth) (v2 :: vs))).
    rewrite <- !app_assoc. rewrite Hv; [|done|simpl in *; lia].
    cbn [app]. rewrite skipWhitespace_start by done.
    change (44 =? 44) with true. cbv iota.
    rewrite (IH ltac:(done) depth closing rest f); [done|].
    simpl in *. lia.
Qed.

Lemma parseMembers_joinItems ms :
  Forall (fun m => Roundtrips (snd m)) ms -> ms <> [] ->
  forall depth closing rest fuel,
    (list_sum (map (fun m => S (size (snd m))) ms) <= fuel)%nat ->
    parseMembers fuel
      (10 :: indentation depth
       ++ joinItems depth
            (map (fun m => QuoteJSONString (fst m) ++ [58; 32]
                           ++ SerializeJSONProperty depth (snd m)) ms)
       ++ 10 :: indentation closing ++ 125 :: rest)
    = Some (ms, rest).
Proof.
  induction 1 as [|[k v] ms Hv Hms IH]; [done|].
  intros _ depth closing rest fuel.
  destruct fuel as [|f]; [simpl; lia|]. intros Hfuel.
  rewrite (parseMembers_skipWhitespace (S f) _ _
             (skipWhitespace_newline depth _)).
  simpl in Hv.
  destruct ms as [|m2 ms].
  - change (joinItems depth (map _ [(k, v)]))
      with (QuoteJSONString k ++ [58; 32] ++ SerializeJSONProperty depth v).
    rewrite <- !app_assoc.
    destruct (parseChars_QuoteJSONString k
      ([58; 32] ++ SerializeJSONProperty depth v
       ++ 10 :: indentation closing ++ 125 :: rest)) as (body & -> & Hbody).
    rewrite (parseMembers_S f _ body) by done.
    rewrite Hbody. cbn [app]. rewrite skipWhitespace_start by done.
    change (58 =? 58) with true. cbv iota.
    rewrite (parseValue_skipWhitespace f
      (32 :: SerializeJSONProperty depth v
         ++ 10 :: indentation closing ++ 125 :: rest)
      (SerializeJSONProperty depth v
         ++ 10 :: indentation closing ++ 125 :: rest)) by done.
    rewrite Hv; [|done|simpl in Hfuel; lia].
    rewrite skipWhitespace_newline. by rewrite skipWhitespace_start.
  - change (joinItems depth (map ?F ((k, v) :: m2 :: ms)))
      with ((QuoteJSONString k ++ [58; 32] ++ SerializeJSONProperty depth v)
            ++ [44; 10] ++ indentation depth
            ++ joinItems depth
                 (map (fun m => QuoteJSONString (fst m) ++ [58; 32]
                          ++ SerializeJSONProperty depth (snd m)) (m2 :: ms))).
    rewrite <- !app_assoc.
    set (tail := joinItems depth _ ++ _).
    destruct (parseChars_QuoteJSONString k
      ([58; 32] ++ SerializeJSONProperty depth v
       ++ [44; 10] ++ indentation depth ++ tail)) as (body & -> & Hbody).
    rewrite (parseMembers_S f _ body) by done.
    rewrite Hbody. cbn [app]. rewrite skipWhitespace_start by done.
    change (58 =? 58) with true. cbv iota.
    rewrite (parseValue_skipWhitespace f
      (32 :: SerializeJSONProperty depth v
         ++ 44 :: 10 :: indentation depth ++ tail)
      (SerializeJSONProperty depth v
         ++ 44 :: 10 :: indentation depth ++ tail)) by done.
    rewrite Hv; [|done|simpl in *; lia].
    rewrite skipWhitespace_start by done.
    change (44 =? 44) with true. cbv iota. subst tail.
    rewrite (IH ltac:(done) depth closing rest f); [done|].
    simpl in *. lia.
Qed.

(** Every value is read back from its serialization. *)
Lemma parseValue_serialize v : Roundtrips v.
Proof.
  induction v as [|b|n|s|vs IH|ms IH] using value_ind_nested;
    intros depth rest fuel Hrest Hfuel;
    (destruct fuel as [|f]; [simpl in Hfuel; lia|]).
  - reflexivity.
  - by destruct b.
  - destruct (numberToString_head n) as (c & t & Hn & Hc).
    change (SerializeJSONProperty depth (JNumber n)) with (numberToString n).
    rewrite (parseValue_number f _ c (t ++ rest)).
    + change (c :: t ++ rest) with ((c :: t) ++ rest). rewrite <- Hn.
      by apply parseNumber_numberToString.
    + rewrite Hn. apply skipWhitespace_start.
      unfold isWhitespace. rewrite !orb_false_iff, !N.eqb_neq. lia.
    + done.
  - change (SerializeJSONProperty depth (JString s)) with (QuoteJSONString s).
    destruct (parseChars_QuoteJSONString s rest) as (body & -> & Hbody).
    rewrite (parseValue_string f _ body) by done. by rewrite Hbody.
  - destruct vs as [|v vs].
    + reflexivity.
    + change (SerializeJSONProperty depth (JArray (v :: vs)))
        with ([91; 10] ++ indentation (S depth)
              ++ joinItems (S depth)
                   (map (SerializeJSONProperty (S depth)) (v :: vs))
              ++ [10] ++ indentation depth ++ [93]).
      rewrite <- !app_assoc. cbn [app].
      rewrite (parseValue_array f _ _ (skipWhitespace_start 91 _ eq_refl)).
      rewrite skipWhitespace_newline.
      destruct (serialize_head (S depth) v) as (c & t & Hc & Hstart).
      assert (exists t', joinItems (S depth)
                (map (SerializeJSONProperty (S depth)) (v :: vs)) = c :: t')
        as [t' Ht'].
      { destruct vs as [|v2 vs'].
        - exists t. exact Hc.
        - eexists. cbn [map joinItems]. rewrite Hc. reflexivity. }
      assert (forall tail,
                skipWhitespace
                  (joinItems (S depth)
                     (map (SerializeJSONProperty (S depth)) (v :: vs))
                   ++ tail) = c :: t' ++ tail) as Hskip.
      { intros tail. rewrite Ht'. cbn [app].
        by apply skipWhitespace_start, startsValue_not_whitespace. }
      clear Ht'. rename Hskip into Ht'.
      rewrite Ht'.
      destruct (N.eqb_spec c 93) as [->|_];
        [unfold startsValue in Hstart; lia|].
      rewrite (parseElements_joinItems (v :: vs) IH ltac:(done)); [done|].
      simpl in *. lia.
  - destruct ms as [|[k v] ms].
    + reflexivity.
    + change (SerializeJSONProperty depth (JObject ((k, v) :: ms)))
        with ([123; 10] ++ indentation (S depth)
              ++ joinItems (S depth)
                   (map (fun m => QuoteJSONString (fst m) ++ [58; 32]
                            ++ SerializeJSONProperty (S depth) (snd m))
                      ((k, v) :: ms))
              ++ [10] ++ indentation depth ++ [125]).
      rewrite <- !app_assoc. cbn [app].
      rewrite (parseValue_object f _ _ (skipWhitespace_start 123 _ eq_refl)).
      rewrite skipWhitespace_newline.
      assert (exists t', joinItems (S depth)
                (map (fun m => QuoteJSONString (fst m) ++ [58; 32]
                         ++ SerializeJSONProperty (S depth) (snd m))
                   ((k, v) :: ms)) = 34 :: t') as [t' Ht'].
      { destruct ms as [|m2 ms']; eexists; cbn [map joinItems fst snd];
          unfold QuoteJSONString; reflexivity. }
      assert (forall tail,
                skipWhitespace
                  (joinItems (S depth)
                     (map (fun m => QuoteJSONString (fst m) ++ [58; 32]
                              ++ SerializeJSONProperty (S depth) (snd m))
                        ((k, v) :: ms))
                   ++ tail) = 34 :: t' ++ tail) as Hskip.
      { intros tail. rewrite Ht'. reflexivity. }
      clear Ht'. rename Hskip into Ht'.
      rewrite Ht'.
      change (34 =? 125) with false. cbv iota.
      rewrite (parseMembers_joinItems ((k, v) :: ms) IH ltac:(done));
        [done|].
      simpl in *. lia.
Qed.

(** *** Enough fuel *)

Lemma joinItems_length {X} (f : X -> list N) (g : X -> nat) depth xs :
  Forall (fun x => (g x <= length (f x))%nat) xs -> xs <> [] ->
  (list_sum (map (fun x => S (g x)) xs)
   <= length (joinItems depth (map f xs)) + 1)%nat.
Proof.
  induction 1 as [|x xs Hx Hxs IH]; [done|]. intros _.
  destruct xs as [|x2 xs]; [simpl in *; lia|].
  change (joinItems depth (map f (x :: x2 :: xs)))
    with (f x ++ [44; 10] ++ indentation depth
          ++ joinItems depth (map f (x2 :: xs))).
  specialize (IH ltac:(done)).
  change (list_sum (map (fun x0 => S (g x0)) (x :: x2 :: xs)))
    with (S (g x) + list_sum (map (fun x0 => S (g x0)) (x2 :: xs)))%nat.
  set (J := joinItems depth (map f (x2 :: xs))) in *.
  set (total := list_sum _) in *.
  rewrite !length_app. cbn [length]. lia.
Qed.

Lemma size_le_length v depth :
  (size v <= length (SerializeJSONProperty depth v))%nat.
Proof.
  revert depth.
  induction v as [|b|n|s|vs IH|ms IH] using value_ind_nested; intros depth.
  - simpl. lia.
  - destruct b; simpl; lia.
  - destruct (numberToString_head n) as (c & t & Hn & _).
    change (SerializeJSONProperty depth (JNumber n)) with (numberToString n).
    rewrite Hn. simpl. lia.
  - simpl. lia.
  - destruct vs as [|v vs]; [simpl; lia|].
    change (SerializeJSONProperty depth (JArray (v :: vs)))
      with ([91; 10] ++ indentation (S depth)
            ++ joinItems (S depth)
                 (map (SerializeJSONProperty (S depth)) (v :: vs))
            ++ [10] ++ indentation depth ++ [93]).
    pose proof (joinItems_length (SerializeJSONProperty (S depth)) size
                  (S depth) (v :: vs)) as Hlen.
    change (size (JArray (v :: vs)))
      with (S (list_sum (map (fun v' => S (size v')) (v :: vs)))).
    set (J := joinItems _ _) in *. set (total := list_sum _) in *.
    rewrite !length_app. cbn [length].
    assert (Forall (fun x => (size x <= length (SerializeJSONProperty (S depth) x))%nat)
              (v :: vs)) as Hall.
    { eapply Forall_impl; [exact IH|]. intros x Hx. apply Hx. }
    specialize (Hlen Hall ltac:(done)). lia.
  - destruct ms as [|[k v] ms]; [simpl; lia|].
    change (SerializeJSONProperty depth (JObject ((k, v) :: ms)))
      with ([123; 10] ++ indentation (S depth)
            ++ joinItems (S depth)
                 (map (fun m => QuoteJSONString (fst m) ++ [58; 32]
                          ++ SerializeJSONProperty (S depth) (snd m))
                    ((k, v) :: ms))
            ++ [10] ++ indentation depth ++ [125]).
    pose proof (joinItems_length
      (fun m : JSString * value =>
         QuoteJSONString (fst m) ++ [58; 32]
         ++ SerializeJSONProperty (S depth) (snd m))
      (fun m => size (snd m)) (S depth) ((k, v) :: ms)) as Hlen.
    change (size (JObject ((k, v) :: ms)))
      with (S (list_sum (map (fun m => S (size (snd m))) ((k, v) :: ms)))).
    set (J := joinItems _ _) in *. set (total := list_sum _) in *.
    rewrite !length_app. cbn [length].
    assert (Forall (fun m : JSString * value =>
              (size (snd m)
               <= length (QuoteJSONString (fst m) ++ [58%N; 32%N]
                          ++ SerializeJSONProperty (S depth) (snd m)))%nat)
              ((k, v) :: ms)) as Hall.
    { eapply Forall_impl; [exact IH|]. intros m Hm.
      rewrite !length_app. specialize (Hm (S depth)). lia. }
    specialize (Hlen Hall ltac:(done)). lia.
Qed.

(** [JSON.parse] undoes [JSON.stringify], on every value. *)
Lemma parse_stringify v : parse (stringify v) = Some v.
Proof.
  unfold parse, stringify.
  pose proof (parseValue_serialize v 0%nat []
                (S (length (SerializeJSONProperty 0 v))) I) as H.
  rewrite app_nil_r in H. rewrite H; [done|].
  pose proof (size_le_length v 0%nat). lia.
Qed.

(** *** A payload read back *)

Lemma candidateOfJSON_candidateToJSON c :
  candidateOfJSON (candidateToJSON c) = Some c.
Proof. by destruct c as [cand [mid|] [index|] [ufrag|]]. Qed.

Lemma mapM_candidateOfJSON cs :
  mapM candidateOfJSON (map candidateToJSON cs) = Some cs.
Proof.
  induction cs as [|c cs IH]; [done|].
  change (map candidateToJSON (c :: cs))
    with (candidateToJSON c :: map candidateToJSON cs).
  cbn [mapM]. rewrite candidateOfJSON_candidateToJSON. simpl.
  by rewrite IH.
Qed.

Lemma ofJSON_toJSON p : ofJSON (toJSON p) = Some p.
Proof.
  destruct p as [t d cs]. unfold ofJSON, toJSON.
  change (get (js "type") (JObject ?ms)) with (getMember (js "type") ms).
  destruct t; vm_compute get; simpl; rewrite mapM_candidateOfJSON; done.
Qed.
End JSONFacts.

(** C9.  The text [JSON.stringify(data, null, 2)] makes of a payload is
    parsed back by [JSON.parse] to the value that was serialized, and that
    value read as a payload is the payload: the same kind, the same
    description string, and the same candidates in the same order.  So
    what one peer copies, offer or answer, is what the other submits. *)
Theorem signaling_text_roundtrip (data : SignalingData) :
  JSON.parse (JSON.stringify (JSON.toJSON data)) = Some (JSON.toJSON data) /\
  (handleCopyOffer (Some data) ≫= handleSubmitOffer) = Some data /\
  (handleCopyAnswer (Some data) ≫= handleSubmitAnswer) = Some data.
Proof.
  assert (JSON.parse (signalingText data) ≫= JSON.ofJSON = Some data) as H.
  { unfold signalingText. rewrite JSONFacts.parse_stringify.
    apply JSONFacts.ofJSON_toJSON. }
  split; [apply JSONFacts.parse_stringify|]. by split.
Qed.

(** A payload with a line break, a quote, a backslash, a surrogate pair, a
    surrogate on its own and a control character in its description, and
    an empty candidate. *)
Example payload_with_awkward_strings :
  handleSubmitAnswer
    (signalingText
       {| type := answer;
          sdp := [118; 61; 48; 13; 10; 34; 92; 55357; 56832; 56832; 7]%N;
          iceCandidates :=
            [hostCandidate;
             {| candidate := []; sdpMid := None; sdpMLineIndex := Some 65535%N;
                usernameFragment := None |}] |})
  = Some
      {| type := answer;
         sdp := [118; 61; 48; 13; 10; 34; 92; 55357; 56832; 56832; 7]%N;
         iceCandidates :=
           [hostCandidate;
            {| candidate := []; sdpMid := None; sdpMLineIndex := Some 65535%N;
               usernameFragment := None |}] |}.
Proof. vm_compute. reflexivity. Qed.

(** The text of an offer without candidates, as the text area shows it:
    three members on a line each, indented by two spaces. *)
Example copied_text :
  signalingText {| type := offer; sdp := js "v=0"; iceCandidates := [] |}
  = [123; 10; 32; 32; 34; 116; 121; 112; 101; 34; 58; 32; 34; 111; 102; 102;
     101; 114; 34; 44; 10; 32; 32; 34; 115; 100; 112; 34; 58; 32; 34; 118; 61;
     48; 34; 44; 10; 32; 32; 34; 105; 99; 101; 67; 97; 110; 100; 105; 100; 97;
     116; 101; 115; 34; 58; 32; 91; 93; 10; 125]%N.
Proof. vm_compute. reflexivity. Qed.

(** ** Further properties of the negotiation functions *)

Section MoreTransportErrors.
Variable R : Response -> Prop.
Variable I : World -> Prop.
Hypothesis I_ref : forall w, I w -> peerConnectionRef (hook w) <> None.
Hypothesis I_settle : forall c rsp w, I w -> I (settle c rsp w).1.





End MoreTransportErrors.







(** ** Invariants of every reachable world *)

(** An invariant of the hook: true before mount, kept by the lifecycle
    calls and the tasks, and at every idle moment of the negotiation
    functions. *)
Lemma Reachable_invariant (I : World -> Prop) :
  I initialWorld ->
  (forall c w, I w -> I (lifecycle c w)) ->
  (forall t w, I w -> I (runTask t w)) ->
  (forall w, I w -> Safe I (createOffer w)) ->
  (forall p w, I w -> Safe I (handleAnswer p w)) ->
  (forall p w, I w -> Safe I (createAnswer p w)) ->
  (forall p w, I w -> Safe I (handleOffer p w)) ->
  forall w, Reachable w -> I w.
Proof.
  intros H0 Hlife Htask Hco Hha Hca Hho.
  assert (forall A (m : Async A) o w v,
    Safe I (m w) -> v ∈ visited (run m o w) -> I v) as Hrun.
  { intros A m o w v Hsafe Hv.
    destruct (exec_Safe I o (m w) 0) as [Hall _]; [|done|].
    - intros j t w' _. apply Htask.
    - rewrite Forall_forall in Hall. by apply Hall. }
  induction 1 as [|c w _ IH|t w _ IH|o w v _ IH Hv|p o w v _ IH Hv
                 |p o w v _ IH Hv|p o w v _ IH Hv].
  - done.
  - by apply Hlife.
  - by apply Htask.
  - eapply Hrun; [|exact Hv]. by apply Hco.
  - eapply Hrun; [|exact Hv]. by apply Hha.
  - eapply Hrun; [|exact Hv]. by apply Hca.
  - eapply Hrun; [|exact Hv]. by apply Hho.
Qed.

(** The same, for an invariant that no write of a negotiation function
    can break. *)
Lemma Reachable_invariant_cells (I : World -> Prop) :
  I initialWorld ->
  (forall c w, I w -> I (lifecycle c w)) ->
  (forall t w, I w -> I (runTask t w)) ->
  (forall c rsp w, I w -> I (settle c rsp w).1) ->
  (forall w l, I w -> I (setIceCandidatesRef l w)) ->
  (forall w b, I w -> I (setIsCreatingAnswerRef b w)) ->
  (forall w b, I w -> I (setIsActivelyConnectingRef b w)) ->
  (forall w b, I w -> I (setIsConnecting b w)) ->
  forall w, Reachable w -> I w.
Proof.
  intros H0 Hlife Htask Hsettle Hc Hca Hac Hcn.
  apply Reachable_invariant; [done|done|done|..].
  - intros w. by apply createOffer_Safe.
  - intros p w. by apply handleAnswer_Safe.
  - intros p w. by apply createAnswer_Safe.
  - intros p w. by apply handleOffer_Safe.
Qed.

Lemma alter_RefOpen f h w :
  (forall pc, pc_closed (f pc) = pc_closed pc) ->
  RefOpen w -> RefOpen (setPcs (alter f h (pcs w)) w).
Proof.
  intros Hf Hw h' Href. destruct (Hw h' Href) as (pc & Hpc & Hopen).
  simpl. destruct (decide (h = h')) as [->|Hne].
  - exists (f pc). rewrite list_lookup_alter_eq, Hpc. by rewrite Hf.
  - exists pc. by rewrite list_lookup_alter_ne.
Qed.

Lemma settle_RefOpen c rsp w : RefOpen w -> RefOpen (settle c rsp w).1.
Proof.
  intros Hw. destruct c; simpl; try done; destruct (reply rsp); try done;
    by apply (alter_RefOpen _ _ (setNow _ w)).
Qed.

Lemma initializePeerConnection_RefOpen w : RefOpen (initializePeerConnection w).
Proof.
  intros h Href. exists newPeerConnection.
  unfold initializePeerConnection, construct in *. simpl in *.
  injection Href as <-. split; [|done].
  rewrite lookup_app_r by lia. by rewrite Nat.sub_diag.
Qed.

Lemma resetConnection_RefOpen w : RefOpen (resetConnection w).
Proof. unfold resetConnection. apply initializePeerConnection_RefOpen. Qed.

Lemma runTask_RefOpen t w : RefOpen w -> RefOpen (runTask t w).
Proof.
  intros Hw. destruct t as [h st|h s|h c|h st|h st|].
  - simpl. unfold onconnectionstatechange.
    pose proof (alter_RefOpen (withConnectionState st) h w
                  ltac:(done) Hw) as Hw'.
    destruct (_ !! h); [|done]. simpl.
    destruct (_ && _); [done|]. by destruct (_ || _).
  - simpl. by destruct (pcs w !! h).
  - simpl. destruct (pcs w !! h); [|done]. by destruct c.
  - by apply alter_RefOpen.
  - by apply alter_RefOpen.
  - apply resetConnection_RefOpen.
Qed.

Lemma Reachable_RefOpen w : Reachable w -> RefOpen w.
Proof.
  apply Reachable_invariant_cells; try done.
  - intros c w' _. destruct c;
      [apply initializePeerConnection_RefOpen|apply resetConnection_RefOpen].
  - intros t w'. apply runTask_RefOpen.
  - intros c rsp w'. apply settle_RefOpen.
Qed.

(** X2.  From the mount on, the ref never dangles.  In every world the
    hook can be in once the ref holds a connection (after any calls, any
    events, at any idle moment of a negotiation function), that
    connection is in the store and open, and it is the only open one:
    exactly one connection is open and none has leaked. *)
Theorem mounted_hook_has_one_open_connection (w : World) :
  Reachable w -> RefSet w ->
  CurrentOpen w /\ openHandles w = 1 /\ leakedHandles w = 0.
Proof.
  intros Hw Href.
  assert (CurrentOpen w) as Hcur.
  { unfold RefSet in Href.
    destruct (peerConnectionRef (hook w)) as [h|] eqn:Hh; [|done].
    destruct (Reachable_RefOpen w Hw h Hh) as (pc & Hpc & Hopen).
    by exists h, pc. }
  pose proof (Reachable_AtMostOneOpen w Hw) as Hone.
  split; [done|]. split; [|by apply AtMostOneOpen_leaked].
  pose proof (AtMostOneOpen_count w Hone) as Hle.
  destruct Hcur as (h & pc & _ & Hpc & Hopen).
  assert (pc ∈ filter (fun pc' => pc_closed pc' = false) (pcs w)) as Hin.
  { apply list_elem_of_filter. split; [done|]. by eapply list_elem_of_lookup_2. }
  unfold openHandles in *.
  destruct (filter (fun pc' => pc_closed pc' = false) (pcs w)) as [|x l];
    [by apply elem_of_nil in Hin|]. simpl in *. lia.
Qed.

Lemma mounted_hook_has_one_open_connection_witness :
  Reachable (runTask UserReset mounted) /\
  RefSet (runTask UserReset mounted) /\
  CurrentOpen (runTask UserReset mounted) /\
  openHandles (runTask UserReset mounted) = 1 /\
  leakedHandles (runTask UserReset mounted) = 0.
Proof.
  assert (Reachable (runTask UserReset mounted)) as Hr.
  { apply Reachable_task.
    exact (Reachable_lifecycle Initialize initialWorld Reachable_initial). }
  assert (RefSet (runTask UserReset mounted)) as Hs by (by vm_compute).
  split; [exact Hr|]. split; [exact Hs|].
  exact (mounted_hook_has_one_open_connection _ Hr Hs).
Defined.

Lemma onconnectionstatechange_mirrors h w :
  is_Some (pcs w !! h) -> ConnectedMirrorsState (onconnectionstatechange h w).
Proof.
  intros [pc Hpc]. unfold onconnectionstatechange, ConnectedMirrorsState.
  rewrite Hpc. simpl.
  destruct (_ && _); [done|]. by destruct (_ || _).
Qed.

Lemma resetConnection_mirrors w : ConnectedMirrorsState (resetConnection w).
Proof.
  unfold ConnectedMirrorsState, resetConnection, initializePeerConnection,
    construct. simpl. by rewrite closeCurrent_hook.
Qed.

Lemma runTask_mirrors t w :
  ConnectedMirrorsState w -> ConnectedMirrorsState (runTask t w).
Proof.
  intros Hw. destruct t as [h st|h s|h c|h st|h st|].
  - simpl. destruct (pcs w !! h) as [pc|] eqn:Hpc.
    + apply onconnectionstatechange_mirrors. simpl.
      rewrite list_lookup_alter_eq, Hpc. by eexists.
    + unfold onconnectionstatechange. simpl.
      rewrite list_lookup_alter_eq, Hpc. done.
  - simpl. by destruct (pcs w !! h).
  - simpl. destruct (pcs w !! h); [|done]. by destruct c.
  - done.
  - done.
  - apply resetConnection_mirrors.
Qed.

(** X3.  [isConnected] is never out of step with [connectionState]: in
    every reachable world, [isConnected] is true exactly when the
    published [connectionState] is 'connected'. *)
Theorem connected_flag_mirrors_state (w : World) :
  Reachable w -> ConnectedMirrorsState w.
Proof.
  apply Reachable_invariant_cells.
  - done.
  - intros [] w' Hw'; [|apply resetConnection_mirrors].
    unfold ConnectedMirrorsState, lifecycle, initializePeerConnection,
      construct in *. simpl. by rewrite closeCurrent_hook.
  - intros t w'. apply runTask_mirrors.
  - intros c rsp w'. unfold ConnectedMirrorsState. by rewrite settle_hook.
  - done.
  - done.
  - done.
  - done.
Qed.

Lemma connected_flag_mirrors_state_witness :
  Reachable (runTask (ConnectionStateChange 0 connected) mounted) /\
  ConnectedMirrorsState (runTask (ConnectionStateChange 0 connected) mounted).
Proof.
  assert (Reachable (runTask (ConnectionStateChange 0 connected) mounted))
    as Hr.
  { apply Reachable_task.
    exact (Reachable_lifecycle Initialize initialWorld Reachable_initial). }
  split; [exact Hr|]. exact (connected_flag_mirrors_state _ Hr).
Defined.

Lemma runTask_ConnectingIsActive t w :
  ConnectingIsActive w -> ConnectingIsActive (runTask t w).
Proof.
  intros Hw. destruct t as [h st|h s|h c|h st|h st|].
  - simpl. unfold onconnectionstatechange, ConnectingIsActive in *.
    destruct (_ !! h); [|done]. simpl.
    destruct (isActivelyConnectingRef (hook w)) eqn:Hact; simpl.
    + destruct (bool_decide _); simpl; [by rewrite Hact|].
      destruct (_ || _); simpl; [done|by rewrite Hact].
    + destruct (_ || _); simpl; [done|]. intros H. by apply Hw in H.
  - simpl. by destruct (pcs w !! h).
  - simpl. destruct (pcs w !! h); [|done]. by destruct c.
  - done.
  - done.
  - unfold ConnectingIsActive, runTask, resetConnection,
      initializePeerConnection, construct. simpl.
    by rewrite closeCurrent_hook.
Qed.

Lemma handleAnswer_ConnectingIsActive p w :
  ConnectingIsActive w -> Safe ConnectingIsActive (handleAnswer p w).
Proof.
  intros Hw. unfold handleAnswer.
  destruct (peerConnectionRef (hook w)) as [h|] eqn:Href;
    [|by apply Safe_throw].
  rewrite !tryCatch_modify.
  assert (forall c rsp w', ConnectingIsActive w' ->
            ConnectingIsActive (settle c rsp w').1) as Hsettle.
  { intros c rsp w'. unfold ConnectingIsActive. by rewrite settle_hook. }
  apply Safe_tryCatch.
  - repeat (first [safe_step | by auto | cbv beta]).
  - intros e w' Hw'. apply Safe_bind; [by apply Safe_modify|].
    intros _ w'' Hw''. by apply Safe_throw.
Qed.

(** X4.  The connecting status is shown only during an attempt: in every
    reachable world, [isConnecting] is true only if the "actively
    connecting" ref is true. *)
Theorem connecting_only_while_actively_connecting (w : World) :
  Reachable w -> ConnectingIsActive w.
Proof.
  assert (forall c rsp w', ConnectingIsActive w' ->
            ConnectingIsActive (settle c rsp w').1) as Hsettle.
  { intros c rsp w'. unfold ConnectingIsActive. by rewrite settle_hook. }
  apply Reachable_invariant.
  - done.
  - intros [] w' Hw';
      unfold ConnectingIsActive, lifecycle, resetConnection,
        initializePeerConnection, construct in *; simpl;
      by rewrite ?closeCurrent_hook.
  - intros t w'. apply runTask_ConnectingIsActive.
  - intros w'. by apply createOffer_Safe.
  - intros p w'. apply handleAnswer_ConnectingIsActive.
  - intros p w'. by apply createAnswer_Safe.
  - intros p w'. by apply handleOffer_Safe.
Qed.

Lemma connecting_only_while_actively_connecting_witness :
  Reachable (final (run (handleAnswer peerAnswer) failingAttempt mounted)) /\
  ConnectingIsActive
    (final (run (handleAnswer peerAnswer) failingAttempt mounted)).
Proof.
  assert (Reachable
            (final (run (handleAnswer peerAnswer) failingAttempt mounted)))
    as Hr.
  { apply (Reachable_handleAnswer peerAnswer failingAttempt mounted).
    - exact (Reachable_lifecycle Initialize initialWorld Reachable_initial).
    - vm_compute. do 4 right. left. }
  split; [exact Hr|]. exact (connecting_only_while_actively_connecting _ Hr).
Defined.

(** ** What a negotiation function leaves on the connection *)

Section FollowsRules.
Variable R : Response -> Prop.
Variable E : World -> World -> Prop.

Hypothesis E_refl : forall w, E w w.
Hypothesis E_trans : forall w1 w2 w3, E w1 w2 -> E w2 w3 -> E w1 w3.

Lemma afterTasks_rely ts w :
  (forall t w', t ∈ ts -> E w' (runTask t w')) -> E w (afterTasks ts w).
Proof using E_refl E_trans.
  revert w. induction ts as [|t ts IH]; intros w Hts; [apply E_refl|].
  simpl. apply (E_trans _ (runTask t w)).
  - apply Hts. left.
  - apply IH. intros t' w' Hin. apply Hts. by right.
Qed.

(** Soundness. *)
Lemma exec_Follows {A} (Q : World -> Outcome A -> Prop)
  (o : Oracle) (st : Step A) (i : nat) :
  (forall j, R (o j)) ->
  (forall j t w, t ∈ tasks (o j) -> E w (runTask t w)) ->
  Follows R E Q st ->
  Q (final (exec st o i)) (outcome (exec st o i)).
Proof using E_refl E_trans.
  intros HR Henv H. revert i.
  induction H as [w r HQ|w c k _ IH]; intros i; [done|].
  simpl.
  specialize (IH (o i) (afterTasks (tasks (o i)) w) (HR i)
                (afterTasks_rely _ _ (Henv i)) (S i)).
  by destruct (settle c (o i) (afterTasks (tasks (o i)) w)).
Qed.


Lemma Follows_bindStep {A B}
  (Q1 : World -> Outcome A -> Prop) (Q : World -> Outcome B -> Prop)
  (st : Step A) (f : A -> Async B) :
  Follows R E Q1 st ->
  (forall a w, Q1 w (Returned a) -> Follows R E Q (f a w)) ->
  (forall e w, Q1 w (Thrown e) -> Q w (Thrown e)) ->
  Follows R E Q (bindStep st f).
Proof using Type.
  intros H Hf He. induction H as [w r Hq|w c k _ IH]; simpl.
  - destruct r as [a|e]; [by apply Hf|]. constructor. by apply He.
  - by constructor.
Qed.

Lemma Follows_bind {A B}
  (Q1 : World -> Outcome A -> Prop) (Q : World -> Outcome B -> Prop)
  (m : Async A) (f : A -> Async B) w :
  Follows R E Q1 (m w) ->
  (forall a w', Q1 w' (Returned a) -> Follows R E Q (f a w')) ->
  (forall e w', Q1 w' (Thrown e) -> Q w' (Thrown e)) ->
  Follows R E Q (bind m f w).
Proof using Type. apply Follows_bindStep. Qed.

Lemma Follows_catchStep {A} (Q1 Q : World -> Outcome A -> Prop)
  (st : Step A) (handler : Error -> Async A) :
  Follows R E Q1 st ->
  (forall a w, Q1 w (Returned a) -> Q w (Returned a)) ->
  (forall e w, Q1 w (Thrown e) -> Follows R E Q (handler e w)) ->
  Follows R E Q (catchStep st handler).
Proof using Type.
  intros H Ha He. induction H as [w r Hq|w c k _ IH]; simpl.
  - destruct r as [a|e]; [|by apply He]. constructor. by apply Ha.
  - by constructor.
Qed.

Lemma Follows_tryCatch {A} (Q1 Q : World -> Outcome A -> Prop)
  (m : Async A) (handler : Error -> Async A) w :
  Follows R E Q1 (m w) ->
  (forall a w', Q1 w' (Returned a) -> Q w' (Returned a)) ->
  (forall e w', Q1 w' (Thrown e) -> Follows R E Q (handler e w')) ->
  Follows R E Q (tryCatch m handler w).
Proof using Type. apply Follows_catchStep. Qed.

Lemma Follows_await (Q : World -> Outcome JSString -> Prop) c w :
  (forall rsp w1, R rsp -> E w w1 ->
     Q (settle c rsp w1).1 (awaited (settle c rsp w1).2)) ->
  Follows R E Q (await c w).
Proof using Type.
  intros Hs. constructor. intros rsp w1 Hrsp Hw1.
  specialize (Hs rsp w1 Hrsp Hw1).
  destruct (settle c rsp w1).2; by constructor.
Qed.

(** The gathering wait ends normally, in a world that has what the world
    it started in had, if the tasks and the timers keep it. *)
Lemma Follows_checkIceGathering (P : World -> Prop) (polls : nat) w :
  (forall w0 w1 ms rsp, P w0 -> E w0 w1 -> P (settle (Timer ms) rsp w1).1) ->
  P w ->
  Follows R E (fun w' r => r = Returned tt /\ P w')
    (checkIceGathering polls w).
Proof using Type.
  intros Hs. revert w. induction polls as [|n IH]; intros w Hw; simpl.
  - by constructor.
  - destruct (gatheringComplete w); [by constructor|].
    constructor. intros rsp w1 _ Hw1. apply IH. by eapply Hs.
Qed.

End FollowsRules.

(** *** The events leave the negotiations alone *)

Lemma Undisturbed_refl w : Undisturbed w w.
Proof. done. Qed.

Lemma Undisturbed_trans w1 w2 w3 :
  Undisturbed w1 w2 -> Undisturbed w2 w3 -> Undisturbed w1 w3.
Proof. intros [H1 H2] [H3 H4]. split; congruence. Qed.

Lemma negotiations_alter f g h (l : list RTCPeerConnection) :
  (forall pc, negotiationOf (f pc) = g (negotiationOf pc)) ->
  negotiationOf <$> alter f h l = alter g h (negotiationOf <$> l).
Proof.
  intros Hfg. apply list_fmap_alter. apply Forall_forall.
  intros pc _. apply Hfg.
Qed.

Lemma negotiations_alter_same f h (l : list RTCPeerConnection) :
  (forall pc, negotiationOf (f pc) = negotiationOf pc) ->
  negotiationOf <$> alter f h l = negotiationOf <$> l.
Proof.
  intros Hf. rewrite (negotiations_alter f id) by done.
  by apply list_alter_id.
Qed.

Lemma onconnectionstatechange_Undisturbed h w :
  Undisturbed w (onconnectionstatechange h w).
Proof.
  unfold onconnectionstatechange. destruct (pcs w !! h); [|done]. simpl.
  destruct (_ && _); [done|]. by destruct (_ || _).
Qed.

Lemma runTask_Undisturbed t w :
  t <> UserReset -> Undisturbed w (runTask t w).
Proof.
  intros Ht. destruct t as [h st|h s|h c|h st|h st|]; [..|done].
  - simpl. eapply Undisturbed_trans;
      [|apply onconnectionstatechange_Undisturbed].
    split; [done|]. by apply negotiations_alter_same.
  - simpl. by destruct (pcs w !! h).
  - simpl. destruct (pcs w !! h); [|done]. by destruct c.
  - split; [done|]. by apply negotiations_alter_same.
  - split; [done|]. by apply negotiations_alter_same.
Qed.

Lemma NoReset_Undisturbed o :
  NoReset o ->
  forall j t w, t ∈ tasks (o j) -> Undisturbed w (runTask t w).
Proof.
  intros Hno j t w Hin. apply runTask_Undisturbed. intros ->.
  by apply (Hno j).
Qed.

Lemma Negotiated_Undisturbed h ns w w1 :
  Negotiated h ns w -> Undisturbed w w1 -> Negotiated h ns w1.
Proof. intros [H1 H2] [H3 H4]. split; congruence. Qed.

(** What the end of a suspension does to the negotiations. *)
Lemma settle_Negotiated h ns c rsp w :
  Negotiated h ns w ->
  Negotiated h
    (match c, reply rsp with
     | Timer _, _ => ns
     | _, Resolved _ => committed c ns
     | _, Rejected _ => ns
     end)
    (settle c rsp w).1.
Proof.
  intros [Href <-]. unfold Negotiated. rewrite settle_hook.
  split; [done|]. unfold negotiations.
  destruct c; simpl; destruct (reply rsp); simpl; try done;
    by apply negotiations_alter.
Qed.

(** An awaited promise of a connection: resolved, it has added what it
    commits; rejected, it has added nothing and the rejection is thrown. *)
Lemma Follows_await_Negotiated o h ns c w :
  (forall ms, c <> Timer ms) ->
  Negotiated h ns w ->
  Follows (ResponseOf o) Undisturbed
    (fun w' r =>
       match r with
       | Returned _ => Negotiated h (committed c ns) w'
       | Thrown e => RejectedBy o e /\ Negotiated h ns w'
       end)
    (await c w).
Proof.
  intros Hc Hw. apply Follows_await. intros rsp w1 [j ->] Hw1.
  pose proof (settle_Negotiated h ns c (o j) w1
                (Negotiated_Undisturbed _ _ _ _ Hw Hw1)) as Hs.
  destruct c; try (by destruct (Hc ms)); simpl in *;
    destruct (reply (o j)) eqn:Hr; simpl in *; try done;
    (split; [by exists j, e|done]).
Qed.

Lemma Follows_currentPc_Negotiated R E h ns w :
  Negotiated h ns w ->
  Follows R E (fun w' r => r = Returned h /\ Negotiated h ns w')
    (currentPc w).
Proof.
  intros Hw. unfold currentPc. rewrite (proj1 Hw). by constructor.
Qed.

Lemma Follows_awaitGatheringSettled_Negotiated R h ns w :
  Negotiated h ns w ->
  Follows R Undisturbed (fun w' r => r = Returned tt /\ Negotiated h ns w')
    (awaitGatheringSettled w).
Proof.
  intros Hw. apply Follows_checkIceGathering; [|done].
  intros w0 w1 ms rsp Hw0 Hw1.
  apply (settle_Negotiated h ns (Timer ms) rsp w1).
  by eapply Negotiated_Undisturbed.
Qed.

(** X5.  What [createOffer] leaves on the connection.  Take a run in
    which the user does not reset, with the connection [h] in the ref.
    If it returns a payload, the payload is an offer whose [sdp] is the
    local description of [h], its candidates are the accumulator at that
    moment, and nothing else has been negotiated on any connection.  If it
    throws, the error is a rejection the browser gave and nothing has been
    negotiated at all.  When the browser resolves every promise it
    returns, whether or not gathering ever completes. *)
Theorem createOffer_sets_local_description
  (w : World) (h : nat) (o : Oracle) :
  peerConnectionRef (hook w) = Some h -> NoReset o ->
  let r := run createOffer o w in
  match outcome r with
  | Returned p =>
      type p = offer /\
      negotiations (final r)
      = alter (withLocal (offer, sdp p)) h (negotiations w) /\
      iceCandidates p = iceCandidatesRef (hook (final r))
  | Thrown e => RejectedBy o e /\ negotiations (final r) = negotiations w
  end /\
  ((forall j, Resolves (o j)) -> exists p, outcome r = Returned p).
Proof.
  intros Href Hno r.
  set (ns := negotiations w).
  assert (match outcome r with
          | Returned p =>
              type p = offer /\
              Negotiated h (alter (withLocal (offer, sdp p)) h ns) (final r) /\
              iceCandidates p = iceCandidatesRef (hook (final r))
          | Thrown e => RejectedBy o e /\ Negotiated h ns (final r)
          end) as Hmain.
  { subst r. unfold run.
    apply (exec_Follows (ResponseOf o) Undisturbed Undisturbed_refl
             Undisturbed_trans
             (fun w' r' =>
                match r' with
                | Returned p =>
                    type p = offer /\
                    Negotiated h (alter (withLocal (offer, sdp p)) h ns) w' /\
                    iceCandidates p = iceCandidatesRef (hook w')
                | Thrown e => RejectedBy o e /\ Negotiated h ns w'
                end)).
    - intros j. by exists j.
    - by apply NoReset_Undisturbed.
    - unfold createOffer. rewrite Href.
      match goal with |- Follows _ _ ?Q _ =>
        apply (Follows_tryCatch _ _ Q Q) end.
      2: { by intros a w' H. }
      2: { intros e w' H. by constructor. }
      apply (Follows_bind _ _
               (fun w' r' => r' = Returned tt /\ Negotiated h ns w')).
      { by constructor. }
      2: { by intros e w' [? _]. }
      intros _ w0 [_ Hw0].
      apply (Follows_bind _ _
               (fun w' r' => r' = Returned h /\ Negotiated h ns w')).
      { by apply Follows_currentPc_Negotiated. }
      2: { by intros e w' [? _]. }
      intros pc w1 [[= ->] Hw1].
      eapply Follows_bind.
      { by apply (Follows_await_Negotiated o h ns). }
      2: { by intros e w' H. }
      intros offerSdp w2 Hw2. simpl in Hw2.
      apply (Follows_bind _ _
               (fun w' r' => r' = Returned h /\ Negotiated h ns w')).
      { by apply Follows_currentPc_Negotiated. }
      2: { by intros e w' [? _]. }
      intros pc' w3 [[= ->] Hw3].
      eapply Follows_bind.
      { by apply (Follows_await_Negotiated o h ns). }
      2: { by intros e w' H. }
      intros v w4 Hw4. simpl in Hw4.
      eapply Follows_bind.
      { apply Follows_awaitGatheringSettled_Negotiated. exact Hw4. }
      2: { by intros e w' [? _]. }
      intros _ w5 [_ Hw5]. by constructor. }
  split.
  - destruct (outcome r) as [p|e]; [|by destruct Hmain as [? [_ ?]]].
    by destruct Hmain as (? & [_ ?] & ?).
  - intros Hres. destruct (outcome r) as [p|e]; [by exists p|].
    destruct Hmain as [(j & msg & Hrej & _) _].
    destruct (Hres j) as [v Hv]. congruence.
Qed.

Lemma createOffer_sets_local_description_witness :
  peerConnectionRef (hook mounted) = Some 0 /\ NoReset offerRound /\
  outcome (run createOffer offerRound mounted)
  = Returned {| type := offer; sdp := js "v=0 offer";
                iceCandidates := [hostCandidate] |} /\
  negotiations (final (run createOffer offerRound mounted))
  = [ {| n_local := Some (offer, js "v=0 offer"); n_remote := None;
         n_candidates := [] |} ].
Proof.
  assert (NoReset offerRound) as Hno.
  { intros i. unfold offerRound, script.
    destruct i as [|[|i]]; simpl; [by apply not_elem_of_nil| |
      by apply not_elem_of_nil].
    intros H. repeat (apply elem_of_cons in H as [H|H]; [discriminate|]).
    by apply elem_of_nil in H. }
  pose proof (createOffer_sets_local_description mounted 0 offerRound
                eq_refl Hno) as [H _].
  split; [done|]. split; [exact Hno|].
  assert (outcome (run createOffer offerRound mounted)
          = Returned {| type := offer; sdp := js "v=0 offer";
                        iceCandidates := [hostCandidate] |}) as Hout
    by (by vm_compute).
  split; [exact Hout|].
  cbv zeta in H. rewrite Hout in H. by destruct H as (_ & -> & _).
Defined.












(** ** The camera and the microphone *)

Lemma list_find_alter {A} (P : A -> Prop) `{forall x, Decision (P x)}
  (f : A -> A) (i : nat) (l : list A) :
  (forall x, P (f x) <-> P x) ->
  list_find P (alter f i l)
  = (fun jx => (jx.1, if decide (jx.1 = i) then f jx.2 else jx.2))
    <$> list_find P l.
Proof.
  intros Hf. revert i. induction l as [|x l IH]; intros i; [done|].
  destruct i as [|i]; simpl.
  - destruct (decide (P x)) as [Hx|Hx].
    + rewrite decide_True by by apply Hf. done.
    + rewrite decide_False by by rewrite Hf.
      destruct (list_find P l) as [[j y]|]; [|done]. done.
  - destruct (decide (P x)) as [Hx|Hx]; [done|].
    change (list_alter f i l) with (alter f i l).
    rewrite IH. destruct (list_find P l) as [[j y]|]; [|done]. simpl.
    destruct (decide (j = i)) as [->|Hne].
    + by rewrite decide_True.
    + by rewrite decide_False by lia.
Qed.

Lemma firstTrack_alter k f i ts :
  (forall t, kind (f t) = kind t) ->
  firstTrack k (alter f i ts)
  = (fun jx => (jx.1, if decide (jx.1 = i) then f jx.2 else jx.2))
    <$> firstTrack k ts.
Proof.
  intros Hf. unfold firstTrack. apply list_find_alter.
  intros t. by rewrite Hf.
Qed.

Lemma firstTrack_map k f ts :
  (forall t, kind (f t) = kind t) ->
  firstTrack k (map f ts) = (fun jx => (jx.1, f jx.2)) <$> firstTrack k ts.
Proof.
  intros Hf. unfold firstTrack.
  induction ts as [|t ts IH]; [done|]. simpl.
  destruct (decide (kind t = k)) as [Hx|Hx].
  - by rewrite decide_True by by rewrite Hf.
  - rewrite decide_False by by rewrite Hf.
    rewrite IH. by destruct (list_find _ ts) as [[j y]|].
Qed.

Lemma firstTrack_kind k ts i t : firstTrack k ts = Some (i, t) -> kind t = k.
Proof. intros H. by apply list_find_Some in H as (_ & ? & _). Qed.

Lemma firstTrack_lookup k ts i t :
  firstTrack k ts = Some (i, t) -> ts !! i = Some t.
Proof. intros H. by apply list_find_Some in H as (? & _). Qed.

(** The tracks of a stream after the tracks of one stream were changed. *)
Lemma getTracks_alter g (stream stream' : nat) m :
  g [] = [] ->
  getTracks (onTracks g stream m) stream'
  = if decide (stream = stream') then g (getTracks m stream')
    else getTracks m stream'.
Proof.
  intros Hg. unfold getTracks, onTracks. simpl.
  destruct (decide (stream = stream')) as [->|Hne].
  - rewrite list_lookup_alter_eq.
    destruct (streams m !! stream'); simpl; [done|by rewrite Hg].
  - by rewrite list_lookup_alter_ne.
Qed.

Lemma flagOf_ext k m m' :
  localStream m' = localStream m ->
  (forall stream, localStream m = Some stream ->
     (fun jx => enabled jx.2) <$> firstTrack k (getTracks m' stream)
     = (fun jx => enabled jx.2) <$> firstTrack k (getTracks m stream)) ->
  flagOf k m' = flagOf k m.
Proof.
  intros Hl Ht. unfold flagOf. rewrite Hl.
  destruct (localStream m) as [stream|]; [|done].
  specialize (Ht stream eq_refl).
  destruct (firstTrack k (getTracks m' stream)) as [[j t]|],
    (firstTrack k (getTracks m stream)) as [[j' t']|]; simpl in *; congruence.
Qed.

(** Changing the tracks of a stream in a way that keeps the kind and the
    [enabled] attribute of each changes no flag's reference value. *)
Lemma flagOf_alter k g (stream : nat) m :
  g [] = [] ->
  (forall ts, (fun jx => enabled jx.2) <$> firstTrack k (g ts)
              = (fun jx => enabled jx.2) <$> firstTrack k ts) ->
  flagOf k (onTracks g stream m) = flagOf k m.
Proof.
  intros Hg Hk. apply flagOf_ext; [done|]. intros s _.
  rewrite getTracks_alter by done. by destruct (decide (stream = s)).
Qed.

Lemma firstTrack_stopped k ts :
  (fun jx => enabled jx.2) <$> firstTrack k (map stop ts)
  = (fun jx => enabled jx.2) <$> firstTrack k ts.
Proof.
  rewrite firstTrack_map by done. by destruct (firstTrack k ts) as [[j t]|].
Qed.

Lemma firstTrack_ended k i ts :
  (fun jx => enabled jx.2) <$> firstTrack k (alter stop i ts)
  = (fun jx => enabled jx.2) <$> firstTrack k ts.
Proof.
  rewrite firstTrack_alter by done.
  destruct (firstTrack k ts) as [[j t]|]; [|done]. simpl.
  by destruct (decide (j = i)).
Qed.

(** Setting [enabled] on the first track of one kind does not show in the
    first track of the other kind. *)
Lemma firstTrack_other k k' b i t ts :
  k <> k' -> firstTrack k ts = Some (i, t) ->
  (fun jx => enabled jx.2) <$> firstTrack k' (alter (withEnabled b) i ts)
  = (fun jx => enabled jx.2) <$> firstTrack k' ts.
Proof.
  intros Hk Hi. rewrite firstTrack_alter by done.
  destruct (firstTrack k' ts) as [[j t']|] eqn:Hj; [|done]. simpl.
  destruct (decide (j = i)) as [->|Hne]; [|done].
  apply firstTrack_lookup in Hi as Hi'. apply firstTrack_lookup in Hj as Hj'.
  apply firstTrack_kind in Hi. apply firstTrack_kind in Hj. congruence.
Qed.

Lemma addTracks_cells h stream positions w m :
  let m' := (addTracks h stream positions w m).1 in
  localStream m' = localStream m /\ isCameraOn m' = isCameraOn m /\
  isMicOn m' = isMicOn m /\ streams m' = streams m.
Proof.
  revert m. induction positions as [|i positions IH]; intros m; [done|].
  simpl. unfold addTrack. destruct (openPc w h); [|done].
  destruct (decide (_ ∈ senders m)); [done|].
  apply (IH (setSenders _ m)).
Qed.

Lemma FlagsInSync_cells m m' :
  localStream m' = localStream m -> isCameraOn m' = isCameraOn m ->
  isMicOn m' = isMicOn m -> streams m' = streams m ->
  FlagsInSync m -> FlagsInSync m'.
Proof.
  intros Hl Hc Hm Hs. unfold FlagsInSync, flagOf, getTracks.
  by rewrite Hl, Hc, Hm, Hs.
Qed.

Lemma startCamera_FlagsInSync r w m :
  FlagsInSync m -> FlagsInSync (startCamera r w m).1.
Proof.
  intros Hm. destruct r as [ts|e]; [|done]. unfold startCamera.
  set (m3 := setIsMicOn _ _).
  assert (FlagsInSync m3) as H3.
  { unfold FlagsInSync, flagOf. simpl. unfold getTracks. simpl.
    rewrite lookup_app_r by lia. rewrite Nat.sub_diag. simpl. done. }
  destruct (peerConnectionRef (hook w)) as [h|]; [|done].
  destruct (addTracks_cells h (length (streams m))
              (seq 0 (length (getTracks m3 (length (streams m))))) w m3)
    as (Hl & Hc & Hm' & Hs).
  by apply (FlagsInSync_cells m3).
Qed.

Lemma stopCamera_FlagsInSync m : FlagsInSync (stopCamera m).
Proof.
  unfold stopCamera, FlagsInSync, flagOf.
  destruct (localStream m) eqn:Hl; simpl; [done|by rewrite Hl].
Qed.

Lemma toggle_FlagsInSync k k' m (stream : nat) i t :
  k <> k' ->
  localStream m = Some stream ->
  firstTrack k (getTracks m stream) = Some (i, t) ->
  let m' := onTracks (alter (withEnabled (negb (enabled t))) i) stream m in
  flagOf k m' = negb (enabled t) /\ flagOf k' m' = flagOf k' m.
Proof.
  intros Hk Hl Hi m'. split.
  - unfold flagOf. subst m'. simpl. rewrite Hl.
    rewrite getTracks_alter by done. rewrite decide_True by done.
    rewrite firstTrack_alter by done. rewrite Hi. simpl.
    by rewrite decide_True.
  - apply flagOf_ext; [done|]. intros s Hs. subst m'.
    rewrite getTracks_alter by done.
    destruct (decide (stream = s)) as [<-|Hne]; [|done].
    by apply (firstTrack_other k k' _ i t).
Qed.

Lemma flagOf_setIsCameraOn k b m : flagOf k (setIsCameraOn b m) = flagOf k m.
Proof. done. Qed.

Lemma flagOf_setIsMicOn k b m : flagOf k (setIsMicOn b m) = flagOf k m.
Proof. done. Qed.

Lemma toggleCamera_FlagsInSync m : FlagsInSync m -> FlagsInSync (toggleCamera m).
Proof.
  intros [Hc Hm]. unfold toggleCamera.
  destruct (localStream m) as [stream|] eqn:Hl; [|done].
  destruct (firstTrack video (getTracks m stream)) as [[i t]|] eqn:Hi; [|done].
  destruct (toggle_FlagsInSync video audio m stream i t) as [H1 H2];
    [done..|].
  split; rewrite flagOf_setIsCameraOn; simpl.
  - by rewrite H1.
  - by rewrite H2.
Qed.

Lemma toggleMic_FlagsInSync m : FlagsInSync m -> FlagsInSync (toggleMic m).
Proof.
  intros [Hc Hm]. unfold toggleMic.
  destruct (localStream m) as [stream|] eqn:Hl; [|done].
  destruct (firstTrack audio (getTracks m stream)) as [[i t]|] eqn:Hi; [|done].
  destruct (toggle_FlagsInSync audio video m stream i t) as [H1 H2];
    [done..|].
  split; rewrite flagOf_setIsMicOn; simpl.
  - by rewrite H2.
  - by rewrite H1.
Qed.

(** X8.  The two flags never lie.  Whatever sequence of [startCamera]
    (granted or denied, with or without a connection), [stopCamera],
    [toggleCamera] and [toggleMic] calls is made, and whichever tracks the
    browser ends meanwhile, [isCameraOn] is the [enabled] attribute of the
    first video track of the local stream and [isMicOn] that of its first
    audio track; each is false when there is no such track or no local
    stream. *)
Theorem media_flags_in_sync (m : Media) : MediaReachable m -> FlagsInSync m.
Proof.
  induction 1 as [|w c m _ IH|stream i m _ IH].
  - done.
  - destruct c as [r| | |]; simpl.
    + by apply startCamera_FlagsInSync.
    + apply stopCamera_FlagsInSync.
    + by apply toggleCamera_FlagsInSync.
    + by apply toggleMic_FlagsInSync.
  - destruct IH as [Hc Hm]. unfold FlagsInSync, trackEnded.
    rewrite !flagOf_alter; [done|done|apply firstTrack_ended|done|
                            apply firstTrack_ended].
Qed.

Lemma media_flags_in_sync_witness :
  MediaReachable
    (mediaCalls [(mounted, StartCamera (Granted cameraAndMic));
                 (mounted, ToggleCamera)] initialMedia) /\
  FlagsInSync
    (mediaCalls [(mounted, StartCamera (Granted cameraAndMic));
                 (mounted, ToggleCamera)] initialMedia) /\
  isCameraOn
    (mediaCalls [(mounted, StartCamera (Granted cameraAndMic));
                 (mounted, ToggleCamera)] initialMedia) = false.
Proof.
  assert (MediaReachable
            (mediaCalls [(mounted, StartCamera (Granted cameraAndMic));
                         (mounted, ToggleCamera)] initialMedia)) as Hr.
  { apply (MediaReachable_call mounted ToggleCamera).
    apply (MediaReachable_call mounted (StartCamera (Granted cameraAndMic))).
    apply MediaReachable_initial. }
  split; [exact Hr|]. split; [exact (media_flags_in_sync _ Hr)|].
  by vm_compute.
Defined.

Lemma onTracks_onTracks g1 g2 (stream : nat) m :
  onTracks g1 stream (onTracks g2 stream m)
  = onTracks (g1 ∘ g2) stream m.
Proof. unfold onTracks. simpl. by rewrite list_alter_alter_eq. Qed.

Lemma onTracks_id g (stream : nat) m :
  (forall ts, streams m !! stream = Some ts -> g ts = ts) ->
  onTracks g stream m = setStreams (streams m) m.
Proof.
  intros Hg. unfold onTracks. f_equal.
  rewrite (list_alter_ext g id _ (streams m) stream); [|done|done].
  by apply list_alter_id.
Qed.

Lemma Media_eta m :
  {| localStream := localStream m; isCameraOn := isCameraOn m;
     isMicOn := isMicOn m; streams := streams m; senders := senders m |} = m.
Proof. by destruct m. Qed.

Lemma map_stop_stop ts : map stop (map stop ts) = map stop ts.
Proof. rewrite map_map. by apply map_ext. Qed.

(** X9.  [stopCamera] ends every track of the local stream and forgets
    the stream.  With a local stream, after [stopCamera] there is none,
    both flags are false, every track of the former stream is ended with
    its kind and [enabled] attribute as before, and no other stream is
    touched.  The tracks stay attached to the connections they were added
    to.  Calling it again changes nothing. *)
Theorem stopCamera_ends_every_track (m : Media) (stream : nat) :
  localStream m = Some stream ->
  let m' := stopCamera m in
  localStream m' = None /\ isCameraOn m' = false /\ isMicOn m' = false /\
  getTracks m' stream = map stop (getTracks m stream) /\
  Forall (fun t => ended t = true) (getTracks m' stream) /\
  (forall other, other <> stream -> getTracks m' other = getTracks m other) /\
  senders m' = senders m /\
  stopCamera m' = m'.
Proof.
  intros Hl m'. subst m'. unfold stopCamera. rewrite Hl.
  assert (forall s', getTracks
            (setIsMicOn false (setIsCameraOn false
               (setLocalStream None (stopTracks stream m)))) s'
          = if decide (stream = s') then map stop (getTracks m s')
            else getTracks m s') as Htracks.
  { intros s'. by rewrite <- (getTracks_alter (map stop) stream s' m). }
  repeat split.
  - rewrite Htracks. by rewrite decide_True.
  - rewrite Htracks, decide_True by done.
    apply Forall_forall. intros t Ht.
    apply list_elem_of_fmap in Ht as (t' & -> & _). done.
  - intros other Hne. rewrite Htracks. by rewrite decide_False.
Qed.

Lemma stopCamera_ends_every_track_witness :
  localStream cameraStarted = Some 0 /\
  localStream (stopCamera cameraStarted) = None /\
  getTracks (stopCamera cameraStarted) 0
  = [ {| kind := audio; enabled := true; ended := true |};
      {| kind := video; enabled := true; ended := true |} ] /\
  senders (stopCamera cameraStarted) = senders cameraStarted.
Proof.
  assert (localStream cameraStarted = Some 0) as Hl by done.
  pose proof (stopCamera_ends_every_track cameraStarted 0 Hl)
    as (H1 & _ & _ & H4 & _ & _ & H7 & _).
  split; [exact Hl|]. split; [exact H1|]. split; [|exact H7].
  rewrite H4. by vm_compute.
Defined.

Lemma withEnabled_back t b : withEnabled (enabled t) (withEnabled b t) = t.
Proof. by destruct t. Qed.

(** The second of two toggles of the same kind undoes the first. *)
Lemma toggle_back k m (stream : nat) i t :
  localStream m = Some stream ->
  firstTrack k (getTracks m stream) = Some (i, t) ->
  let m1 := onTracks (alter (withEnabled (negb (enabled t))) i) stream m in
  firstTrack k (getTracks m1 stream)
  = Some (i, withEnabled (negb (enabled t)) t) /\
  onTracks (alter (withEnabled (negb (negb (enabled t)))) i) stream m1
  = setStreams (streams m) m.
Proof.
  intros Hl Hi m1. split.
  - subst m1. rewrite getTracks_alter by done. rewrite decide_True by done.
    rewrite firstTrack_alter by done. rewrite Hi. simpl.
    by rewrite decide_True.
  - subst m1. rewrite onTracks_onTracks. apply onTracks_id.
    intros ts Hts. simpl. rewrite list_alter_alter_eq.
    apply firstTrack_lookup in Hi. unfold getTracks in Hi.
    rewrite Hts in Hi. simpl in Hi.
    apply list_eq. intros j. destruct (decide (i = j)) as [<-|Hne].
    + rewrite list_lookup_alter_eq, Hi. simpl.
      rewrite negb_involutive. by rewrite withEnabled_back.
    + by rewrite list_lookup_alter_ne.
Qed.

Lemma toggleCamera_twice m :
  isCameraOn m = flagOf video m -> toggleCamera (toggleCamera m) = m.
Proof.
  intros Hc. unfold toggleCamera at 2.
  destruct (localStream m) as [stream|] eqn:Hl;
    [|unfold toggleCamera; by rewrite Hl].
  destruct (firstTrack video (getTracks m stream)) as [[i t]|] eqn:Hi;
    [|unfold toggleCamera; by rewrite Hl, Hi].
  destruct (toggle_back video m stream i t Hl Hi) as [H1 H2].
  unfold toggleCamera. cbn [localStream setIsCameraOn onTracks setStreams].
  rewrite Hl.
  change (getTracks (setIsCameraOn ?b ?m') ?s) with (getTracks m' s).
  rewrite H1. cbn [enabled withEnabled].
  change (onTracks ?g ?s (setIsCameraOn ?b ?m'))
    with (setIsCameraOn b (onTracks g s m')).
  rewrite H2. unfold flagOf in Hc. rewrite Hl, Hi in Hc.
  rewrite negb_involutive. unfold setIsCameraOn, setIsMicOn, setStreams.
  simpl. rewrite <- Hc. apply Media_eta.
Qed.

Lemma toggleMic_twice m :
  isMicOn m = flagOf audio m -> toggleMic (toggleMic m) = m.
Proof.
  intros Hc. unfold toggleMic at 2.
  destruct (localStream m) as [stream|] eqn:Hl;
    [|unfold toggleMic; by rewrite Hl].
  destruct (firstTrack audio (getTracks m stream)) as [[i t]|] eqn:Hi;
    [|unfold toggleMic; by rewrite Hl, Hi].
  destruct (toggle_back audio m stream i t Hl Hi) as [H1 H2].
  unfold toggleMic. cbn [localStream setIsMicOn onTracks setStreams].
  rewrite Hl.
  change (getTracks (setIsMicOn ?b ?m') ?s) with (getTracks m' s).
  rewrite H1. cbn [enabled withEnabled].
  change (onTracks ?g ?s (setIsMicOn ?b ?m'))
    with (setIsMicOn b (onTracks g s m')).
  rewrite H2. unfold flagOf in Hc. rewrite Hl, Hi in Hc.
  rewrite negb_involutive. unfold setIsCameraOn, setIsMicOn, setStreams.
  simpl. rewrite <- Hc. apply Media_eta.
Qed.

(** The first track of one kind, after the first track of another kind
    was given a new [enabled]. *)
Lemma firstTrack_after_other k k' b m (stream : nat) i t :
  k <> k' ->
  firstTrack k (getTracks m stream) = Some (i, t) ->
  firstTrack k'
    (getTracks (onTracks (alter (withEnabled b) i) stream m) stream)
  = firstTrack k' (getTracks m stream).
Proof.
  intros Hk Hi. rewrite getTracks_alter by done. rewrite decide_True by done.
  rewrite firstTrack_alter by done.
  destruct (firstTrack k' (getTracks m stream)) as [[j u]|] eqn:Hj; [|done].
  simpl. destruct (decide (j = i)) as [->|Hne]; [|done].
  apply firstTrack_lookup in Hi as Hi'. apply firstTrack_lookup in Hj as Hj'.
  apply firstTrack_kind in Hi. apply firstTrack_kind in Hj. congruence.
Qed.

Lemma toggles_commute m : toggleCamera (toggleMic m) = toggleMic (toggleCamera m).
Proof.
  unfold toggleMic at 1. unfold toggleCamera at 2.
  destruct (localStream m) as [stream|] eqn:Hl;
    [|unfold toggleCamera, toggleMic; by rewrite Hl].
  destruct (firstTrack audio (getTracks m stream)) as [[j u]|] eqn:Hj,
    (firstTrack video (getTracks m stream)) as [[i t]|] eqn:Hi.
  - unfold toggleCamera, toggleMic.
    cbn [localStream setIsCameraOn setIsMicOn onTracks setStreams].
    rewrite Hl.
    change (getTracks (setIsMicOn ?b ?m') ?s) with (getTracks m' s).
    change (getTracks (setIsCameraOn ?b ?m') ?s) with (getTracks m' s).
    rewrite (firstTrack_after_other audio video _ m stream j u) by done.
    rewrite (firstTrack_after_other video audio _ m stream i t) by done.
    rewrite Hi, Hj.
    unfold setIsCameraOn, setIsMicOn, onTracks, setStreams. simpl.
    f_equal. rewrite !list_alter_alter_eq.
    apply list_alter_ext; [|done]. intros ts _. simpl.
    apply list_alter_alter_ne. intros ->.
    apply firstTrack_lookup in Hi as Hi'. apply firstTrack_lookup in Hj as Hj'.
    apply firstTrack_kind in Hi. apply firstTrack_kind in Hj. congruence.
  - unfold toggleCamera, toggleMic.
    cbn [localStream setIsMicOn onTracks setStreams]. rewrite Hl.
    change (getTracks (setIsMicOn ?b ?m') ?s) with (getTracks m' s).
    rewrite (firstTrack_after_other audio video _ m stream j u) by done.
    by rewrite Hi, Hj.
  - unfold toggleCamera, toggleMic.
    cbn [localStream setIsCameraOn onTracks setStreams]. rewrite Hl.
    change (getTracks (setIsCameraOn ?b ?m') ?s) with (getTracks m' s).
    rewrite (firstTrack_after_other video audio _ m stream i t) by done.
    by rewrite Hi, Hj.
  - unfold toggleCamera, toggleMic. by rewrite Hl, Hi, Hj.
Qed.

(** X10.  The toggles are switches.  With the flags in step with the
    tracks, toggling the camera twice, or the microphone twice, gives back
    exactly the cells and tracks there were.  And the two toggles do not
    interfere: in either order they give the same result. *)
Theorem toggles_are_switches (m : Media) :
  FlagsInSync m ->
  toggleCamera (toggleCamera m) = m /\
  toggleMic (toggleMic m) = m /\
  toggleCamera (toggleMic m) = toggleMic (toggleCamera m).
Proof.
  intros [Hc Hm]. split; [by apply toggleCamera_twice|].
  split; [by apply toggleMic_twice|apply toggles_commute].
Qed.

Lemma toggles_are_switches_witness :
  FlagsInSync cameraStarted /\
  toggleCamera (toggleCamera cameraStarted) = cameraStarted /\
  toggleMic (toggleMic cameraStarted) = cameraStarted /\
  toggleCamera (toggleMic cameraStarted)
  = toggleMic (toggleCamera cameraStarted).
Proof.
  assert (FlagsInSync cameraStarted) as Hs by (by vm_compute).
  split; [exact Hs|]. exact (toggles_are_switches cameraStarted Hs).
Defined.

(** *** Streams and senders *)

Lemma addTracks_fresh h (stream : nat) w pc positions m :
  openPc w h = Some pc ->
  NoDup positions ->
  (forall i, i ∈ positions -> senderOf h stream i ∉ senders m) ->
  addTracks h stream positions w m
  = (setSenders (senders m ++ (senderOf h stream <$> positions)) m, None).
Proof.
  intros Hpc. revert m.
  induction positions as [|i positions IH]; intros m Hnd Hm; simpl.
  - rewrite app_nil_r. by destruct m.
  - unfold addTrack. rewrite Hpc.
    apply NoDup_cons in Hnd as [Hi Hnd].
    rewrite decide_False by (apply Hm; left).
    rewrite IH; [|done|].
    + unfold setSenders. simpl. by rewrite <- app_assoc.
    + intros j Hj. simpl. rewrite elem_of_app, list_elem_of_singleton.
      intros [Hin|Heq].
      * apply (Hm j); [by right|done].
      * injection Heq as ->. done.
Qed.

(** Whatever [addTracks] does, it adds senders of that stream on that
    connection only, and only on a connection that is open. *)
Lemma addTracks_senders h (stream : nat) positions w m s :
  s ∈ senders (addTracks h stream positions w m).1 ->
  s ∈ senders m \/
  (sender_pc s = h /\ sender_stream s = stream /\ is_Some (openPc w h)).
Proof.
  revert m. induction positions as [|i positions IH]; intros m Hs;
    [by left|].
  simpl in Hs. unfold addTrack in Hs.
  destruct (openPc w h) as [pc|] eqn:Hpc; [|by left].
  destruct (decide (_ ∈ senders m)); [by left|].
  apply IH in Hs as [Hs|Hs]; [|by right]. simpl in Hs.
  apply elem_of_app in Hs as [Hs|Hs]; [by left|].
  apply list_elem_of_singleton in Hs as ->. right. by eauto.
Qed.

Lemma startCamera_cells ts w m :
  let m' := (startCamera (Granted ts) w m).1 in
  localStream m' = Some (length (streams m)) /\
  streams m' = streams m ++ [ts] /\
  isCameraOn m'
  = match firstTrack video ts with Some (_, t) => enabled t | None => false
    end /\
  isMicOn m'
  = match firstTrack audio ts with Some (_, t) => enabled t | None => false
    end.
Proof.
  unfold startCamera. set (m3 := setIsMicOn _ _).
  assert (isCameraOn m3
          = match firstTrack video ts with
            | Some (_, t) => enabled t | None => false end /\
          isMicOn m3
          = match firstTrack audio ts with
            | Some (_, t) => enabled t | None => false end) as [H1 H2].
  { subst m3. simpl. unfold getTracks. simpl.
    rewrite lookup_app_r by lia. by rewrite Nat.sub_diag. }
  destruct (peerConnectionRef (hook w)) as [h|]; [|done].
  destruct (addTracks_cells h (length (streams m))
              (seq 0 (length (getTracks m3 (length (streams m))))) w m3)
    as (Hl & Hc & Hm & Hs).
  simpl. by rewrite Hl, Hs, Hc, Hm.
Qed.

(** A media call adds senders only for the stream it has just made, on a
    connection that is open. *)
Lemma mediaCall_senders w c m s :
  s ∈ senders (mediaCall w c m) ->
  s ∈ senders m \/
  (sender_stream s = length (streams m) /\
   length (streams m) < length (streams (mediaCall w c m)) /\
   is_Some (openPc w (sender_pc s))).
Proof.
  destruct c as [[ts|e]| | |]; simpl.
  - intros Hs. destruct (startCamera_cells ts w m) as (_ & Hst & _).
    simpl in Hst. rewrite Hst, length_app. simpl.
    revert Hs. unfold startCamera. set (m3 := setIsMicOn _ _).
    destruct (peerConnectionRef (hook w)) as [h|]; [|by left].
    intros Hs. apply addTracks_senders in Hs as [Hs|(<- & ? & ?)];
      [by left|].
    right. split; [done|]. split; [lia|done].
  - by left.
  - unfold stopCamera. destruct (localStream m); by left.
  - unfold toggleCamera. destruct (localStream m); [|by left].
    destruct (firstTrack _ _) as [[i t]|]; by left.
  - unfold toggleMic. destruct (localStream m); [|by left].
    destruct (firstTrack _ _) as [[i t]|]; by left.
Qed.

Lemma mediaCall_streams w c m :
  length (streams m) <= length (streams (mediaCall w c m)).
Proof.
  destruct c as [[ts|e]| | |]; simpl.
  - destruct (startCamera_cells ts w m) as (_ & Hst & _). simpl in Hst.
    rewrite Hst, length_app. simpl. lia.
  - done.
  - unfold stopCamera. destruct (localStream m); simpl; [|done].
    by rewrite length_alter.
  - unfold toggleCamera. destruct (localStream m); [|done].
    destruct (firstTrack _ _) as [[i t]|]; [|done]. simpl.
    by rewrite length_alter.
  - unfold toggleMic. destruct (localStream m); [|done].
    destruct (firstTrack _ _) as [[i t]|]; [|done]. simpl.
    by rewrite length_alter.
Qed.

Lemma mediaCall_SendersOfStreams w c m :
  SendersOfStreams m -> SendersOfStreams (mediaCall w c m).
Proof.
  unfold SendersOfStreams. intros Hm. apply Forall_forall. intros s Hs.
  pose proof (mediaCall_streams w c m) as Hlen.
  apply mediaCall_senders in Hs as [Hs|(Hs & Hlt & _)].
  - rewrite Forall_forall in Hm. specialize (Hm s Hs). lia.
  - lia.
Qed.

Lemma MediaReachable_SendersOfStreams m :
  MediaReachable m -> SendersOfStreams m.
Proof.
  induction 1 as [|w c m _ IH|stream i m _ IH].
  - constructor.
  - by apply mediaCall_SendersOfStreams.
  - unfold SendersOfStreams, trackEnded, onTracks in *. simpl.
    by rewrite length_alter.
Qed.

Lemma openPc_RefOpen w h :
  RefOpen w -> peerConnectionRef (hook w) = Some h -> is_Some (openPc w h).
Proof.
  intros Hw Href. destruct (Hw h Href) as (pc & Hpc & Hopen).
  unfold openPc. rewrite Hpc, Hopen. by eexists.
Qed.

(** On a mounted hook a granted [startCamera] adds every track: no
    [addTrack] throws. *)
Lemma startCamera_granted w m h ts :
  Reachable w -> peerConnectionRef (hook w) = Some h -> MediaReachable m ->
  (startCamera (Granted ts) w m).2 = None /\
  senders (startCamera (Granted ts) w m).1
  = senders m ++ sendersFor h (length (streams m)) (length ts).
Proof.
  intros Hw Href Hm.
  destruct (openPc_RefOpen w h (Reachable_RefOpen w Hw) Href) as [pc Hpc].
  pose proof (MediaReachable_SendersOfStreams m Hm) as Hsend.
  unfold startCamera. rewrite Href.
  set (m3 := setIsMicOn _ _).
  assert (getTracks m3 (length (streams m)) = ts) as H3.
  { unfold getTracks. simpl. rewrite lookup_app_r by lia.
    by rewrite Nat.sub_diag. }
  rewrite H3.
  rewrite (addTracks_fresh h (length (streams m)) w pc); [done|done|..].
  - apply NoDup_seq.
  - intros i _ Hin. simpl in Hin.
    unfold SendersOfStreams in Hsend. rewrite Forall_forall in Hsend.
    specialize (Hsend _ Hin). simpl in Hsend. lia.
Qed.

(** X11.  [startCamera] on a mounted hook.  In every world the hook can be
    in once the ref holds a connection, and whatever was done with the
    camera before: when [getUserMedia] is rejected, [startCamera] throws
    that rejection and changes nothing; when it is granted, [startCamera]
    returns normally, the new stream is the local stream, [isCameraOn] is
    the [enabled] attribute of its first video track and [isMicOn] that of
    its first audio track (false without such a track), each of its tracks
    has been added to the connection the ref holds, in order, after the
    senders there were, and the older streams are as they were. *)
Theorem startCamera_attaches_the_stream
  (w : World) (m : Media) (h : nat) (ts : list MediaStreamTrack)
  (e : JSString) :
  Reachable w -> peerConnectionRef (hook w) = Some h -> MediaReachable m ->
  startCamera (Denied e) w m = (m, Some (GetUserMediaError e)) /\
  let stream := length (streams m) in
  let m' := (startCamera (Granted ts) w m).1 in
  (startCamera (Granted ts) w m).2 = None /\
  localStream m' = Some stream /\
  getTracks m' stream = ts /\
  isCameraOn m'
  = match firstTrack video ts with Some (_, t) => enabled t | None => false
    end /\
  isMicOn m'
  = match firstTrack audio ts with Some (_, t) => enabled t | None => false
    end /\
  senders m' = senders m ++ sendersFor h stream (length ts) /\
  (forall other, other < stream -> getTracks m' other = getTracks m other).
Proof.
  intros Hw Href Hm. split; [done|]. intros stream m'.
  destruct (startCamera_granted w m h ts Hw Href Hm) as [Hnone Hsenders].
  destruct (startCamera_cells ts w m) as (Hl & Hst & Hc & Hmic).
  fold m' in Hl, Hst, Hc, Hmic, Hsenders.
  assert (getTracks m' stream = ts) as Hts.
  { unfold getTracks. rewrite Hst. rewrite lookup_app_r by (subst stream; lia).
    subst stream. by rewrite Nat.sub_diag. }
  repeat (split; [done|]).
  intros other Hlt. unfold getTracks. rewrite Hst.
  by rewrite lookup_app_l by (subst stream; lia).
Qed.

Lemma startCamera_attaches_the_stream_witness :
  Reachable mounted /\ peerConnectionRef (hook mounted) = Some 0 /\
  MediaReachable initialMedia /\
  (startCamera (Granted cameraAndMic) mounted initialMedia).2 = None /\
  localStream cameraStarted = Some 0 /\
  isCameraOn cameraStarted = true /\ isMicOn cameraStarted = true /\
  senders cameraStarted = [senderOf 0 0 0; senderOf 0 0 1].
Proof.
  assert (Reachable mounted) as Hr
    by exact (Reachable_lifecycle Initialize initialWorld Reachable_initial).
  pose proof (startCamera_attaches_the_stream mounted initialMedia 0
                cameraAndMic [] Hr eq_refl MediaReachable_initial)
    as (_ & H1 & H2 & _ & H4 & H5 & H6 & _).
  split; [exact Hr|]. split; [done|].
  split; [exact MediaReachable_initial|].
  split; [exact H1|]. split; [exact H2|]. split; [exact H4|].
  split; [exact H5|]. exact H6.
Defined.

(** *** Streams the hook has let go of *)

Lemma mediaCall_Orphaned w c (stream : nat) m :
  Orphaned stream m ->
  Orphaned stream (mediaCall w c m) /\
  getTracks (mediaCall w c m) stream = getTracks m stream.
Proof.
  intros [Hlt Hne]. destruct c as [[ts|e]| | |]; cbn [mediaCall].
  - destruct (startCamera_cells ts w m) as (Hl & Hst & _).
    cbv zeta in Hl, Hst.
    unfold Orphaned, getTracks. rewrite Hl, Hst, length_app. simpl.
    rewrite (lookup_app_l (streams m) [ts] stream Hlt).
    split; [|done]. split; [lia|]. intros [= Heq]. lia.
  - done.
  - unfold stopCamera. destruct (localStream m) as [s|] eqn:Hl.
    + assert (s <> stream) as Hs by (intros Heq; apply Hne; by f_equal).
      split.
      * split; [|done]. simpl. by rewrite length_alter.
      * change (getTracks (onTracks (map stop) s m) stream
                = getTracks m stream).
        rewrite getTracks_alter by done. by rewrite decide_False.
    + split; [|done]. split; [done|]. simpl. by rewrite Hl.
  - unfold toggleCamera. destruct (localStream m) as [s|] eqn:Hl;
      [|split; [split; [done|by rewrite Hl]|done]].
    destruct (firstTrack _ _) as [[i t]|];
      [|split; [split; [done|by rewrite Hl]|done]].
    assert (s <> stream) as Hs by (intros Heq; apply Hne; by f_equal).
    split.
    + split; simpl; [by rewrite length_alter|by rewrite Hl].
    + change (getTracks (onTracks (alter (withEnabled (negb (enabled t))) i)
                           s m) stream = getTracks m stream).
      rewrite getTracks_alter by done. by rewrite decide_False.
  - unfold toggleMic. destruct (localStream m) as [s|] eqn:Hl;
      [|split; [split; [done|by rewrite Hl]|done]].
    destruct (firstTrack _ _) as [[i t]|];
      [|split; [split; [done|by rewrite Hl]|done]].
    assert (s <> stream) as Hs by (intros Heq; apply Hne; by f_equal).
    split.
    + split; simpl; [by rewrite length_alter|by rewrite Hl].
    + change (getTracks (onTracks (alter (withEnabled (negb (enabled t))) i)
                           s m) stream = getTracks m stream).
      rewrite getTracks_alter by done. by rewrite decide_False.
Qed.

Lemma mediaCalls_Orphaned cs (stream : nat) m :
  Orphaned stream m ->
  Orphaned stream (mediaCalls cs m) /\
  getTracks (mediaCalls cs m) stream = getTracks m stream.
Proof.
  revert m. induction cs as [|[w c] cs IH]; intros m Hm; [done|].
  unfold mediaCalls. simpl.
  destruct (mediaCall_Orphaned w c stream m Hm) as [Ho Ht].
  destruct (IH _ Ho) as [Ho' Ht']. split; [done|].
  unfold mediaCalls in Ht'. by rewrite Ht', Ht.
Qed.

(** X12.  A second [startCamera] lets go of the first stream without
    stopping it.  If [startCamera] is granted a stream while a local
    stream exists, the former stream is left exactly as it was, and
    nothing the hook does afterwards touches it: after any further
    [startCamera], [stopCamera], [toggleCamera] and [toggleMic] calls its
    tracks are still the same, a live camera still live. *)
Theorem replaced_stream_is_never_stopped
  (m : Media) (stream : nat) (ts : list MediaStreamTrack) (w : World)
  (cs : list (World * MediaCall)) :
  localStream m = Some stream -> stream < length (streams m) ->
  let m1 := (startCamera (Granted ts) w m).1 in
  localStream m1 <> Some stream /\
  getTracks (mediaCalls cs m1) stream = getTracks m stream /\
  localStream (mediaCalls cs m1) <> Some stream.
Proof.
  intros Hl Hlt m1.
  assert (Orphaned stream m1 /\ getTracks m1 stream = getTracks m stream)
    as [Ho Ht].
  { destruct (startCamera_cells ts w m) as (Hl1 & Hst & _).
    fold m1 in Hl1, Hst. unfold Orphaned, getTracks.
    rewrite Hl1, Hst, length_app. simpl.
    rewrite (lookup_app_l (streams m) [ts] stream Hlt).
    split; [|done]. split; [lia|]. intros [= Heq]. lia. }
  destruct (mediaCalls_Orphaned cs stream m1 Ho) as [[_ Hne] Ht'].
  split; [by destruct Ho|]. split; [by rewrite Ht', Ht|done].
Qed.

Lemma replaced_stream_is_never_stopped_witness :
  localStream cameraStarted = Some 0 /\
  0 < length (streams cameraStarted) /\
  getTracks
    (mediaCalls muteHideStop
       (startCamera (Granted cameraAndMic) mounted cameraStarted).1) 0
  = cameraAndMic /\
  Forall (fun t => ended t = true)
    (getTracks
       (mediaCalls muteHideStop
          (startCamera (Granted cameraAndMic) mounted cameraStarted).1) 1).
Proof.
  assert (0 < length (streams cameraStarted)) as Hlt by (vm_compute; lia).
  pose proof (replaced_stream_is_never_stopped cameraStarted 0 cameraAndMic
                mounted muteHideStop eq_refl Hlt) as (_ & H & _).
  split; [done|]. split; [exact Hlt|]. split; [exact H|].
  vm_compute. by repeat constructor.
Defined.

(** *** Unmount *)

(** X13.  The cleanup of the mount effect closes the connection and stops
    no track.  The effect runs once, in the first render, and its cleanup
    closes over the [localStream] of that render, which is null.  So when
    the component unmounts, in any state the hook can be in, no connection
    is left open, but the media are exactly as they were: every track of
    the local stream keeps its [readyState].  The cleanup a later render
    would have made, closing over the local stream of that render, would
    have ended every track of it. *)
Theorem unmount_closes_the_connection_and_stops_no_track (a : App) :
  Reachable (world a) ->
  openHandles (world (unmount a)) = 0 /\
  media (unmount a) = media a /\
  (forall stream : nat,
     localStream (media a) = Some stream ->
     getTracks (media (cleanup (localStream (media a)) a)) stream
     = map stop (getTracks (media a) stream)).
Proof.
  intros Hw. split; [|split; [done|]].
  - by apply closeCurrent_openHandles, Reachable_AtMostOneOpen.
  - intros stream Hl. rewrite Hl. simpl. unfold stopTracks.
    rewrite getTracks_alter by done. by rewrite decide_True.
Qed.

Lemma unmount_closes_the_connection_and_stops_no_track_witness :
  Reachable (world {| world := mounted; media := cameraStarted |}) /\
  openHandles (world (unmount {| world := mounted; media := cameraStarted |}))
  = 0 /\
  getTracks (media (unmount {| world := mounted; media := cameraStarted |})) 0
  = cameraAndMic.
Proof.
  assert (Reachable (world {| world := mounted; media := cameraStarted |}))
    as Hr
    by exact (Reachable_lifecycle Initialize initialWorld Reachable_initial).
  pose proof (unmount_closes_the_connection_and_stops_no_track _ Hr)
    as (H1 & H2 & _).
  split; [exact Hr|]. split; [exact H1|]. by rewrite H2.
Defined.

(** *** Reset *)

Lemma runTask_length t w : length (pcs w) <= length (pcs (runTask t w)).
Proof.
  destruct t as [h st|h s|h c|h st|h st|].
  - simpl. unfold onconnectionstatechange.
    destruct (_ !! h) eqn:E; simpl; [|by rewrite length_alter].
    destruct (_ && _); [simpl; by rewrite length_alter|].
    destruct (_ || _); simpl; by rewrite length_alter.
  - simpl. by destruct (pcs w !! h).
  - simpl. destruct (pcs w !! h); [|done]. by destruct c.
  - simpl. by rewrite length_alter.
  - simpl. by rewrite length_alter.
  - unfold runTask, resetConnection, initializePeerConnection, construct.
    simpl. rewrite length_app.
    repeat (rewrite closeCurrent_length; simpl). lia.
Qed.

Lemma settle_length c rsp w : length (pcs (settle c rsp w).1) = length (pcs w).
Proof.
  destruct c; simpl; try done; destruct (reply rsp); simpl; try done;
    by rewrite length_alter.
Qed.

Lemma lifecycle_length c w : length (pcs w) <= length (pcs (lifecycle c w)).
Proof.
  destruct c; unfold lifecycle, resetConnection, initializePeerConnection,
    construct; simpl; rewrite length_app;
    repeat (rewrite closeCurrent_length; simpl); lia.
Qed.

(** The store only grows. *)
Lemma Later_length w w' : Later w w' -> length (pcs w) <= length (pcs w').
Proof.
  set (I := fun v : World => length (pcs w) <= length (pcs v)).
  assert (forall c rsp v, I v -> I (settle c rsp v).1) as Hsettle.
  { intros c rsp v. unfold I. by rewrite settle_length. }
  assert (forall t v, I v -> I (runTask t v)) as Htask.
  { intros t v Hv. unfold I in *. pose proof (runTask_length t v). lia. }
  assert (forall A (m : Async A) o w0 v,
    Safe I (m w0) -> v ∈ visited (run m o w0) -> I v) as Hrun.
  { intros A m o w0 v Hsafe Hv.
    destruct (exec_Safe I o (m w0) 0) as [Hall _]; [|done|].
    - intros j t w1 _. apply Htask.
    - rewrite Forall_forall in Hall. by apply Hall. }
  induction 1 as [|c w' _ IH|t w' _ IH|o w' v _ IH Hv|p o w' v _ IH Hv
                 |p o w' v _ IH Hv|p o w' v _ IH Hv].
  - done.
  - pose proof (lifecycle_length c w'). lia.
  - by apply Htask.
  - eapply Hrun; [|exact Hv]. by apply createOffer_Safe.
  - eapply Hrun; [|exact Hv]. by apply handleAnswer_Safe.
  - eapply Hrun; [|exact Hv]. by apply createAnswer_Safe.
  - eapply Hrun; [|exact Hv]. by apply handleOffer_Safe.
Qed.

Lemma openPc_length w h : is_Some (openPc w h) -> h < length (pcs w).
Proof.
  unfold openPc. intros [pc Hpc].
  destruct (pcs w !! h) eqn:E; [|done]. by eapply lookup_lt_Some.
Qed.

Lemma AppReachable_SendersOfConnections a :
  AppReachable a -> SendersOfConnections a.
Proof.
  unfold SendersOfConnections.
  induction 1 as [|a w' _ IH Hlater|c a _ IH|stream i a _ IH]; simpl.
  - constructor.
  - apply Later_length in Hlater. eapply Forall_impl; [exact IH|].
    simpl. intros s Hs. lia.
  - apply Forall_forall. intros s Hs.
    apply mediaCall_senders in Hs as [Hs|(_ & _ & Hs)].
    + rewrite Forall_forall in IH. by apply IH.
    + by apply openPc_length.
  - done.
Qed.

(** X14.  [resetConnection] does not carry the camera over.  In every
    state of the hook after mount, the connection that [resetConnection]
    puts in the ref has none of the local tracks: no sender is on it,
    whether or not a local stream exists, and the media cells are not
    touched.  Only a further [startCamera] adds tracks to it. *)
Theorem reset_connection_has_no_local_track (a : App) :
  AppReachable a ->
  exists h,
    peerConnectionRef (hook (resetConnection (world a))) = Some h /\
    pcs (resetConnection (world a)) !! h = Some newPeerConnection /\
    sendersOf h (media a) = [].
Proof.
  intros Ha. exists (length (pcs (world a))).
  destruct (resetConnection_ref (world a)) as [Href Hpc].
  split; [done|]. split; [done|].
  pose proof (AppReachable_SendersOfConnections a Ha) as Hs.
  unfold SendersOfConnections in Hs. unfold sendersOf.
  induction Hs as [|s l Hs _ IH]; [done|].
  rewrite filter_cons_False by lia. exact IH.
Qed.

Lemma reset_connection_has_no_local_track_witness :
  AppReachable {| world := mounted; media := cameraStarted |} /\
  sendersOf 0 cameraStarted = [senderOf 0 0 0; senderOf 0 0 1] /\
  peerConnectionRef (hook (resetConnection mounted)) = Some 1 /\
  sendersOf 1 cameraStarted = [].
Proof.
  assert (AppReachable {| world := mounted; media := cameraStarted |}) as Ha.
  { exact (AppReachable_media (StartCamera (Granted cameraAndMic)) mountedApp
             AppReachable_mounted). }
  destruct (reset_connection_has_no_local_track _ Ha) as (h & Href & _ & Hs).
  split; [exact Ha|]. split; [by vm_compute|].
  assert (h = 1) as -> by (vm_compute in Href; congruence).
  split; [exact Href|exact Hs].
Defined.

(** ** The page *)

(** The cells a render is made of, after the update made while
    rendering. *)
Lemma renderPhaseUpdate_cells p :
  webrtc (renderPhaseUpdate p) = webrtc p /\
  signaling (renderPhaseUpdate p) = signaling p /\
  appState (renderPhaseUpdate p)
  = (if isConnected (hookOf p) then app_connected else appState p).
Proof.
  unfold renderPhaseUpdate.
  destruct (isConnected (hookOf p)); simpl; [|done].
  destruct (bool_decide_reflect (appState p = app_connected)) as [Heq|_];
    simpl; done.
Qed.

(** Where the page shows [ControlButtons] with [isConnected] true. *)
Lemma view_ControlButtons_connected c m p :
  ControlButtons c m true ∈ view p ->
  isConnected (hookOf p) = true /\ isConnecting (hookOf p) = false.
Proof.
  unfold view, render.
  destruct (renderPhaseUpdate_cells p) as (Hw & _ & Ha).
  unfold hookOf in *. rewrite Hw, Ha.
  destruct (isConnected (hook (world (webrtc p)))) eqn:Hc.
  - rewrite bool_decide_false by done.
    destruct (isConnecting (hook (world (webrtc p)))); [|done].
    intros H. apply list_elem_of_singleton in H. discriminate.
  - destruct (bool_decide _).
    { intros H. apply list_elem_of_singleton in H. discriminate. }
    destruct (isConnecting (hook (world (webrtc p)))).
    { intros H. apply list_elem_of_singleton in H. discriminate. }
    intros H. exfalso.
    destruct (appState p); rewrite ?Hc in H;
      repeat (apply elem_of_cons in H as [H|H]; [discriminate|]);
      by apply elem_of_nil in H.
Qed.

Lemma view_connected p :
  isConnected (hookOf p) = true -> isConnecting (hookOf p) = false ->
  view p
  = [ConnectionStatus (statusLabel (connectionState (hookOf p)));
     VideoDisplay (localStream (media (webrtc p))) true
       (isCameraOn (media (webrtc p))) (isMicOn (media (webrtc p))) "You";
     VideoDisplay (remoteStream (hookOf p)) false true true "Remote";
     ControlButtons (isCameraOn (media (webrtc p)))
       (isMicOn (media (webrtc p))) true;
     ConnectionInfo (connectionState (hookOf p))].
Proof.
  intros Hc Hn. unfold view, render.
  destruct (renderPhaseUpdate_cells p) as (Hw & _ & Ha).
  unfold hookOf in *. rewrite Hw, Ha, Hc, Hn.
  by rewrite bool_decide_false by done.
Qed.

(** The one button that calls [onEndCall]. *)
Lemma buttonsOf_OnEndCall st e b :
  b ∈ buttonsOf st e -> onClick b = OnEndCall ->
  disabled b = false /\ exists c m, e = ControlButtons c m true.
Proof.
  destruct e as [msg sub|label| |s l c m lbl|c m [|]|[[|]|] [od|] [ad|] co ca cn
                |cs]; simpl; unfold ControlButtons_buttons; simpl;
    intros Hb Hclick;
    repeat (apply elem_of_cons in Hb as [->|Hb]; [try discriminate|]);
    try (by apply elem_of_nil in Hb).
  split; [done|]. by eauto.
Qed.

(** X15.  When the page offers to end the call.  Whatever the page's
    cells are, the button that ends the call is there exactly when the
    hook reports [isConnected] and is not connecting: only the connected
    page passes [isConnected] on to [ControlButtons], the ready and the
    signaling pages pass false, and a connected hook always brings the
    page to the connected state before anything is shown. *)
Theorem end_call_is_offered_iff_connected (p : Home) :
  OnEndCall ∈ clickable p <->
  isConnected (hookOf p) = true /\ isConnecting (hookOf p) = false.
Proof.
  unfold clickable, buttons. split.
  - intros H. apply list_elem_of_fmap in H as (b & Hclick & Hb).
    apply list_elem_of_filter in Hb as [_ Hb].
    apply list_elem_of_bind in Hb as (e & Hb & He).
    destruct (buttonsOf_OnEndCall _ e b Hb (eq_sym Hclick))
      as (_ & c & m & ->).
    by eapply view_ControlButtons_connected.
  - intros [Hc Hn]. rewrite (view_connected p Hc Hn).
    apply list_elem_of_fmap.
    exists {| onClick := OnEndCall; disabled := false |}.
    split; [done|]. apply list_elem_of_filter. split; [done|].
    apply list_elem_of_bind.
    exists (ControlButtons (isCameraOn (media (webrtc p)))
              (isMicOn (media (webrtc p))) true).
    split; [|do 3 right; left].
    simpl. unfold ControlButtons_buttons. do 2 right. left.
Qed.

(** X16.  [SignalingInterface] is never shown while connecting.  In every
    render of the page, each [SignalingInterface] is given [isConnecting]
    false: while the hook is connecting the page shows the loading screen
    instead, so the "Connecting..." state of the component's Connect
    button is never displayed, and [isConnecting] never disables it. *)
Theorem signaling_interface_never_sees_connecting
  (p : Home) (r : option UserRole) (od ad : option SignalingData)
  (co ca cn : bool) :
  SignalingInterface r od ad co ca cn ∈ view p -> cn = false.
Proof.
  unfold view, render.
  destruct (renderPhaseUpdate_cells p) as (Hw & _ & Ha).
  set (q := renderPhaseUpdate p) in *.
  unfold hookOf in *. rewrite Hw.
  destruct (bool_decide _).
  { intros H. apply list_elem_of_singleton in H. discriminate. }
  destruct (isConnecting (hook (world (webrtc p)))) eqn:Hn.
  { intros H. apply list_elem_of_singleton in H. discriminate. }
  intros H.
  destruct (appState q);
    repeat (apply elem_of_cons in H as [H|H];
            [try discriminate; by injection H as _ _ _ _ _ ->|]);
    by apply elem_of_nil in H.
Qed.

Lemma signaling_interface_never_sees_connecting_witness :
  SignalingInterface (Some caller) None None false false false
    ∈ view callerWithCamera /\
  false = false.
Proof.
  assert (SignalingInterface (Some caller) None None false false false
            ∈ view callerWithCamera) as H
    by (vm_compute; do 3 right; left).
  split; [exact H|].
  exact (signaling_interface_never_sees_connecting callerWithCamera
           _ _ _ _ _ _ H).
Defined.

Lemma toggleClicks_snoc cs c p :
  toggleClicks (cs ++ [c]) p
  = (if c then onToggleCamera else onToggleMic) (toggleClicks cs p).
Proof. unfold toggleClicks. rewrite foldl_app. simpl. by destruct c. Qed.

(** The toggles touch the media only. *)
Lemma toggleClicks_cells cs p :
  appState (toggleClicks cs p) = appState p /\
  hookOf (toggleClicks cs p) = hookOf p /\
  signaling (toggleClicks cs p) = signaling p.
Proof.
  induction cs as [|c cs IH] using rev_ind; [done|].
  rewrite toggleClicks_snoc. by destruct c.
Qed.

(** The page in the connected state with a hook that is neither connected
    nor connecting. *)
Lemma view_lost p :
  appState p = app_connected ->
  isConnected (hookOf p) = false -> isConnecting (hookOf p) = false ->
  view p
  = [ConnectionStatus (statusLabel (connectionState (hookOf p)));
     VideoDisplay (localStream (media (webrtc p))) true
       (isCameraOn (media (webrtc p))) (isMicOn (media (webrtc p))) "You";
     VideoDisplay (remoteStream (hookOf p)) false true true "Remote";
     ControlButtons (isCameraOn (media (webrtc p)))
       (isMicOn (media (webrtc p))) false;
     ConnectionInfo (connectionState (hookOf p))].
Proof.
  intros Ha Hc Hn. unfold view, render, renderPhaseUpdate.
  rewrite Hc. simpl. unfold hookOf in *. by rewrite Ha, Hc, Hn.
Qed.

(** X17.  A lost call is a dead end.  When the page is in the connected
    state and the hook is neither connected nor connecting (the transport
    reported 'disconnected' or 'failed', or the answer was handled and the
    attempt failed), the page still shows the connected page with its
    "Connected!" block, and the only buttons are the two toggles: nothing
    on the page ends the call, resets the connection or leads back.
    Clicking the toggles, in any number and order, changes none of
    this. *)
Theorem lost_call_is_a_dead_end (p : Home) (cs : list bool) :
  appState p = app_connected ->
  isConnected (hookOf p) = false -> isConnecting (hookOf p) = false ->
  clickable (toggleClicks cs p) = [OnToggleCamera; OnToggleMic] /\
  ConnectionInfo (connectionState (hookOf p)) ∈ view (toggleClicks cs p) /\
  appState (toggleClicks cs p) = app_connected /\
  hookOf (toggleClicks cs p) = hookOf p.
Proof.
  intros Ha Hc Hn.
  destruct (toggleClicks_cells cs p) as (Ha' & Hh & _).
  set (q := toggleClicks cs p) in *.
  assert (view q
          = [ConnectionStatus (statusLabel (connectionState (hookOf p)));
             VideoDisplay (localStream (media (webrtc q))) true
               (isCameraOn (media (webrtc q))) (isMicOn (media (webrtc q)))
               "You";
             VideoDisplay (remoteStream (hookOf p)) false true true "Remote";
             ControlButtons (isCameraOn (media (webrtc q)))
               (isMicOn (media (webrtc q))) false;
             ConnectionInfo (connectionState (hookOf p))]) as Hview.
  { rewrite <- Hh. apply view_lost; by rewrite ?Ha', ?Hh. }
  split; [|split; [|split]].
  - unfold clickable, buttons. by rewrite Hview.
  - rewrite Hview. do 4 right. left.
  - by rewrite Ha'.
  - done.
Qed.

Lemma lost_call_is_a_dead_end_witness :
  appState callerAfterFailedAttempt = app_connected /\
  isConnected (hookOf callerAfterFailedAttempt) = false /\
  isConnecting (hookOf callerAfterFailedAttempt) = false /\
  connectionState (hookOf callerAfterFailedAttempt) = failed /\
  clickable (toggleClicks [true; false; true] callerAfterFailedAttempt)
  = [OnToggleCamera; OnToggleMic].
Proof.
  assert (appState callerAfterFailedAttempt = app_connected) as Ha
    by (by vm_compute).
  assert (isConnected (hookOf callerAfterFailedAttempt) = false) as Hc
    by (by vm_compute).
  assert (isConnecting (hookOf callerAfterFailedAttempt) = false) as Hn
    by (by vm_compute).
  split; [exact Ha|]. split; [exact Hc|]. split; [exact Hn|].
  split; [by vm_compute|].
  exact (proj1 (lost_call_is_a_dead_end callerAfterFailedAttempt
                  [true; false; true] Ha Hc Hn)).
Defined.

(** *** Ending the call *)

Lemma Later_Reachable w w' : Reachable w -> Later w w' -> Reachable w'.
Proof.
  intros Hw. induction 1 as [|c w' _ IH|t w' _ IH|o w' v _ IH Hv
                            |p o w' v _ IH Hv|p o w' v _ IH Hv
                            |p o w' v _ IH Hv].
  - done.
  - by constructor.
  - by constructor.
  - by eapply Reachable_createOffer.
  - by eapply Reachable_handleAnswer.
  - by eapply Reachable_createAnswer.
  - by eapply Reachable_handleOffer.
Qed.

Lemma AppReachable_Reachable a : AppReachable a -> Reachable (world a).
Proof.
  induction 1 as [|a w' _ IH Hlater|c a _ IH|stream i a _ IH]; simpl.
  - exact (Reachable_lifecycle Initialize initialWorld Reachable_initial).
  - by eapply Later_Reachable.
  - done.
  - done.
Qed.

Lemma view_idle p :
  appState p = app_idle ->
  isConnected (hookOf p) = false -> isConnecting (hookOf p) = false ->
  view p
  = [ConnectionStatus (statusLabel (connectionState (hookOf p)));
     StartCameraButton].
Proof.
  intros Ha Hc Hn. unfold view, render, renderPhaseUpdate.
  rewrite Hc. simpl. unfold hookOf in *. by rewrite Ha, Hn.
Qed.

Lemma handleEndCall_cells p :
  appState (handleEndCall p) = app_idle /\
  world (webrtc (handleEndCall p)) = resetConnection (world (webrtc p)) /\
  media (webrtc (handleEndCall p)) = stopCamera (media (webrtc p)) /\
  role (handleEndCall p) = None /\ offerData (handleEndCall p) = None /\
  answerData (handleEndCall p) = None.
Proof. done. Qed.

(** X18.  Ending the call gives the page back as it started.  In every
    state of the hook after mount and for any cells of the page,
    [handleEndCall] leaves the idle page with the Start Camera button as
    its only button; role, offer and answer are forgotten; the hook's
    status is cleared and one freshly made connection is open, with none
    of the local tracks on it; there is no local stream any more, both
    flags are false and every track of the stream there was has been
    stopped. *)
Theorem end_call_starts_over (p : Home) :
  AppReachable (webrtc p) ->
  let p' := handleEndCall p in
  view p' = [ConnectionStatus "Disconnected"; StartCameraButton] /\
  clickable p' = [OnStartCamera] /\
  (role p' = None /\ offerData p' = None /\ answerData p' = None) /\
  (StatusClear (world (webrtc p')) /\ isConnected (hookOf p') = false /\
   remoteStream (hookOf p') = None /\
   FreshSession (world (webrtc p'))) /\
  (localStream (media (webrtc p')) = None /\
   isCameraOn (media (webrtc p')) = false /\
   isMicOn (media (webrtc p')) = false) /\
  (forall stream : nat,
     localStream (media (webrtc p)) = Some stream ->
     Forall (fun t => ended t = true)
       (getTracks (media (webrtc p')) stream)) /\
  (exists h, peerConnectionRef (hookOf p') = Some h /\
             sendersOf h (media (webrtc p')) = []).
Proof.
  intros Ha p'.
  pose proof (AppReachable_Reachable _ Ha) as Hw.
  destruct (resetConnection_fresh (world (webrtc p))
              (Reachable_AtMostOneOpen _ Hw)) as [_ Hfresh].
  pose proof (resetConnection_StatusClear (world (webrtc p))) as Hclear.
  assert (isConnected (hook (resetConnection (world (webrtc p)))) = false /\
          remoteStream (hook (resetConnection (world (webrtc p)))) = None /\
          connectionState (hook (resetConnection (world (webrtc p)))) = new)
    as (Hc & Hr & Hs).
  { unfold resetConnection, initializePeerConnection, construct. simpl.
    by rewrite closeCurrent_hook. }
  destruct (handleEndCall_cells p) as (Happ & Hworld & Hmedia & Hrole).
  fold p' in Happ, Hworld, Hmedia, Hrole.
  assert (hookOf p' = hook (resetConnection (world (webrtc p)))) as Hhook
    by (unfold hookOf; by rewrite Hworld).
  assert (view p' = [ConnectionStatus "Disconnected"; StartCameraButton])
    as Hview.
  { rewrite view_idle; rewrite ?Hhook; [by rewrite Hs|done|done|].
    by destruct Hclear. }
  split; [done|]. split; [unfold clickable, buttons; by rewrite Hview|].
  split; [done|]. rewrite Hhook, Hworld, Hmedia.
  split; [done|].
  split.
  { unfold stopCamera.
    destruct (localStream (media (webrtc p))) eqn:Hl; simpl;
      [done|by rewrite Hl]. }
  split.
  { intros stream Hl. unfold stopCamera. rewrite Hl.
    change (getTracks (setIsMicOn false (setIsCameraOn false
              (setLocalStream None ?m))) stream) with (getTracks m stream).
    unfold stopTracks. rewrite getTracks_alter by done.
    rewrite decide_True by done.
    apply Forall_forall. intros t Ht.
    apply list_elem_of_fmap in Ht as (t' & -> & _). done. }
  exists (length (pcs (world (webrtc p)))).
  destruct (resetConnection_ref (world (webrtc p))) as [Href _].
  split; [done|].
  pose proof (AppReachable_SendersOfConnections _ Ha) as Hsend.
  unfold SendersOfConnections in Hsend. unfold sendersOf.
  assert (senders (stopCamera (media (webrtc p)))
          = senders (media (webrtc p))) as ->.
  { unfold stopCamera. destruct (localStream (media (webrtc p))); by simpl. }
  induction Hsend as [|s l Hs' _ IH]; [done|].
  rewrite filter_cons_False by lia. exact IH.
Qed.

Lemma end_call_starts_over_witness :
  AppReachable (webrtc callerInCall) /\
  OnEndCall ∈ clickable callerInCall /\
  view (handleEndCall callerInCall)
  = [ConnectionStatus "Disconnected"; StartCameraButton] /\
  getTracks (media (webrtc (handleEndCall callerInCall))) 0
  = map stop cameraAndMic.
Proof.
  assert (AppReachable (webrtc callerInCall)) as Ha.
  { apply (AppReachable_world
             {| world := mounted; media := cameraStarted |}).
    - exact (AppReachable_media (StartCamera (Granted cameraAndMic))
               mountedApp AppReachable_mounted).
    - apply Later_task. apply Later_refl. }
  split; [exact Ha|]. split; [vm_compute; do 2 right; left|].
  split; [exact (proj1 (end_call_starts_over callerInCall Ha))|].
  by vm_compute.
Defined.

(** ** The pasted text *)

Lemma skipWhitespace_JSONWhitespace ws s :
  JSONWhitespace ws -> JSON.skipWhitespace (ws ++ s) = JSON.skipWhitespace s.
Proof.
  induction 1 as [|c ws Hc _ IH]; [done|]. simpl. by rewrite Hc.
Qed.

Lemma endsNumber_JSONWhitespace ws : JSONWhitespace ws -> JSON.endsNumber ws.
Proof.
  destruct 1 as [|c ws Hc _]; [done|]. simpl.
  unfold JSON.isWhitespace in Hc.
  rewrite !orb_true_iff, !N.eqb_eq in Hc.
  destruct Hc as [[[->| ->]| ->]| ->]; done.
Qed.

(** X19.  White space around the pasted text does no harm.  The text of
    a payload, as the page shows and copies it, is read back to the same
    payload (an offer by the callee, an answer by the caller) also when
    spaces, tabs, line feeds or carriage returns come before or after it,
    as a copy and paste through a mail or a chat often adds. *)
Theorem pasted_text_may_have_white_space_around
  (data : SignalingData) (before after : JSString) :
  JSONWhitespace before -> JSONWhitespace after ->
  handleSubmitOffer (before ++ signalingText data ++ after) = Some data /\
  handleSubmitAnswer (before ++ signalingText data ++ after) = Some data.
Proof.
  intros Hb Ha.
  assert (JSON.parse (before ++ signalingText data ++ after)
          = Some (JSON.toJSON data)) as Hparse.
  { unfold JSON.parse, signalingText, JSON.stringify.
    set (text := before ++ _).
    rewrite (JSONFacts.parseValue_skipWhitespace (S (length text)) text
               (JSON.SerializeJSONProperty 0 (JSON.toJSON data) ++ after))
      by (by apply skipWhitespace_JSONWhitespace).
    rewrite (JSONFacts.parseValue_serialize (JSON.toJSON data) 0 after).
    - pose proof (skipWhitespace_JSONWhitespace after [] Ha) as Hs.
      rewrite app_nil_r in Hs. by rewrite Hs.
    - by apply endsNumber_JSONWhitespace.
    - pose proof (JSONFacts.size_le_length (JSON.toJSON data) 0).
      subst text. rewrite !length_app. lia. }
  unfold handleSubmitOffer, handleSubmitAnswer. rewrite Hparse. simpl.
  split; apply JSONFacts.ofJSON_toJSON.
Qed.

Lemma pasted_text_may_have_white_space_around_witness :
  JSONWhitespace [10; 32; 9]%N /\ JSONWhitespace [13; 10]%N /\
  handleSubmitOffer ([10; 32; 9]%N ++ signalingText peerOffer ++ [13; 10]%N)
  = Some peerOffer.
Proof.
  assert (JSONWhitespace [10; 32; 9]%N) as Hb by (by repeat constructor).
  assert (JSONWhitespace [13; 10]%N) as Ha by (by repeat constructor).
  split; [exact Hb|]. split; [exact Ha|].
  exact (proj1 (pasted_text_may_have_white_space_around peerOffer _ _ Hb Ha)).
Defined.

Lemma isTrimmed_range c :
  isTrimmed c = true -> (c <= 13 \/ c = 32 \/ 160 <= c)%N.
Proof.
  unfold isTrimmed. rewrite orb_true_iff, andb_true_iff, !N.leb_le.
  intros [H|H]; [|lia]. apply bool_decide_eq_true in H.
  repeat (apply elem_of_cons in H as [->|H]; [lia|]).
  by apply elem_of_nil in H.
Qed.

Lemma trimStart_nil s :
  trimStart s = [] -> Forall (fun c => isTrimmed c = true) s.
Proof.
  induction s as [|c s IH]; [done|]. simpl.
  destruct (isTrimmed c) eqn:Hc; [|done]. intros H. by constructor; auto.
Qed.

Lemma trimStart_Forall s :
  Forall (fun c => isTrimmed c = true) (trimStart s) ->
  Forall (fun c => isTrimmed c = true) s.
Proof.
  induction s as [|c s IH]; [done|]. simpl.
  destruct (isTrimmed c) eqn:Hc; [|done]. intros H. by constructor; auto.
Qed.

(** A text of which [trim] leaves nothing is white space throughout. *)
Lemma trim_nil s : trim s = [] -> Forall (fun c => isTrimmed c = true) s.
Proof.
  unfold trim. intros H.
  apply (f_equal reverse) in H. rewrite reverse_involutive in H.
  change (reverse []) with (@nil N) in H.
  apply trimStart_nil in H. rewrite Forall_reverse in H.
  by apply trimStart_Forall.
Qed.

Lemma skipWhitespace_Forall (P : N -> Prop) s :
  Forall P s -> Forall P (JSON.skipWhitespace s).
Proof.
  induction 1 as [|c s Hc Hs IH]; [done|]. simpl.
  destruct (JSON.isWhitespace c); [done|]. by constructor.
Qed.

(** No value starts with a code unit that [trim] removes. *)
Lemma parseValue_trimmed f s :
  Forall (fun c => isTrimmed c = true) s -> JSON.parseValue f s = None.
Proof.
  intros Hs. destruct f as [|f]; [done|]. simpl.
  apply (skipWhitespace_Forall _ s) in Hs.
  destruct (JSON.skipWhitespace s) as [|c s']; [done|].
  apply Forall_cons in Hs as [Hc _]. apply isTrimmed_range in Hc.
  repeat (rewrite (proj2 (N.eqb_neq c _)) by lia).
  unfold JSON.parseNumber. simpl. unfold JSON.digitOf.
  repeat (rewrite (proj2 (N.eqb_neq c _)) by lia). simpl.
  by repeat (rewrite (proj2 (N.eqb_neq c _)) by lia).
Qed.

(** X20.  The Connect and Create Answer buttons are disabled for a blank
    input only, and a blank input is never a payload.  A text of which
    [trim()] leaves nothing is refused by [JSON.parse]: the emptiness
    test never keeps back a text that could have been submitted. *)
Theorem blank_input_is_not_a_payload (s : JSString) :
  falsy (trim s) = true ->
  JSON.parse s = None /\
  handleSubmitOffer s = None /\ handleSubmitAnswer s = None.
Proof.
  intros H. apply bool_decide_eq_true in H. apply trim_nil in H.
  assert (JSON.parse s = None) as Hparse.
  { unfold JSON.parse. by rewrite parseValue_trimmed. }
  unfold handleSubmitOffer, handleSubmitAnswer. by rewrite Hparse.
Qed.

Lemma blank_input_is_not_a_payload_witness :
  falsy (trim [32; 160; 10; 8232; 9]%N) = true /\
  handleSubmitOffer [32; 160; 10; 8232; 9]%N = None.
Proof.
  assert (falsy (trim [32; 160; 10; 8232; 9]%N) = true) as H
    by (by vm_compute).
  split; [exact H|].
  exact (proj1 (proj2 (blank_input_is_not_a_payload _ H))).
Defined.

(** *** While a step is in progress *)

(** A [SignalingInterface] with a role is the one of the signaling page,
    and is given the page's own cells. *)
Lemma view_SignalingInterface_role p r od ad co ca cn :
  SignalingInterface (Some r) od ad co ca cn ∈ view p ->
  co = isCreatingOffer p /\ ca = isCreatingAnswer p.
Proof.
  unfold view, render.
  assert (isCreatingOffer (renderPhaseUpdate p) = isCreatingOffer p /\
          isCreatingAnswer (renderPhaseUpdate p) = isCreatingAnswer p)
    as [<- <-].
  { unfold renderPhaseUpdate. by destruct (_ && _). }
  set (q := renderPhaseUpdate p).
  destruct (bool_decide _).
  { intros H. apply list_elem_of_singleton in H. discriminate. }
  destruct (isConnecting (hookOf q)).
  { intros H. apply list_elem_of_singleton in H. discriminate. }
  intros H.
  destruct (appState q);
    repeat (apply elem_of_cons in H as [H|H];
            [try discriminate; by injection H as _ _ _ -> ->|]);
    by apply elem_of_nil in H.
Qed.

(** The buttons that start a negotiation step. *)
Lemma buttonsOf_OnCreateOffer st e b :
  b ∈ buttonsOf st e -> onClick b = OnCreateOffer ->
  exists r od ad ca cn,
    e = SignalingInterface (Some r) od ad (disabled b) ca cn.
Proof.
  destruct e as [msg sub|label| |s l c m lbl|c m [|]|[[|]|] [od|] [ad|] co ca cn
                |cs]; simpl; unfold ControlButtons_buttons; simpl;
    intros Hb Hclick;
    repeat (apply elem_of_cons in Hb as [->|Hb]; [try discriminate|]);
    try (by apply elem_of_nil in Hb);
    simpl; by eauto 10.
Qed.

Lemma buttonsOf_OnSubmitOffer st e b :
  b ∈ buttonsOf st e -> onClick b = OnSubmitOffer ->
  exists r od ad co cn ca,
    e = SignalingInterface (Some r) od ad co ca cn /\
    disabled b = falsy (trim (offerInput st)) || ca.
Proof.
  destruct e as [msg sub|label| |s l c m lbl|c m [|]|[[|]|] [od|] [ad|] co ca cn
                |cs]; simpl; unfold ControlButtons_buttons; simpl;
    intros Hb Hclick;
    repeat (apply elem_of_cons in Hb as [->|Hb]; [try discriminate|]);
    try (by apply elem_of_nil in Hb);
    simpl; by eauto 10.
Qed.

Lemma clickable_elem c p :
  c ∈ clickable p ->
  exists e b, e ∈ view p /\ b ∈ buttonsOf (signaling p) e /\
              onClick b = c /\ disabled b = false.
Proof.
  unfold clickable, buttons. intros H.
  apply list_elem_of_fmap in H as (b & -> & Hb).
  apply list_elem_of_filter in Hb as [Hd Hb].
  apply list_elem_of_bind in Hb as (e & Hb & He). by eauto 10.
Qed.

Lemma final_visited {A} (st : Step A) o i :
  final (exec st o i) ∈ visited (exec st o i).
Proof.
  revert i. induction st as [w r|w c k IH]; intros i; simpl; [left|].
  destruct (settle c (o i) (afterTasks (tasks (o i)) w)) as [w2 r] eqn:Hs.
  simpl. right. apply elem_of_app. right. apply IH.
Qed.

Lemma run_StatusClear {A} (m : Async A) o w v :
  Safe StatusClear (m w) -> v ∈ visited (run m o w) -> StatusClear v.
Proof.
  intros Hsafe Hv.
  destruct (exec_Safe StatusClear o (m w) 0) as [Hall _]; [|done|].
  - intros j t w' _. apply runTask_StatusClear.
  - rewrite Forall_forall in Hall. by apply Hall.
Qed.

(** X21.  A step in progress cannot be started again, and shows no
    connecting screen.  Take a page whose hook is not in a connection
    attempt.  At every idle moment of the [createOffer] that
    [handleCreateOffer] awaits, the page, with its busy flag set, does not
    show the connecting screen and has no active button to create an
    offer; likewise, at every idle moment of the [createAnswer] that
    [handleCreateAnswer] awaits, it has no active button to submit an
    offer.  This holds for every behaviour of the browser. *)
Theorem step_in_progress_cannot_be_restarted
  (p : Home) (offerPayload : SignalingData) (o : Oracle) (v : World) :
  StatusClear (world (webrtc p)) ->
  (v ∈ visited (run createOffer o (world (webrtc p))) ->
   let q := setWorld v (setIsCreatingOffer true p) in
   isConnecting (hookOf q) = false /\ OnCreateOffer ∉ clickable q) /\
  (v ∈ visited (run (createAnswer offerPayload) o (world (webrtc p))) ->
   let q := setWorld v (setIsCreatingAnswer true p) in
   isConnecting (hookOf q) = false /\ OnSubmitOffer ∉ clickable q).
Proof.
  intros Hclear.
  assert (forall c rsp w, StatusClear w -> StatusClear (settle c rsp w).1)
    as Hsettle.
  { intros c rsp w. unfold StatusClear. by rewrite settle_hook. }
  split; intros Hv q.
  - split.
    + eapply (run_StatusClear createOffer); [|exact Hv].
      by apply createOffer_Safe.
    + intros (e & b & He & Hb & Hclick & Hd)%clickable_elem.
      destruct (buttonsOf_OnCreateOffer _ e b Hb Hclick)
        as (r & od & ad & ca & cn & ->).
      apply view_SignalingInterface_role in He as [Hco _].
      rewrite Hd in Hco. discriminate.
  - split.
    + eapply (run_StatusClear (createAnswer offerPayload)); [|exact Hv].
      by apply createAnswer_Safe.
    + intros (e & b & He & Hb & Hclick & Hd)%clickable_elem.
      destruct (buttonsOf_OnSubmitOffer _ e b Hb Hclick)
        as (r & od & ad & co & cn & ca & -> & Hdis).
      apply view_SignalingInterface_role in He as [_ Hca].
      rewrite Hd, Hca in Hdis. simpl in Hdis.
      by rewrite orb_true_r in Hdis.
Qed.

Lemma step_in_progress_cannot_be_restarted_witness :
  StatusClear (world (webrtc callerWithCamera)) /\
  OnCreateOffer ∈ clickable callerWithCamera /\
  OnCreateOffer
    ∉ clickable
        (setWorld (final (run createOffer offerRound
                            (world (webrtc callerWithCamera))))
           (setIsCreatingOffer true callerWithCamera)).
Proof.
  assert (StatusClear (world (webrtc callerWithCamera))) as Hc
    by (by vm_compute).
  split; [exact Hc|]. split; [vm_compute; do 2 right; left|].
  apply (proj1 (step_in_progress_cannot_be_restarted callerWithCamera
                  peerOffer offerRound _ Hc)).
  exact (final_visited (createOffer (world (webrtc callerWithCamera)))
           offerRound 0).
Defined.

(** *** Starting the camera from the page *)







